(** * Robot timing simulation: [robot_scheduler.py]

    A shallow embedding of the entity model ([Robot], [Organizer], [Mover],
    [Platform]), of [RobotScheduler.__init__] and [RobotScheduler.run], and
    of [InputReader], [OutputWriter] and the main program, followed by the
    properties established about them.

    Modelling conventions.
    - Python integers are unbounded: every integer attribute is a [Z].
      The state codes stay the integers the code compares against
      (robot 1 working, 2 waiting, 3 moving; platform 1 busy, 2 free).
    - Robot objects live in a store (the list the caller hands to the
      scheduler, an object being identified by its position there);
      [self.robots] is a list of references into that store, so robots the
      scheduler does not reference are still part of the state.
    - [platform_map] is the dictionary from platform id to platform object,
      a [gmap Z Platform.t]; distinct keys hold distinct objects, as the
      loader builds them.
    - A raised exception carries the state reached when it was raised:
      mutations performed before the raise stay visible, as in Python.
    - [run] is a [while] loop; it is embedded with a fuel argument, and
      termination is proved separately.
    - Files are the rows [csv.reader] yields and [csv.writer] is given;
      Python's [int] on a string is a parameter of the loader. *)

From Stdlib Require Import ZArith String List Lia.
From stdpp Require Import base option list gmap strings pretty.

Open Scope Z_scope.

(** * The program *)

(** ** Entity model *)

Inductive exn : Set := IndexError | KeyError | ValueError.

(** The concrete subclass of [Robot]; it selects the [action] method. *)
Inductive Kind : Set := Organizer | Mover.

Module Robot.
Record t : Set := mk {
  robot_id : Z;
  kind : Kind;
  velocity : Z;
  state : Z;
  path : list Z;
  time_left : Z;
  time_spend : Z
}.

Definition with_state (r : t) (v : Z) : t :=
  mk (robot_id r) (kind r) (velocity r) v (path r) (time_left r) (time_spend r).
Definition with_path (r : t) (v : list Z) : t :=
  mk (robot_id r) (kind r) (velocity r) (state r) v (time_left r) (time_spend r).
Definition with_time_left (r : t) (v : Z) : t :=
  mk (robot_id r) (kind r) (velocity r) (state r) (path r) v (time_spend r).
Definition with_time_spend (r : t) (v : Z) : t :=
  mk (robot_id r) (kind r) (velocity r) (state r) (path r) (time_left r) v.
End Robot.

Module Platform.
Record t : Set := mk {
  platform_id : Z;
  node_type : string;
  state : Z;
  time_left : Z;
  cur_visitor : list Z;
  visitor : list Z
}.

Definition with_state (p : t) (v : Z) : t :=
  mk (platform_id p) (node_type p) v (time_left p) (cur_visitor p) (visitor p).
Definition with_time_left (p : t) (v : Z) : t :=
  mk (platform_id p) (node_type p) (state p) v (cur_visitor p) (visitor p).
Definition with_cur_visitor (p : t) (v : list Z) : t :=
  mk (platform_id p) (node_type p) (state p) (time_left p) v (visitor p).
Definition with_visitor (p : t) (v : list Z) : t :=
  mk (platform_id p) (node_type p) (state p) (time_left p) (cur_visitor p) v.
End Platform.

(** [Organizer.action] and [Mover.action]: the service duration, or the
    [ValueError] raised for a node type other than ['A'] and ['B']. *)
Definition action (k : Kind) (node_type : string) : exn + Z :=
  match k with
  | Organizer =>
      if String.eqb node_type "A" then inr 30
      else if String.eqb node_type "B" then inr 45
      else inl ValueError
  | Mover =>
      if String.eqb node_type "A" then inr 20
      else if String.eqb node_type "B" then inr 35
      else inl ValueError
  end.

(** ** Scheduler state *)

(** [store]: the robot objects; [platform_map], [robots], [times]: the
    attributes of the [RobotScheduler] object.  Before [__init__] assigns
    them, [robots] and [times] are represented by [[]] and [0]. *)
Record Sim : Type := mkSim {
  store : list Robot.t;
  platform_map : gmap Z Platform.t;
  robots : list nat;
  times : Z
}.

Definition set_robot (i : nat) (r : Robot.t) (s : Sim) : Sim :=
  mkSim (<[i := r]> (store s)) (platform_map s) (robots s) (times s).

Definition set_platform (p : Z) (pl : Platform.t) (s : Sim) : Sim :=
  mkSim (store s) (<[p := pl]> (platform_map s)) (robots s) (times s).

Definition set_times (n : Z) (s : Sim) : Sim :=
  mkSim (store s) (platform_map s) (robots s) n.

(** The result of a piece of code: it completes with a value, or raises. *)
Inductive outcome (A : Type) : Type :=
| Done (a : A) (s : Sim)
| Raised (e : exn) (s : Sim).
Arguments Done {A} a s.
Arguments Raised {A} e s.

Definition final {A : Type} (o : outcome A) : Sim :=
  match o with Done _ s => s | Raised _ s => s end.

(** ** [RobotScheduler.__init__] *)

(** Body of the initialisation loop for the robot referenced by [i].  The
    references come from [pick], which has checked them, so the first case
    is never taken by the constructor. *)
Definition init_robot (i : nat) (s : Sim) : outcome unit :=
  match store s !! i with
  | None => Raised IndexError s
  | Some r =>
      match Robot.path r with
      | [] => Raised IndexError s
      | p :: _ =>
          match platform_map s !! p with
          | None => Raised KeyError s
          | Some pl =>
              let r1 := Robot.with_state r 1 in
              match action (Robot.kind r) (Platform.node_type pl) with
              | inl e => Raised e (set_robot i r1 s)
              | inr d =>
                  let r2 := Robot.with_time_left r1 d in
                  let pl' :=
                    Platform.mk (Platform.platform_id pl) (Platform.node_type pl)
                      1 d
                      (Platform.cur_visitor pl ++ [Robot.robot_id r])
                      (Platform.visitor pl ++ [Robot.robot_id r]) in
                  Done tt (set_platform p pl' (set_robot i r2 s))
              end
          end
      end
  end.

Fixpoint init_loop (refs : list nat) (s : Sim) : outcome unit :=
  match refs with
  | [] => Done tt s
  | i :: rest =>
      match init_robot i s with
      | Done _ s' => init_loop rest s'
      | Raised e s' => Raised e s'
      end
  end.

(** [[robots[i] for i in [0, 2, 1, 3]]]: the references picked, or [None]
    when one of the four subscripts is out of range. *)
Fixpoint pick (rs : list Robot.t) (idx : list nat) : option (list nat) :=
  match idx with
  | [] => Some []
  | i :: rest =>
      match rs !! i with
      | None => None
      | Some _ =>
          match pick rs rest with
          | None => None
          | Some l => Some (i :: l)
          end
      end
  end.

Definition RobotScheduler_init (rs : list Robot.t) (pm : gmap Z Platform.t)
  : outcome unit :=
  match pick rs [0; 2; 1; 3]%nat with
  | None => Raised IndexError (mkSim rs pm [] 0)
  | Some refs => init_loop refs (mkSim rs pm refs 0)
  end.

(** ** [RobotScheduler.run] *)

(** [sorted(self.robots, key = lambda r : r.state)]: a stable sort of the
    references by the state their robot has when the sort is called. *)
Definition state_key (s : Sim) (i : nat) : Z :=
  match store s !! i with
  | Some r => Robot.state r
  | None => 0
  end.

Fixpoint insert_by (key : nat -> Z) (x : nat) (l : list nat) : list nat :=
  match l with
  | [] => [x]
  | y :: l' => if key x <=? key y then x :: y :: l' else y :: insert_by key x l'
  end.

Definition sorted (key : nat -> Z) (l : list nat) : list nat :=
  foldr (insert_by key) [] l.

(** Lines 165-173: the robot still has time left on its task. *)
Definition keep_state (i : nat) (r : Robot.t) (p : Z) (s : Sim) : outcome bool :=
  let tick := Robot.with_time_left r (Robot.time_left r - 1) in
  if Robot.state r =? 1 then
    match platform_map s !! p with
    | None => Raised KeyError s
    | Some pl =>
        Done true
          (set_platform p (Platform.with_time_left pl (Platform.time_left pl - 1))
             (set_robot i tick s))
    end
  else if Robot.state r =? 2 then Done true (set_robot i tick s)
  else if Robot.state r =? 3 then Done true (set_robot i tick s)
  else Done true s.

(** Lines 176-186: a working robot leaves its platform. *)
Definition leave_platform (i : nat) (r : Robot.t) (p : Z) (rest : list Z) (s : Sim)
  : outcome bool :=
  match platform_map s !! p with
  | None => Raised KeyError s
  | Some pl =>
      let r' :=
        Robot.with_path
          (Robot.with_time_left (Robot.with_state r 3) (Robot.velocity r - 1)) rest in
      let s' := set_robot i r' s in
      match Platform.cur_visitor pl with
      | [] => Raised IndexError s'
      | _ :: q =>
          let pl1 := Platform.with_cur_visitor pl q in
          match q with
          | _ :: _ =>
              Done true
                (set_platform p
                   (Platform.with_time_left pl1 (Platform.time_left pl1 - 1)) s')
          | [] =>
              Done true
                (set_platform p
                   (Platform.with_time_left (Platform.with_state pl1 2) 0) s')
          end
      end
  end.

(** Lines 187-190: a waiting robot starts to work. *)
Definition start_work (i : nat) (r : Robot.t) (p : Z) (s : Sim) : outcome bool :=
  match platform_map s !! p with
  | None => Raised KeyError s
  | Some pl =>
      let r1 := Robot.with_state r 1 in
      match action (Robot.kind r) (Platform.node_type pl) with
      | inl e => Raised e (set_robot i r1 s)
      | inr d => Done true (set_robot i (Robot.with_time_left r1 (d - 1)) s)
      end
  end.

(** Lines 191-204: a moving robot arrives at the platform in front of its path. *)
Definition arrive (i : nat) (r : Robot.t) (p : Z) (s : Sim) : outcome bool :=
  match platform_map s !! p with
  | None => Raised KeyError s
  | Some pl =>
      let id := Robot.robot_id r in
      let pl1 := Platform.with_cur_visitor pl (Platform.cur_visitor pl ++ [id]) in
      let pl2 :=
        if decide (last (Platform.visitor pl1) = Some id) then pl1
        else Platform.with_visitor pl1 (Platform.visitor pl1 ++ [id]) in
      if Platform.state pl2 =? 1 then
        let r' :=
          Robot.with_time_left (Robot.with_state r 2) (Platform.time_left pl2) in
        match action (Robot.kind r) (Platform.node_type pl2) with
        | inl e => Raised e (set_platform p pl2 (set_robot i r' s))
        | inr d =>
            Done true
              (set_platform p
                 (Platform.with_time_left pl2 (Platform.time_left pl2 + d))
                 (set_robot i r' s))
        end
      else if Platform.state pl2 =? 2 then
        let r1 := Robot.with_state r 1 in
        let pl3 := Platform.with_state pl2 1 in
        match action (Robot.kind r) (Platform.node_type pl3) with
        | inl e => Raised e (set_platform p pl3 (set_robot i r1 s))
        | inr d =>
            Done true
              (set_platform p (Platform.with_time_left pl3 (d - 1))
                 (set_robot i (Robot.with_time_left r1 (d - 1)) s))
        end
      else Done true (set_platform p pl2 s)
  end.

(** Lines 175-204: the robot completed its task and changes state. *)
Definition change_state (i : nat) (r : Robot.t) (p : Z) (rest : list Z) (s : Sim)
  : outcome bool :=
  if Robot.state r =? 1 then leave_platform i r p rest s
  else if Robot.state r =? 2 then start_work i r p s
  else if Robot.state r =? 3 then arrive i r p s
  else Done true s.

(** Lines 155-204: the body of the [for] loop for the robot referenced by
    [i].  The value tells whether the robot set [flag].  A reference that
    points to no robot does not exist in a constructed scheduler; it is
    passed over. *)
Definition evaluate (i : nat) (s : Sim) : outcome bool :=
  match store s !! i with
  | None => Done false s
  | Some r0 =>
      match Robot.path r0 with
      | [] => Done false s
      | p :: rest =>
          let r := Robot.with_time_spend r0 (Robot.time_spend r0 + 1) in
          let s1 := set_robot i r s in
          if 0 <? Robot.time_left r then keep_state i r p s1
          else change_state i r p rest s1
      end
  end.

(** The [for] loop over the sorted references, threading [flag]. *)
Fixpoint pass (order : list nat) (flag : bool) (s : Sim) : outcome bool :=
  match order with
  | [] => Done flag s
  | i :: rest =>
      match evaluate i s with
      | Done a s' => pass rest (flag || a) s'
      | Raised e s' => Raised e s'
      end
  end.

(** One iteration of the [while] loop: [flag = False], [self.times += 1],
    then the pass in sorted order. *)
Definition tick (s : Sim) : outcome bool :=
  let s1 := set_times (times s + 1) s in
  pass (sorted (state_key s1) (robots s1)) false s1.

(** [run]: iterate [tick] while [flag] stays set; [None] when the fuel runs
    out before the loop exits. *)
Fixpoint run (fuel : nat) (s : Sim) : option (outcome unit) :=
  match fuel with
  | O => None
  | S fuel' =>
      match tick s with
      | Done true s' => run fuel' s'
      | Done false s' => Some (Done tt s')
      | Raised e s' => Some (Raised e s')
      end
  end.

(** The main program: construct the scheduler, then run it. *)
Definition schedule (fuel : nat) (rs : list Robot.t) (pm : gmap Z Platform.t)
  : option (outcome unit) :=
  match RobotScheduler_init rs pm with
  | Done _ s => run fuel s
  | Raised e s => Some (Raised e s)
  end.

(** [n] iterations of the loop body, stopping early on exit or exception. *)
Fixpoint ticks (n : nat) (s : Sim) : outcome bool :=
  match n with
  | O => Done true s
  | S n' =>
      match tick s with
      | Done true s' => ticks n' s'
      | o => o
      end
  end.

(** ** Objects as [InputReader] builds them *)

(** [read_robots]: state 1, no time left, no time spent yet. *)
Definition loaded_robot (id : Z) (k : Kind) (v : Z) (path : list Z) : Robot.t :=
  Robot.mk id k v 1 path 0 0.

(** [read_platforms]: free, no time left, empty queue and log. *)
Definition loaded_platform (id : Z) (node_type : string) : Platform.t :=
  Platform.mk id node_type 2 0 [] [].

(** ** [InputReader] *)

(** The readers are embedded on what [csv.reader] yields: the rows of a
    file, each a list of strings.  Opening the files and splitting the lines
    into cells is not part of the embedding.  Of a read that raises only the
    exception remains, the lists and dictionaries under construction being
    local to the method. *)

Definition bind {A B : Type} (m : exn + A) (f : A -> exn + B) : exn + B :=
  match m with
  | inl e => inl e
  | inr a => f a
  end.

Notation "'let*' x ':=' m 'in' k" := (bind m (fun x => k))
  (at level 10, x pattern, m at level 100, k at level 200).

(** [row[k]]. *)
Definition cell (row : list string) (k : nat) : exn + string :=
  match row !! k with
  | Some c => inr c
  | None => inl IndexError
  end.

Section Loader.

(** Python's [int] on a string: the integer, or [None] where it raises
    [ValueError]. *)
Variable int : string -> option Z.

Definition to_int (c : string) : exn + Z :=
  match int c with
  | Some z => inr z
  | None => inl ValueError
  end.

(** [int(row[k])]. *)
Definition int_cell (row : list string) (k : nat) : exn + Z :=
  let* c := cell row k in to_int c.

(** Lines 225-237: the robot built from one row of the robots file.  The
    [robot_type] string is kept as the subclass it selects. *)
Definition robot_of_row (row : list string) : exn + Robot.t :=
  let* robot_id := int_cell row 0 in
  let* robot_type := cell row 1 in
  let* velocity := int_cell row 2 in
  if String.eqb robot_type "organizer"
  then inr (loaded_robot robot_id Organizer velocity [])
  else if String.eqb robot_type "mover"
  then inr (loaded_robot robot_id Mover velocity [])
  else inl ValueError.

(** Lines 224-239: the loop over the robots file.  [robot_map] holds
    references, positions in the list of robots. *)
Fixpoint read_robot_rows (rows : list (list string)) (rs : list Robot.t)
  (robot_map : gmap Z nat) : exn + (list Robot.t * gmap Z nat) :=
  match rows with
  | [] => inr (rs, robot_map)
  | row :: rows' =>
      let* r := robot_of_row row in
      read_robot_rows rows' (rs ++ [r])
        (<[Robot.robot_id r := length rs]> robot_map)
  end.

(** Lines 246-249: the position is appended to the path of the first robot
    with the id, if there is one. *)
Fixpoint append_position (robot_id postion : Z) (rs : list Robot.t)
  : list Robot.t :=
  match rs with
  | [] => []
  | r :: rs' =>
      if Robot.robot_id r =? robot_id
      then Robot.with_path r (Robot.path r ++ [postion]) :: rs'
      else r :: append_position robot_id postion rs'
  end.

(** Lines 243-249: the loop over the paths file. *)
Fixpoint read_path_rows (rows : list (list string)) (rs : list Robot.t)
  : exn + list Robot.t :=
  match rows with
  | [] => inr rs
  | row :: rows' =>
      let* robot_id := int_cell row 0 in
      let* postion := int_cell row 1 in
      read_path_rows rows' (append_position robot_id postion rs)
  end.

Definition read_robots (robot_rows path_rows : list (list string))
  : exn + (list Robot.t * gmap Z nat) :=
  let* loaded := read_robot_rows robot_rows [] ∅ in
  let* rs := read_path_rows path_rows (fst loaded) in
  inr (rs, snd loaded).

(** Lines 260-266: the platform built from one row of the nodes file. *)
Definition platform_of_row (row : list string) : exn + Platform.t :=
  let* platform_id := int_cell row 0 in
  let* node_type := cell row 1 in
  inr (loaded_platform platform_id node_type).

(** Lines 259-268: the loop over the nodes file.  The dictionary holds
    references, positions in the list of platforms. *)
Fixpoint read_platform_rows (rows : list (list string))
  (platforms : list Platform.t) (refs : gmap Z nat)
  : exn + (list Platform.t * gmap Z nat) :=
  match rows with
  | [] => inr (platforms, refs)
  | row :: rows' =>
      let* pl := platform_of_row row in
      read_platform_rows rows' (platforms ++ [pl])
        (<[Platform.platform_id pl := length platforms]> refs)
  end.

Definition read_platforms (node_rows : list (list string))
  : exn + (list Platform.t * gmap Z nat) :=
  read_platform_rows node_rows [] ∅.

(** ** [OutputWriter] *)

(** A cell handed to [csv.writer]: a string or an integer.  The rows are
    the output; how [csv.writer] prints them is not part of the embedding. *)
Inductive Cell : Set := Text (s : string) | Num (n : Z).

Definition write_robot_info (rs : list Robot.t) : list (list Cell) :=
  [Text "Robot ID"; Text "Total Time"] ::
  map (fun r => [Num (Robot.robot_id r); Num (Robot.time_spend r)]) rs.

Definition write_platform_info (platforms : list Platform.t) : list (list Cell) :=
  [Text "Platform ID"; Text "Visitor 1"; Text "Visitor 2"; Text "Visitor 3";
   Text "Visitor 4"] ::
  map (fun pl => Num (Platform.platform_id pl) :: map Num (Platform.visitor pl))
    platforms.

(** ** The main program *)

(** The dictionary the scheduler receives: each key with the object it
    refers to. *)
Definition objects (platforms : list Platform.t) (refs : gmap Z nat)
  : gmap Z Platform.t :=
  omap (fun k => platforms !! k) refs.

(** The list of platforms after the scheduler has worked on the dictionary:
    the scheduler mutates the objects of the dictionary in place, so a
    platform of the list that the dictionary refers to is seen in the state
    the scheduler left it in, any other as it was loaded. *)
Definition refresh (refs : gmap Z nat) (pm : gmap Z Platform.t)
  (platforms : list Platform.t) : list Platform.t :=
  imap (fun k pl =>
          if decide (refs !! Platform.platform_id pl = Some k)
          then default pl (pm !! Platform.platform_id pl)
          else pl) platforms.

(** Lines 324-325: the lines printed. *)
Definition print_totals (rs : list Robot.t) : list string :=
  map (fun r => "Robot " +:+ pretty (Robot.robot_id r) +:+ " total time: "
                  +:+ pretty (Robot.time_spend r)) rs.

(** What a run of the program leaves: the rows of the two output files and
    the lines printed. *)
Record Report : Set := mkReport {
  robot_info : list (list Cell);
  platform_info : list (list Cell);
  printed : list string
}.

(** Lines 308-325, as a function of the rows of the three input files.  An
    exception ends the program before anything is written. *)
Definition main (fuel : nat) (robot_rows path_rows node_rows : list (list string))
  : option (exn + Report) :=
  match read_robots robot_rows path_rows with
  | inl e => Some (inl e)
  | inr (rs, _) =>
      match read_platforms node_rows with
      | inl e => Some (inl e)
      | inr (platforms, refs) =>
          match schedule fuel rs (objects platforms refs) with
          | None => None
          | Some (Raised e _) => Some (inl e)
          | Some (Done _ s) =>
              Some (inr (mkReport
                           (write_robot_info (store s))
                           (write_platform_info
                              (refresh refs (platform_map s) platforms))
                           (print_totals (store s))))
          end
      end
  end.

End Loader.

(** * Vocabulary of the statements *)

(** ** Order, traces and frames *)

(** The references of [l] whose key is [k], in the order of [l]. *)
Definition with_key (key : nat -> Z) (k : Z) (l : list nat) : list nat :=
  filter (fun i => key i = k) l.

(** State and path of robot [i] at the end of each of the next [n] ticks. *)
Fixpoint history (n : nat) (i : nat) (s : Sim) : list (Z * list Z) :=
  match n with
  | O => []
  | S n' =>
      match tick s with
      | Done _ s' =>
          match store s' !! i with
          | Some r => (Robot.state r, Robot.path r) :: history n' i s'
          | None => []
          end
      | Raised _ _ => []
      end
  end.

(** The run completes normally and leaves robot [i] with [t] time spent. *)
Definition completes_with (rs : list Robot.t) (pm : gmap Z Platform.t)
  (i : nat) (t : Z) : Prop :=
  exists fuel s r,
    schedule fuel rs pm = Some (Done tt s) /\
    store s !! i = Some r /\ Robot.time_spend r = t.

(** Every referenced robot has completed its path. *)
Definition all_done (s : Sim) : Prop :=
  forall i r, i ∈ robots s -> store s !! i = Some r -> Robot.path r = [].

(** The attributes [robots] and [times] and every robot but the one
    evaluated are as before, also when the evaluation raises. *)
Definition same_but (i : nat) (s s' : Sim) : Prop :=
  robots s' = robots s /\ times s' = times s /\
  length (store s') = length (store s) /\
  forall j, j <> i -> store s' !! j = store s !! j.

(** The same for a whole list of evaluations: robots outside the list are
    untouched. *)
Definition same_outside (l : list nat) (s s' : Sim) : Prop :=
  robots s' = robots s /\
  length (store s') = length (store s) /\
  forall j, j ∉ l -> store s' !! j = store s !! j.

(** The log of every platform only grows at its end. *)
Definition log_grows (s s' : Sim) : Prop :=
  forall p pl, platform_map s !! p = Some pl ->
    exists pl', platform_map s' !! p = Some pl' /\
      Platform.visitor pl `prefix_of` Platform.visitor pl'.

(** The path of every robot is the same in [s'] as in [s]. *)
Definition same_paths (s s' : Sim) : Prop :=
  forall j r, store s !! j = Some r ->
    exists r', store s' !! j = Some r' /\ Robot.path r' = Robot.path r.

(** ** Well-formed states *)

Definition robot_state_ok (r : Robot.t) : Prop :=
  Robot.state r = 1 \/ Robot.state r = 2 \/ Robot.state r = 3.

(** [r'] is [r] put to work for [d] ticks by the constructor. *)
Definition started (r r' : Robot.t) : Prop :=
  Robot.path r <> [] /\
  exists d, 20 <= d <= 45 /\
    r' = Robot.mk (Robot.robot_id r) (Robot.kind r) (Robot.velocity r) 1
           (Robot.path r) d (Robot.time_spend r).

(** Every platform is busy or free and has at most [B] left. *)
Definition platforms_bounded (B : Z) (pm : gmap Z Platform.t) : Prop :=
  forall p pl, pm !! p = Some pl ->
    (Platform.state pl = 1 \/ Platform.state pl = 2) /\
    Platform.time_left pl <= B.

(** ** Measures for termination *)

(** The sum of [f] over the robots referenced by [l]. *)
Fixpoint total (f : Robot.t -> Z) (st : list Robot.t) (l : list nat) : Z :=
  match l with
  | [] => 0
  | i :: l' =>
      match st !! i with
      | Some r => f r
      | None => 0
      end + total f st l'
  end.

(** Arrivals the robot still has to make: the platforms on its path, but
    for the one it is at. *)
Definition arrivals (r : Robot.t) : Z :=
  match Robot.path r with
  | [] => 0
  | _ :: rest =>
      if Robot.state r =? 3 then Z.of_nat (length rest) + 1
      else Z.of_nat (length rest)
  end.

(** Ticks a robot of velocity [v] needs at most from leaving a platform to
    leaving the next one, when no countdown of a waiting robot starts above
    [K]: moving, the arrival, waiting, the start of work, working, the
    departure. *)
Definition cost (K v : Z) : Z := Z.max (v - 1) 0 + K + 47.

(** Evaluations the robot can still be active in, at most. *)
Definition pot (K : Z) (r : Robot.t) : Z :=
  match Robot.path r with
  | [] => 0
  | _ :: rest =>
      Z.max (Robot.time_left r) 0 +
      Z.of_nat (length rest) * cost K (Robot.velocity r) +
      (if Robot.state r =? 1 then 1
       else if Robot.state r =? 2 then 46
       else K + 47)
  end.

(** Every platform is busy or free, and what it has left, with 45 more for
    each of the [A] arrivals to come, stays within [K]. *)
Definition platforms_within (K A : Z) (pm : gmap Z Platform.t) : Prop :=
  forall p pl, pm !! p = Some pl ->
    (Platform.state pl = 1 \/ Platform.state pl = 2) /\
    Z.max (Platform.time_left pl) 0 + A * 45 <= K.

(** The invariant of the loop: bounded platforms, referenced robots in one
    of the three states and referenced once. *)
Definition inv (K : Z) (s : Sim) : Prop :=
  0 <= K /\
  NoDup (robots s) /\
  (forall i r, i ∈ robots s -> store s !! i = Some r -> robot_state_ok r) /\
  platforms_within K (total arrivals (store s) (robots s)) (platform_map s).

(** The potential of a state: the evaluations that can still set [flag]. *)
Definition potential (K : Z) (s : Sim) : Z := total (pot K) (store s) (robots s).

(** Platforms on the path after the first one. *)
Definition legs (r : Robot.t) : Z :=
  match Robot.path r with
  | [] => 0
  | _ :: rest => Z.of_nat (length rest)
  end.

(** What a waiting robot's countdown can start from at most: the largest
    time a platform has left at first (at least one duration), and one
    duration for each arrival of the fleet. *)
Definition wait_bound (B : Z) (rs : list Robot.t) : Z :=
  Z.max B 45 + total legs rs [0; 2; 1; 3]%nat * 45.

(** Evaluations in which a robot can be active: its first platform, and each
    further platform at [cost]. *)
Definition budget (K : Z) (r : Robot.t) : Z :=
  46 + legs r * cost K (Robot.velocity r).

(** Iterations of the loop of [run], at most, for the fleet [rs] when no
    platform has more than [B] left at first. *)
Definition tick_bound (B : Z) (rs : list Robot.t) : Z :=
  total (budget (wait_bound B rs)) rs [0; 2; 1; 3]%nat + 1.


(** ** States the loop cannot leave *)

(** A robot that arrives at a platform whose state is neither 1 nor 2 takes
    neither branch of the arrival: it stays a moving robot whose countdown
    is over. *)
Definition stuck (s : Sim) (r : Robot.t) : Prop :=
  Robot.state r = 3 /\ Robot.time_left r <= 0 /\
  exists p rest pl,
    Robot.path r = p :: rest /\ platform_map s !! p = Some pl /\
    Platform.state pl <> 1 /\ Platform.state pl <> 2.

(** Every robot is done or stuck. *)
Definition limbo (s : Sim) : Prop :=
  forall i r, store s !! i = Some r -> Robot.path r = [] \/ stuck s r.

(** ** What never changes *)

(** From the store [st] to the store [st']: the same robots, each with the
    id, kind and velocity it had, a path that is an end of its old path and
    no less time spent. *)
Definition robot_static (st st' : list Robot.t) : Prop :=
  length st' = length st /\
  forall j r, st !! j = Some r ->
    exists r', st' !! j = Some r' /\
      Robot.robot_id r' = Robot.robot_id r /\
      Robot.kind r' = Robot.kind r /\
      Robot.velocity r' = Robot.velocity r /\
      Robot.path r' `suffix_of` Robot.path r /\
      Robot.time_spend r <= Robot.time_spend r'.

(** From the map [pm] to the map [pm']: the same keys, each platform with
    the id and node type it had and a log that starts with its old log. *)
Definition platform_static (pm pm' : gmap Z Platform.t) : Prop :=
  forall p,
    match pm !! p with
    | Some pl =>
        exists pl', pm' !! p = Some pl' /\
          Platform.platform_id pl' = Platform.platform_id pl /\
          Platform.node_type pl' = Platform.node_type pl /\
          Platform.visitor pl `prefix_of` Platform.visitor pl'
    | None => pm' !! p = None
    end.

Definition static (s s' : Sim) : Prop :=
  robot_static (store s) (store s') /\
  platform_static (platform_map s) (platform_map s').

(** 1 for a robot with a platform in front of its path, 0 for a robot that
    has completed its path. *)
Definition active (r : Robot.t) : Z :=
  match Robot.path r with
  | [] => 0
  | _ :: _ => 1
  end.

(** The state a run ended in; the default stands for a run that was cut off
    by the fuel. *)
Definition ended (o : option (outcome unit)) : Sim :=
  match o with
  | Some o' => final o'
  | None => mkSim [] ∅ [] 0
  end.

(** ** What the constructor needs and sets up *)

(** The robot referenced by [i] can be put to work: it exists, has a
    platform in front of its path, that platform is in the map and its node
    type is one [action] knows. *)
Definition ready (st : list Robot.t) (pm : gmap Z Platform.t) (i : nat) : Prop :=
  exists r p rest pl,
    st !! i = Some r /\ Robot.path r = p :: rest /\ pm !! p = Some pl /\
    (Platform.node_type pl = "A"%string \/ Platform.node_type pl = "B"%string).

(** The robots among those referenced by [refs] whose path starts at
    platform [p], in the order of [refs]. *)
Fixpoint starters (st : list Robot.t) (refs : list nat) (p : Z) : list Robot.t :=
  match refs with
  | [] => []
  | i :: refs' =>
      match st !! i with
      | Some r =>
          if decide (head (Robot.path r) = Some p) then r :: starters st refs' p
          else starters st refs' p
      | None => starters st refs' p
      end
  end.

(** A finished robot is left as the departure from its last platform left
    it: moving, with the countdown of a move. *)
Definition parked (r : Robot.t) : Prop :=
  Robot.path r = [] ->
  Robot.state r = 3 /\ Robot.time_left r = Robot.velocity r - 1.

(** ** When an evaluation raises *)

(** The evaluation of [r] looks its platform up: a working robot always
    does, a waiting or moving robot only once its countdown is over. *)
Definition needs_platform (r : Robot.t) : Prop :=
  (0 < Robot.time_left r /\ Robot.state r = 1) \/
  (Robot.time_left r <= 0 /\
   (Robot.state r = 1 \/ Robot.state r = 2 \/ Robot.state r = 3)).

(** The evaluation of [r], whose path starts with [p], calls [action]: a
    waiting robot whose countdown is over, or a moving one that arrives at a
    busy or free platform. *)
Definition calls_action (r : Robot.t) (pl : Platform.t) : Prop :=
  Robot.time_left r <= 0 /\
  (Robot.state r = 2 \/
   (Robot.state r = 3 /\ (Platform.state pl = 1 \/ Platform.state pl = 2))).

(** What makes the evaluation of [r], whose path starts with [p], raise
    [e]. *)
Definition raises (pm : gmap Z Platform.t) (r : Robot.t) (p : Z) (e : exn)
  : Prop :=
  match e with
  | KeyError => needs_platform r /\ pm !! p = None
  | IndexError =>
      Robot.time_left r <= 0 /\ Robot.state r = 1 /\
      exists pl, pm !! p = Some pl /\ Platform.cur_visitor pl = []
  | ValueError =>
      exists pl, pm !! p = Some pl /\ calls_action r pl /\
        Platform.node_type pl <> "A"%string /\
        Platform.node_type pl <> "B"%string
  end.

(** ** Inputs on which nothing is raised *)

(** 1 for a robot that is at platform [p], working or waiting there. *)
Definition occupies (p : Z) (r : Robot.t) : Z :=
  if decide ((Robot.state r = 1 \/ Robot.state r = 2) /\
             head (Robot.path r) = Some p)
  then 1 else 0.

(** Every platform on the path of [r] is in the map, with a node type that
    [action] knows. *)
Definition path_ok (pm : gmap Z Platform.t) (r : Robot.t) : Prop :=
  forall p, p ∈ Robot.path r ->
    exists pl, pm !! p = Some pl /\
      (Platform.node_type pl = "A"%string \/ Platform.node_type pl = "B"%string).

(** The references are distinct, the paths of the referenced robots are
    fine, and no platform has fewer ids queued than robots working or
    waiting there. *)
Definition safe (s : Sim) : Prop :=
  NoDup (robots s) /\
  (forall i r, i ∈ robots s -> store s !! i = Some r ->
     path_ok (platform_map s) r) /\
  (forall p pl, platform_map s !! p = Some pl ->
     total (occupies p) (store s) (robots s) <=
     Z.of_nat (length (Platform.cur_visitor pl))).

(** ** Input rows *)

(** A row the loop over the robots file accepts: an id, a robot type that
    is known, a velocity; further cells are not looked at. *)
Definition robot_row_ok (int : string -> option Z) (row : list string) : Prop :=
  exists c0 c1 c2 more id v,
    row = c0 :: c1 :: c2 :: more /\ int c0 = Some id /\ int c2 = Some v /\
    (c1 = "organizer"%string \/ c1 = "mover"%string).

(** A row the loop over the paths file accepts. *)
Definition path_row_ok (int : string -> option Z) (row : list string) : Prop :=
  exists c0 c1 more id p,
    row = c0 :: c1 :: more /\ int c0 = Some id /\ int c1 = Some p.

(** A row the loop over the nodes file accepts; the second cell can be any
    string. *)
Definition node_row_ok (int : string -> option Z) (row : list string) : Prop :=
  exists c0 c1 more id, row = c0 :: c1 :: more /\ int c0 = Some id.

(** The positions that the rows of the paths file give for [id], in the
    order of the file. *)
Fixpoint positions_of (int : string -> option Z) (id : Z)
  (rows : list (list string)) : list Z :=
  match rows with
  | [] => []
  | row :: rows' =>
      match int_cell int row 0, int_cell int row 1 with
      | inr a, inr p =>
          if a =? id then p :: positions_of int id rows'
          else positions_of int id rows'
      | _, _ => positions_of int id rows'
      end
  end.

(** The node type in the last row of the nodes file that has the id [p]. *)
Fixpoint node_type_of (int : string -> option Z) (p : Z)
  (rows : list (list string)) : option string :=
  match rows with
  | [] => None
  | row :: rows' =>
      match node_type_of int p rows' with
      | Some nt => Some nt
      | None =>
          match int_cell int row 0, cell row 1 with
          | inr a, inr nt => if a =? p then Some nt else None
          | _, _ => None
          end
      end
  end.

(** [k] is the last position of [l] that holds an element with key [id]. *)
Definition last_with {A : Type} (key : A -> Z) (l : list A) (id : Z) (k : nat)
  : Prop :=
  (exists x, l !! k = Some x /\ key x = id) /\
  forall j y, l !! j = Some y -> key y = id -> (j <= k)%nat.

(** The dictionary [m] refers, for each key that occurs in [l], to the last
    element with that key, and has no other key. *)
Definition indexes {A : Type} (key : A -> Z) (l : list A) (m : gmap Z nat)
  : Prop :=
  forall id k, m !! id = Some k <-> last_with key l id k.

(** ** Who is in a visitor log *)

(** The platforms of its path that a robot has still to arrive at: all of
    its path, but for the platform in front when the robot is working or
    waiting there. *)
Definition pending (r : Robot.t) : list Z :=
  if decide (Robot.state r = 1 \/ Robot.state r = 2) then tail (Robot.path r)
  else Robot.path r.

(** The id [x] is in the log of platform [p]. *)
Definition registered (pm : gmap Z Platform.t) (p x : Z) : Prop :=
  exists pl, pm !! p = Some pl /\ x ∈ Platform.visitor pl.

(** [x] is the id of one of the robots [refs] of the fleet [rs], and this
    robot has [p] on its path. *)
Definition routed (rs : list Robot.t) (refs : list nat) (p x : Z) : Prop :=
  exists i r, i ∈ refs /\ rs !! i = Some r /\ Robot.robot_id r = x /\
    p ∈ Robot.path r.

(** Every id in a log was there in [pm] or is routed over the platform. *)
Definition logs_sound (rs : list Robot.t) (pm : gmap Z Platform.t)
  (refs : list nat) (s : Sim) : Prop :=
  forall p x, registered (platform_map s) p x ->
    registered pm p x \/ routed rs refs p x.

(** Every robot of [refs] is in the log of each platform of the path it
    had in [rs], but for those it has still to arrive at. *)
Definition logs_complete (rs : list Robot.t) (refs : list nat) (s : Sim) : Prop :=
  forall i r0 r, i ∈ refs -> rs !! i = Some r0 -> store s !! i = Some r ->
    forall p, p ∈ Robot.path r0 ->
      registered (platform_map s) p (Robot.robot_id r0) \/ p ∈ pending r.

(** ** Queues in balance *)

(** The platform is busy or free, and its queue holds [n] ids besides one
    for each of [k] robots. *)
Definition queue_counts (n k : Z) (pl : Platform.t) : Prop :=
  (Platform.state pl = 1 \/ Platform.state pl = 2) /\
  Z.of_nat (length (Platform.cur_visitor pl)) = n + k.

(** A platform with an empty queue is free and has no time left. *)
Definition idle_when_empty (pl : Platform.t) : Prop :=
  Platform.cur_visitor pl = [] ->
  Platform.state pl = 2 /\ Platform.time_left pl = 0.

(** ** The two-platform scenario *)

(** A robot whose evaluation leaves platform [p] as it is: [p] is not in
    front of its path, or the robot is waiting or moving with time left. *)
Definition quiet (p : Z) (r : Robot.t) : Prop :=
  head (Robot.path r) <> Some p \/
  (Robot.state r <> 1 /\ 0 < Robot.time_left r).

(** The organizer of the scenario (velocity 5, path [[P1; P2]], [P1] of node
    type ['A'], [P2] of node type ['B']) at the end of tick [t], tick 0
    being the constructor: 30 ticks of work at [P1], the departure and 4
    more ticks on the way, the arrival and 44 more ticks of work at [P2],
    the departure. *)
Definition organizer_at (id ts P1 P2 : Z) (t : nat) : Robot.t :=
  if (t <=? 30)%nat then
    Robot.mk id Organizer 5 1 [P1; P2] (30 - Z.of_nat t) (ts + Z.of_nat t)
  else if (t <=? 35)%nat then
    Robot.mk id Organizer 5 3 [P2] (35 - Z.of_nat t) (ts + Z.of_nat t)
  else if (t <=? 80)%nat then
    Robot.mk id Organizer 5 1 [P2] (80 - Z.of_nat t) (ts + Z.of_nat t)
  else Robot.mk id Organizer 5 3 [] 4 (ts + 81).

(** The state after [t] ticks of the scenario: the scheduler references the
    four robots of the fleet [rs], robot [i] is the organizer where tick [t]
    leaves it, and until it arrives there [P2] is free. *)
Definition scenario_inv (rs : list Robot.t) (i : nat) (id ts P1 P2 : Z)
  (t : nat) (st : Sim) : Prop :=
  robots st = [0; 2; 1; 3]%nat /\
  robot_static rs (store st) /\
  store st !! i = Some (organizer_at id ts P1 P2 t) /\
  ((t <= 35)%nat ->
   exists pl, platform_map st !! P2 = Some pl /\
     Platform.state pl = 2 /\ Platform.node_type pl = "B"%string).

(** * Concrete states and inputs *)

(** A state in the middle of a run, used to exercise the step lemmas:
    robot 0 works at platform 1 with time left, robot 1 is about to arrive
    at the busy platform 1, robot 2 is about to start working there, robot 3
    is about to leave platform 2, robot 4 is about to arrive at the free
    platform 3. *)
Definition midrun : Sim :=
  mkSim
    [ Robot.mk 10 Organizer 5 1 [1; 2] 7 23;
      Robot.mk 11 Mover 2 3 [1] 0 4;
      Robot.mk 12 Mover 2 2 [1; 3] 0 9;
      Robot.mk 13 Organizer 4 1 [2; 3] 0 45;
      Robot.mk 14 Mover 6 3 [3] 0 6 ]
    (<[1 := Platform.mk 1 "A" 1 27 [10; 12] [10; 12]]>
       (<[2 := Platform.mk 2 "B" 1 0 [13] [13]]>
          (<[3 := Platform.mk 3 "B" 2 0 [] [14]]> ∅)))
    [0; 1; 2; 3; 4]%nat 17.

(** A moving robot listed before the working robot whose platform it heads
    for: both countdowns are over. *)
Definition handoff : Sim :=
  mkSim
    [ Robot.mk 21 Mover 3 3 [1] 0 12;
      Robot.mk 22 Organizer 2 1 [1; 2] 0 30 ]
    (<[1 := Platform.mk 1 "A" 1 0 [22] [22]]>
       (<[2 := Platform.mk 2 "B" 2 0 [] []]> ∅))
    [0; 1]%nat 30.

Definition three_platforms : gmap Z Platform.t :=
  <[1 := loaded_platform 1 "A"]>
    (<[2 := loaded_platform 2 "A"]> (<[3 := loaded_platform 3 "A"]> ∅)).

(** A fleet as the loader builds it when the paths file has no row for
    robot 2. *)
Definition idle_fleet : list Robot.t :=
  [ loaded_robot 1 Organizer 5 [1];
    loaded_robot 2 Mover 3 [];
    loaded_robot 3 Mover 2 [2];
    loaded_robot 4 Mover 2 [3] ].

(** Two robots start on platform 1; robot 3 is done first and comes back. *)
Definition crowded_fleet : list Robot.t :=
  [ loaded_robot 1 Organizer 1 [1];
    loaded_robot 2 Mover 1 [2];
    loaded_robot 3 Mover 1 [1; 1];
    loaded_robot 4 Mover 1 [3] ].

Definition two_platforms : gmap Z Platform.t :=
  <[1 := loaded_platform 1 "A"]> (<[2 := loaded_platform 2 "B"]> ∅).

(** The organizer of the scenario, alone. *)
Definition lone_organizer : list Robot.t :=
  [ loaded_robot 1 Organizer 5 [1; 2] ].

Definition five_platforms : gmap Z Platform.t :=
  <[1 := loaded_platform 1 "A"]>
    (<[2 := loaded_platform 2 "B"]>
       (<[3 := loaded_platform 3 "A"]>
          (<[4 := loaded_platform 4 "A"]>
             (<[5 := loaded_platform 5 "A"]> ∅)))).

(** The same organizer with three movers that stay on platforms of their
    own. *)
Definition escorted_organizer : list Robot.t :=
  [ loaded_robot 1 Organizer 5 [1; 2];
    loaded_robot 2 Mover 1 [3];
    loaded_robot 3 Mover 1 [4];
    loaded_robot 4 Mover 1 [5] ].



(** The fleet of the two-platform scenario, with a platform P2 whose state
    is 0: the organizer arrives there and never leaves. *)
Definition five_platforms_one_odd : gmap Z Platform.t :=
  <[2 := Platform.mk 2 "B" 0 0 [] []]> five_platforms.

(** ** Input files *)

(** A reading of decimal literals, which Python's [int] reads the same. *)
Fixpoint digits (s : string) (acc : Z) : option Z :=
  match s with
  | EmptyString => Some acc
  | String c s' =>
      let n := Z.of_N (Ascii.N_of_ascii c) - 48 in
      if (0 <=? n) && (n <=? 9) then digits s' (10 * acc + n) else None
  end.

Definition decimal (s : string) : option Z :=
  match s with
  | EmptyString => None
  | String _ _ => digits s 0
  end.

(** Robots 1 and 3 start on platform 1, a fifth robot reuses the id 1, one
    path row names a robot that does not exist, and platform 1 is declared
    twice. *)
Definition sample_robots : list (list string) :=
  [ ["1"; "organizer"; "1"]; ["2"; "mover"; "1"]; ["3"; "mover"; "1"];
    ["4"; "mover"; "1"]; ["1"; "mover"; "7"] ]%string.

Definition sample_paths : list (list string) :=
  [ ["1"; "1"]; ["3"; "1"]; ["2"; "2"]; ["3"; "1"]; ["4"; "3"]; ["9"; "3"] ]%string.

Definition sample_nodes : list (list string) :=
  [ ["1"; "B"]; ["2"; "A"]; ["3"; "A"]; ["1"; "A"] ]%string.


(** * Properties *)

(** ** Proof automation *)

(** Unfold the body of the loop and split along every test it makes. *)
Ltac step_cases :=
  unfold evaluate, keep_state, change_state, leave_platform, start_work, arrive,
    init_robot in *;
  repeat case_match; simpl in *.

Ltac bool_to_prop :=
  repeat match goal with
    | H : (_ <? _) = true |- _ => apply Z.ltb_lt in H
    | H : (_ <? _) = false |- _ => apply Z.ltb_ge in H
    | H : (_ =? _) = true |- _ => apply Z.eqb_eq in H
    | H : (_ =? _) = false |- _ => apply Z.eqb_neq in H
    end.

(** ** The service durations *)

Lemma action_raises_only_ValueError (k : Kind) (nt : string) (e : exn) :
  action k nt = inl e -> e = ValueError.
Proof.
  destruct k; simpl;
    destruct (String.eqb nt "A"); try discriminate;
    destruct (String.eqb nt "B"); try discriminate; congruence.
Qed.

(** C9: the duration table of the two robot kinds, and the node types on
    which [action] raises: exactly those that are neither ['A'] nor ['B'].
    [action] is a function of the kind and the node type alone, so a call
    reads and writes no object. *)
Theorem action_table :
  action Organizer "A" = inr 30 /\ action Organizer "B" = inr 45 /\
  action Mover "A" = inr 20 /\ action Mover "B" = inr 35 /\
  forall (k : Kind) (nt : string),
    (action k nt = inl ValueError <-> nt <> "A"%string /\ nt <> "B"%string) /\
    ((exists d, action k nt = inr d) <-> nt = "A"%string \/ nt = "B"%string).
Proof.
  do 4 (split; [reflexivity|]). intros k nt.
  destruct (String.eqb_spec nt "A") as [->|HA].
  { split; split.
    - destruct k; discriminate.
    - intros [HA _]; now contradiction HA.
    - now left.
    - destruct k; simpl; eauto. }
  destruct (String.eqb_spec nt "B") as [->|HB].
  { split; split.
    - destruct k; discriminate.
    - intros [_ HB]; now contradiction HB.
    - now right.
    - destruct k; simpl; eauto. }
  assert (Hraise : action k nt = inl ValueError).
  { pose proof HA as HA'. pose proof HB as HB'.
    apply String.eqb_neq in HA', HB'.
    destruct k; simpl; rewrite HA', HB'; reflexivity. }
  split; split.
  - now intros _.
  - now intros _.
  - intros [d Hd]. rewrite Hraise in Hd. discriminate.
  - intros [-> | ->]; [now contradiction HA | now contradiction HB].
Qed.

(** ** The per-robot step *)

Lemma set_robot_twice (i : nat) (r r' : Robot.t) (s : Sim) :
  set_robot i r' (set_robot i r s) = set_robot i r' s.
Proof. unfold set_robot; simpl. now rewrite list_insert_insert_eq. Qed.

Lemma evaluate_unfold (i : nat) (s : Sim) (r : Robot.t) (p : Z) (rest : list Z) :
  store s !! i = Some r -> Robot.path r = p :: rest ->
  evaluate i s =
    let r1 := Robot.with_time_spend r (Robot.time_spend r + 1) in
    if 0 <? Robot.time_left r then keep_state i r1 p (set_robot i r1 s)
    else change_state i r1 p rest (set_robot i r1 s).
Proof. intros Hr Hp. unfold evaluate. now rewrite Hr, Hp. Qed.

(** A robot with nothing left on its path is skipped: no object changes,
    nothing is raised and [flag] is not set. *)
Lemma evaluate_empty_path (i : nat) (s : Sim) (r : Robot.t) :
  store s !! i = Some r -> Robot.path r = [] -> evaluate i s = Done false s.
Proof. intros Hr Hp. unfold evaluate. now rewrite Hr, Hp. Qed.

(** C4: a robot with a platform in front of its path and time left counts
    down by one and keeps its state and path; a working robot also counts
    its platform down by one, a waiting or moving robot leaves the platform
    map as it is. *)
Theorem countdown_step (i : nat) (s : Sim) (r : Robot.t) (p : Z) (rest : list Z)
  (Hr : store s !! i = Some r)
  (Hpath : Robot.path r = p :: rest)
  (Hleft : 0 < Robot.time_left r) :
  let r' :=
    Robot.mk (Robot.robot_id r) (Robot.kind r) (Robot.velocity r) (Robot.state r)
      (p :: rest) (Robot.time_left r - 1) (Robot.time_spend r + 1) in
  (Robot.state r = 1 ->
   forall pl, platform_map s !! p = Some pl ->
     evaluate i s =
       Done true
         (mkSim (<[i := r']> (store s))
            (<[p := Platform.mk (Platform.platform_id pl) (Platform.node_type pl)
                      (Platform.state pl) (Platform.time_left pl - 1)
                      (Platform.cur_visitor pl) (Platform.visitor pl)]>
               (platform_map s))
            (robots s) (times s))) /\
  (Robot.state r = 2 \/ Robot.state r = 3 ->
   evaluate i s =
     Done true (mkSim (<[i := r']> (store s)) (platform_map s) (robots s) (times s))).
Proof.
  intros r'. rewrite (evaluate_unfold i s r p rest Hr Hpath). cbv zeta.
  apply Z.ltb_lt in Hleft. rewrite Hleft.
  assert (Hr' : Robot.with_time_left
                  (Robot.with_time_spend r (Robot.time_spend r + 1))
                  (Robot.time_left r - 1) = r')
    by (unfold r', Robot.with_time_left, Robot.with_time_spend; simpl;
        now rewrite Hpath).
  unfold keep_state. simpl Robot.state. simpl Robot.time_left. split.
  - intros Hst pl Hpl. rewrite Hst. simpl. rewrite Hpl.
    rewrite set_robot_twice, Hr'. reflexivity.
  - intros [Hst | Hst]; rewrite Hst; simpl;
      rewrite set_robot_twice, Hr'; reflexivity.
Qed.

(** C3: a working robot whose countdown is over leaves the platform in front
    of its path (the path loses its front, the queue of the platform loses
    its front, the robot moves for [velocity - 1] more ticks, the platform
    counts down by one when somebody is still queued and is freed with no
    time left otherwise); a waiting robot whose countdown is over starts to
    work for [duration - 1] more ticks, and no platform changes.  As on
    every evaluation of a robot with a platform in front of its path,
    [time_spend] has been incremented before. *)
Theorem completion_step (i : nat) (s : Sim) (r : Robot.t) (p : Z) (rest : list Z)
  (pl : Platform.t)
  (Hr : store s !! i = Some r)
  (Hpath : Robot.path r = p :: rest)
  (Hleft : Robot.time_left r <= 0)
  (Hpl : platform_map s !! p = Some pl) :
  (Robot.state r = 1 ->
   forall v q, Platform.cur_visitor pl = v :: q ->
     evaluate i s =
       Done true
         (mkSim
            (<[i := Robot.mk (Robot.robot_id r) (Robot.kind r) (Robot.velocity r) 3
                      rest (Robot.velocity r - 1) (Robot.time_spend r + 1)]>
               (store s))
            (<[p := match q with
                    | _ :: _ =>
                        Platform.mk (Platform.platform_id pl) (Platform.node_type pl)
                          (Platform.state pl) (Platform.time_left pl - 1) q
                          (Platform.visitor pl)
                    | [] =>
                        Platform.mk (Platform.platform_id pl) (Platform.node_type pl)
                          2 0 [] (Platform.visitor pl)
                    end]> (platform_map s))
            (robots s) (times s))) /\
  (Robot.state r = 2 ->
   forall d, action (Robot.kind r) (Platform.node_type pl) = inr d ->
     evaluate i s =
       Done true
         (mkSim
            (<[i := Robot.mk (Robot.robot_id r) (Robot.kind r) (Robot.velocity r) 1
                      (p :: rest) (d - 1) (Robot.time_spend r + 1)]>
               (store s))
            (platform_map s) (robots s) (times s))).
Proof.
  rewrite (evaluate_unfold i s r p rest Hr Hpath). cbv zeta.
  apply Z.ltb_ge in Hleft. rewrite Hleft.
  unfold change_state. simpl Robot.state. split.
  - intros Hst v q Hq. rewrite Hst. simpl.
    unfold leave_platform. simpl platform_map. rewrite Hpl, Hq.
    rewrite set_robot_twice. destruct q; reflexivity.
  - intros Hst d Hd. rewrite Hst. simpl.
    unfold start_work. simpl platform_map. rewrite Hpl. simpl Robot.kind.
    rewrite Hd, set_robot_twice.
    unfold Robot.with_time_left, Robot.with_state, Robot.with_time_spend; simpl.
    now rewrite Hpath.
Qed.

(** C1: a moving robot whose countdown is over arrives at the platform in
    front of its path: its id joins the back of the queue, and the log
    unless it is the last entry there; at a busy platform the robot waits
    for the time the platform has left, which then grows by the robot's
    duration; at a free platform the robot works, the platform is busy, and
    both have [duration - 1] left. *)
Theorem arrival_step (i : nat) (s : Sim) (r : Robot.t) (p : Z) (rest : list Z)
  (pl : Platform.t) (d : Z)
  (Hr : store s !! i = Some r)
  (Hpath : Robot.path r = p :: rest)
  (Hstate : Robot.state r = 3)
  (Hleft : Robot.time_left r <= 0)
  (Hpl : platform_map s !! p = Some pl)
  (Hd : action (Robot.kind r) (Platform.node_type pl) = inr d) :
  let id := Robot.robot_id r in
  let queue := Platform.cur_visitor pl ++ [id] in
  let log :=
    if decide (last (Platform.visitor pl) = Some id) then Platform.visitor pl
    else Platform.visitor pl ++ [id] in
  (Platform.state pl = 1 ->
   evaluate i s =
     Done true
       (mkSim
          (<[i := Robot.mk id (Robot.kind r) (Robot.velocity r) 2 (p :: rest)
                    (Platform.time_left pl) (Robot.time_spend r + 1)]> (store s))
          (<[p := Platform.mk (Platform.platform_id pl) (Platform.node_type pl) 1
                    (Platform.time_left pl + d) queue log]> (platform_map s))
          (robots s) (times s))) /\
  (Platform.state pl = 2 ->
   evaluate i s =
     Done true
       (mkSim
          (<[i := Robot.mk id (Robot.kind r) (Robot.velocity r) 1 (p :: rest)
                    (d - 1) (Robot.time_spend r + 1)]> (store s))
          (<[p := Platform.mk (Platform.platform_id pl) (Platform.node_type pl) 1
                    (d - 1) queue log]> (platform_map s))
          (robots s) (times s))).
Proof.
  intros id queue log.
  rewrite (evaluate_unfold i s r p rest Hr Hpath). cbv zeta.
  apply Z.ltb_ge in Hleft. rewrite Hleft.
  unfold change_state. simpl Robot.state. rewrite Hstate. simpl.
  unfold arrive. simpl platform_map. rewrite Hpl. cbv zeta.
  simpl Robot.robot_id. simpl Robot.kind. fold id.
  split; intros Hps.
  - unfold queue, log. simpl Platform.visitor.
    destruct (decide (last (Platform.visitor pl) = Some id)); simpl.
    all: rewrite Hps; simpl.
    all: rewrite Hd, set_robot_twice.
    all: unfold set_platform, set_robot, Platform.with_time_left,
           Platform.with_visitor, Platform.with_cur_visitor,
           Robot.with_time_left, Robot.with_state, Robot.with_time_spend; simpl.
    all: rewrite Hpath, Hps; reflexivity.
  - unfold queue, log. simpl Platform.visitor.
    destruct (decide (last (Platform.visitor pl) = Some id)); simpl.
    all: rewrite Hps; simpl.
    all: rewrite Hd, set_robot_twice.
    all: unfold set_platform, set_robot, Platform.with_time_left,
           Platform.with_visitor, Platform.with_cur_visitor, Platform.with_state,
           Robot.with_time_left, Robot.with_state, Robot.with_time_spend; simpl.
    all: rewrite Hpath; reflexivity.
Qed.

Lemma countdown_step_witness :
  evaluate 0 midrun =
    Done true
      (mkSim
         (<[0%nat := Robot.mk 10 Organizer 5 1 [1; 2] 6 24]> (store midrun))
         (<[1 := Platform.mk 1 "A" 1 26 [10; 12] [10; 12]]> (platform_map midrun))
         (robots midrun) (times midrun)).
Proof.
  exact (proj1 (countdown_step 0 midrun (Robot.mk 10 Organizer 5 1 [1; 2] 7 23)
                  1 [2] eq_refl eq_refl eq_refl)
           eq_refl (Platform.mk 1 "A" 1 27 [10; 12] [10; 12]) eq_refl).
Defined.

Lemma completion_step_witness :
  evaluate 3 midrun =
    Done true
      (mkSim
         (<[3%nat := Robot.mk 13 Organizer 4 3 [3] 3 46]> (store midrun))
         (<[2 := Platform.mk 2 "B" 2 0 [] [13]]> (platform_map midrun))
         (robots midrun) (times midrun)) /\
  evaluate 2 midrun =
    Done true
      (mkSim
         (<[2%nat := Robot.mk 12 Mover 2 1 [1; 3] 19 10]> (store midrun))
         (platform_map midrun) (robots midrun) (times midrun)).
Proof.
  split.
  - exact (proj1 (completion_step 3 midrun (Robot.mk 13 Organizer 4 1 [2; 3] 0 45)
                    2 [3] (Platform.mk 2 "B" 1 0 [13] [13])
                    eq_refl eq_refl ltac:(simpl; lia) eq_refl)
             eq_refl 13 [] eq_refl).
  - exact (proj2 (completion_step 2 midrun (Robot.mk 12 Mover 2 2 [1; 3] 0 9)
                    1 [3] (Platform.mk 1 "A" 1 27 [10; 12] [10; 12])
                    eq_refl eq_refl ltac:(simpl; lia) eq_refl)
             eq_refl 20 eq_refl).
Defined.

Lemma arrival_step_witness :
  evaluate 1 midrun =
    Done true
      (mkSim
         (<[1%nat := Robot.mk 11 Mover 2 2 [1] 27 5]> (store midrun))
         (<[1 := Platform.mk 1 "A" 1 47 [10; 12; 11] [10; 12; 11]]>
            (platform_map midrun))
         (robots midrun) (times midrun)) /\
  evaluate 4 midrun =
    Done true
      (mkSim
         (<[4%nat := Robot.mk 14 Mover 6 1 [3] 34 7]> (store midrun))
         (<[3 := Platform.mk 3 "B" 1 34 [14] [14]]> (platform_map midrun))
         (robots midrun) (times midrun)).
Proof.
  split.
  - exact (proj1 (arrival_step 1 midrun (Robot.mk 11 Mover 2 3 [1] 0 4) 1 []
                    (Platform.mk 1 "A" 1 27 [10; 12] [10; 12]) 20
                    eq_refl eq_refl eq_refl ltac:(simpl; lia) eq_refl eq_refl)
             eq_refl).
  - exact (proj2 (arrival_step 4 midrun (Robot.mk 14 Mover 6 3 [3] 0 6) 3 []
                    (Platform.mk 3 "B" 2 0 [] [14]) 35
                    eq_refl eq_refl eq_refl ltac:(simpl; lia) eq_refl eq_refl)
             eq_refl).
Defined.

(** ** The order of evaluation within a tick *)

Section StableSort.
Variable key : nat -> Z.

Lemma insert_by_front (x : nat) (l : list nat) :
  Forall (fun y => key x <= key y) l -> insert_by key x l = x :: l.
Proof.
  destruct l as [|y l]; [reflexivity|].
  intros H. apply Forall_inv in H. simpl.
  apply Z.leb_le in H. now rewrite H.
Qed.

Lemma insert_by_skip (x : nat) (l1 l2 : list nat) :
  Forall (fun y => key y < key x) l1 ->
  insert_by key x (l1 ++ l2) = l1 ++ insert_by key x l2.
Proof.
  induction 1 as [|y l1 Hy _ IH]; [reflexivity|].
  simpl. apply Z.leb_gt in Hy. now rewrite Hy, IH.
Qed.

Lemma with_key_Forall (k : Z) (l : list nat) :
  Forall (fun y => key y = k) (with_key key k l).
Proof.
  apply Forall_forall. intros y Hy.
  apply list_elem_of_filter in Hy. tauto.
Qed.

Lemma with_key_cons (k : Z) (x : nat) (l : list nat) :
  with_key key k (x :: l) = if decide (key x = k) then x :: with_key key k l else with_key key k l.
Proof. reflexivity. Qed.

(** With keys among 1, 2 and 3 the sorted list is the three classes one
    after the other, each in the order of the argument. *)
Lemma sorted_three_classes (l : list nat) :
  Forall (fun i => key i = 1 \/ key i = 2 \/ key i = 3) l ->
  sorted key l = with_key key 1 l ++ with_key key 2 l ++ with_key key 3 l.
Proof.
  induction 1 as [|x l Hx _ IH]; [reflexivity|].
  unfold sorted in *. simpl foldr. rewrite IH.
  pose proof (with_key_Forall 1 l) as H1.
  pose proof (with_key_Forall 2 l) as H2.
  pose proof (with_key_Forall 3 l) as H3.
  rewrite !with_key_cons.
  destruct Hx as [Hx | [Hx | Hx]]; rewrite Hx; simpl.
  - apply insert_by_front. rewrite !Forall_app. repeat split.
    + eapply Forall_impl; [exact H1|]. simpl. intros; lia.
    + eapply Forall_impl; [exact H2|]. simpl. intros; lia.
    + eapply Forall_impl; [exact H3|]. simpl. intros; lia.
  - rewrite insert_by_skip
      by (eapply Forall_impl; [exact H1|]; simpl; intros; lia).
    f_equal. apply insert_by_front. rewrite Forall_app. split.
    + eapply Forall_impl; [exact H2|]. simpl. intros; lia.
    + eapply Forall_impl; [exact H3|]. simpl. intros; lia.
  - rewrite insert_by_skip
      by (eapply Forall_impl; [exact H1|]; simpl; intros; lia).
    f_equal.
    rewrite insert_by_skip
      by (eapply Forall_impl; [exact H2|]; simpl; intros; lia).
    f_equal. apply insert_by_front.
    eapply Forall_impl; [exact H3|]. simpl. intros; lia.
Qed.

Lemma elem_of_insert_by (x y : nat) (l : list nat) :
  y ∈ insert_by key x l <-> y = x \/ y ∈ l.
Proof.
  induction l as [|z l IH]; simpl.
  - rewrite list_elem_of_singleton. split; [tauto|].
    intros [H|H]; [exact H|]. now apply not_elem_of_nil in H.
  - destruct (key x <=? key z).
    + now rewrite elem_of_cons.
    + rewrite !elem_of_cons, IH. tauto.
Qed.

Lemma elem_of_sorted (y : nat) (l : list nat) : y ∈ sorted key l <-> y ∈ l.
Proof.
  induction l as [|x l IH]; [reflexivity|].
  unfold sorted in *. simpl. rewrite elem_of_insert_by, IH, elem_of_cons.
  tauto.
Qed.
End StableSort.

(** C2: one tick evaluates the working robots, then the waiting robots, then
    the moving robots (states as they are when the tick starts), each class
    in the order of [self.robots].  So a platform a working robot leaves can
    be taken in the same tick by a moving robot that arrives there, even one
    listed before the working robot: in [handoff], robot 21 finds platform 1
    free and starts to work. *)
Theorem tick_order (s : Sim)
  (Hstates :
     Forall (fun i => state_key s i = 1 \/ state_key s i = 2 \/ state_key s i = 3)
       (robots s)) :
  tick s =
    pass (with_key (state_key s) 1 (robots s) ++
          with_key (state_key s) 2 (robots s) ++
          with_key (state_key s) 3 (robots s))
      false (set_times (times s + 1) s) /\
  tick handoff =
    Done true
      (mkSim
         [ Robot.mk 21 Mover 3 1 [1] 19 13;
           Robot.mk 22 Organizer 2 3 [2] 1 31 ]
         (<[1 := Platform.mk 1 "A" 1 19 [21] [22; 21]]>
            (<[2 := Platform.mk 2 "B" 2 0 [] []]> ∅))
         [0; 1]%nat 31).
Proof.
  split.
  - unfold tick. cbv zeta.
    change (state_key (set_times (times s + 1) s)) with (state_key s).
    change (robots (set_times (times s + 1) s)) with (robots s).
    now rewrite sorted_three_classes.
  - vm_compute. reflexivity.
Qed.

Lemma tick_order_witness :
  tick handoff = pass [1; 0]%nat false (set_times 31 handoff).
Proof.
  exact (proj1 (tick_order handoff
                  ltac:(repeat constructor;
                        first [ now left | now (right; left) | now (right; right) ]))).
Defined.

(** ** What a step leaves alone *)

Lemma same_but_refl (i : nat) (s : Sim) : same_but i s s.
Proof. repeat split. Qed.

Lemma evaluate_same_but (i : nat) (s : Sim) : same_but i s (final (evaluate i s)).
Proof.
  unfold same_but. step_cases;
    rewrite ?length_insert;
    repeat split; intros; rewrite ?list_lookup_insert_ne by congruence;
    reflexivity.
Qed.

Lemma init_robot_same_but (i : nat) (s : Sim) :
  same_but i s (final (init_robot i s)).
Proof.
  unfold same_but. step_cases;
    rewrite ?length_insert;
    repeat split; intros; rewrite ?list_lookup_insert_ne by congruence;
    reflexivity.
Qed.

Lemma same_outside_step (i : nat) (l : list nat) (s s' s'' : Sim) :
  same_but i s s' -> same_outside l s' s'' -> same_outside (i :: l) s s''.
Proof.
  intros (Hr & _ & Hl & Hs) (Hr' & Hl' & Hs'). repeat split; try congruence.
  intros j Hj. apply not_elem_of_cons in Hj as [Hne Hj].
  rewrite Hs' by assumption. now apply Hs.
Qed.

Lemma same_outside_trans (l : list nat) (s s' s'' : Sim) :
  same_outside l s s' -> same_outside l s' s'' -> same_outside l s s''.
Proof.
  intros (Hr & Hl & Hs) (Hr' & Hl' & Hs'). repeat split; try congruence.
  intros j Hj. rewrite Hs' by assumption. now apply Hs.
Qed.

Lemma same_outside_weaken (l l' : list nat) (s s' : Sim) :
  (forall j, j ∈ l -> j ∈ l') -> same_outside l s s' -> same_outside l' s s'.
Proof.
  intros Hsub (Hr & Hl & Hs). repeat split; try assumption.
  intros j Hj. apply Hs. intros Hin. apply Hj, Hsub, Hin.
Qed.

Lemma pass_same_outside (order : list nat) (flag : bool) (s : Sim) :
  same_outside order s (final (pass order flag s)).
Proof.
  revert flag s. induction order as [|i order IH]; intros flag s; simpl.
  - repeat split.
  - pose proof (evaluate_same_but i s) as Hi.
    destruct (evaluate i s) as [a s' | e s']; simpl in *.
    + eapply same_outside_step; [exact Hi | apply IH].
    + eapply same_outside_step; [exact Hi | repeat split].
Qed.

Lemma init_loop_same_outside (refs : list nat) (s : Sim) :
  same_outside refs s (final (init_loop refs s)).
Proof.
  revert s. induction refs as [|i refs IH]; intros s; simpl.
  - repeat split.
  - pose proof (init_robot_same_but i s) as Hi.
    destruct (init_robot i s) as [a s' | e s']; simpl in *.
    + eapply same_outside_step; [exact Hi | apply IH].
    + eapply same_outside_step; [exact Hi | repeat split].
Qed.

Lemma tick_same_outside (s : Sim) : same_outside (robots s) s (final (tick s)).
Proof.
  unfold tick. cbv zeta.
  eapply same_outside_weaken;
    [| eapply same_outside_trans; [| apply pass_same_outside]].
  - intros j Hj. apply elem_of_sorted in Hj. exact Hj.
  - repeat split.
Qed.


Lemma run_same_outside (fuel : nat) (s : Sim) (o : outcome unit) :
  run fuel s = Some o -> same_outside (robots s) s (final o).
Proof.
  revert s. induction fuel as [|fuel IH]; intros s; simpl; [discriminate|].
  pose proof (tick_same_outside s) as Ht.
  destruct (tick s) as [[|] s' | e s']; simpl in *.
  - intros Hrun. eapply same_outside_trans; [exact Ht|].
    destruct Ht as (Hr & _). rewrite <- Hr. now apply IH.
  - intros [= <-]. exact Ht.
  - intros [= <-]. exact Ht.
Qed.

(** ** The references the constructor picks *)

Lemma pick_short (rs : list Robot.t) :
  (length rs < 4)%nat -> pick rs [0; 2; 1; 3]%nat = None.
Proof.
  intros H. destruct rs as [|a [|b [|c [|d rs]]]]; simpl in *; try reflexivity.
  lia.
Qed.

Lemma pick_four (rs : list Robot.t) :
  (4 <= length rs)%nat -> pick rs [0; 2; 1; 3]%nat = Some [0; 2; 1; 3]%nat.
Proof.
  intros H. destruct rs as [|a [|b [|c [|d rs]]]]; simpl in *; try lia.
  reflexivity.
Qed.

Lemma init_same_outside (rs : list Robot.t) (pm : gmap Z Platform.t) (s : Sim) :
  RobotScheduler_init rs pm = Done tt s ->
  robots s = [0; 2; 1; 3]%nat /\
  forall j, (4 <= j)%nat -> store s !! j = rs !! j.
Proof.
  unfold RobotScheduler_init. intros H.
  destruct (pick rs [0; 2; 1; 3]%nat) as [refs|] eqn:Hpick; [|discriminate].
  assert (refs = [0; 2; 1; 3]%nat) as ->.
  { destruct (Nat.lt_ge_cases (length rs) 4) as [Hlt|Hge].
    - rewrite pick_short in Hpick by assumption. discriminate.
    - rewrite pick_four in Hpick by assumption. congruence. }
  pose proof (init_loop_same_outside [0; 2; 1; 3]%nat
                (mkSim rs pm [0; 2; 1; 3]%nat 0)) as (Hr & _ & Hs).
  rewrite H in Hr, Hs. simpl in Hr, Hs. split; [exact Hr|].
  intros j Hj. apply Hs.
  rewrite !elem_of_cons. intros [->|[->|[->|[->|Hn]]]]; try lia.
  now apply not_elem_of_nil in Hn.
Qed.

(** ** Fuel *)

Lemma run_more_fuel (fuel fuel' : nat) (s : Sim) (o : outcome unit) :
  run fuel s = Some o -> (fuel <= fuel')%nat -> run fuel' s = Some o.
Proof.
  revert fuel' s. induction fuel as [|fuel IH]; intros fuel' s; simpl;
    [discriminate|].
  intros Hrun Hle. destruct fuel' as [|fuel']; [lia|]. simpl.
  destruct (tick s) as [[|] s' | e s']; try exact Hrun.
  apply IH; [exact Hrun | lia].
Qed.

(** The result of a run does not depend on the fuel that was enough. *)
Lemma run_deterministic (fuel fuel' : nat) (s : Sim) (o o' : outcome unit) :
  run fuel s = Some o -> run fuel' s = Some o' -> o = o'.
Proof.
  intros H H'. destruct (Nat.le_ge_cases fuel fuel') as [Hle|Hle].
  - rewrite (run_more_fuel fuel fuel' s o H Hle) in H'. congruence.
  - rewrite (run_more_fuel fuel' fuel s o' H' Hle) in H. congruence.
Qed.

Lemma schedule_deterministic (fuel fuel' : nat) (rs : list Robot.t)
  (pm : gmap Z Platform.t) (o o' : outcome unit) :
  schedule fuel rs pm = Some o -> schedule fuel' rs pm = Some o' -> o = o'.
Proof.
  unfold schedule. destruct (RobotScheduler_init rs pm) as [[] s | e s].
  - apply run_deterministic.
  - congruence.
Qed.

(** ** Robots without a path *)

Lemma init_robot_empty_path (i : nat) (s : Sim) (r : Robot.t) :
  store s !! i = Some r -> Robot.path r = [] ->
  init_robot i s = Raised IndexError s.
Proof. intros Hr Hp. unfold init_robot. now rewrite Hr, Hp. Qed.

(** C7: the constructor does not skip a robot without a path.  On
    [idle_fleet] it initialises the first and the third robot and then
    raises [IndexError] at [robot.path[0]] of the second one; the loop of
    [run], in contrast, skips such a robot ([evaluate_empty_path]). *)
Theorem init_empty_path_raises :
  RobotScheduler_init idle_fleet three_platforms =
    Raised IndexError
      (mkSim
         [ Robot.mk 1 Organizer 5 1 [1] 30 0;
           loaded_robot 2 Mover 3 [];
           Robot.mk 3 Mover 2 1 [2] 20 0;
           loaded_robot 4 Mover 2 [3] ]
         (<[1 := Platform.mk 1 "A" 1 30 [1] [1]]>
            (<[2 := Platform.mk 2 "A" 1 20 [3] [3]]>
               (<[3 := loaded_platform 3 "A"]> ∅)))
         [0; 2; 1; 3]%nat 0).
Proof. vm_compute. reflexivity. Qed.

(** ** The queue and the log of a platform *)

(** C8: the queue of a platform can hold an id twice.  The constructor
    queues robots 1 and 3 on platform 1 and lets both work; in tick 21
    robot 3 leaves and [popleft] removes the id of robot 1; in tick 22 it
    arrives again and its id is queued a second time, while robot 1, still
    working there, is not in the queue. *)
Theorem queue_holds_id_twice :
  exists s s' pl r,
    RobotScheduler_init crowded_fleet three_platforms = Done tt s /\
    ticks 22 s = Done true s' /\
    platform_map s' !! 1 = Some pl /\
    Platform.cur_visitor pl = [3; 3] /\
    store s' !! 0%nat = Some r /\
    Robot.robot_id r = 1 /\ Robot.state r = 1 /\ Robot.path r = [1].
Proof.
  eexists _, _, _, _.
  do 7 (split; [vm_compute; reflexivity|]). reflexivity.
Qed.

Lemma log_grows_refl (s : Sim) : log_grows s s.
Proof. intros p pl H. now exists pl. Qed.

Lemma log_grows_trans (s s' s'' : Sim) :
  log_grows s s' -> log_grows s' s'' -> log_grows s s''.
Proof.
  intros H H' p pl Hp.
  destruct (H p pl Hp) as (pl' & Hp' & Hpre).
  destruct (H' p pl' Hp') as (pl'' & Hp'' & Hpre').
  exists pl''. split; [exact Hp''|]. now transitivity (Platform.visitor pl').
Qed.

Lemma evaluate_log_grows (i : nat) (s : Sim) : log_grows s (final (evaluate i s)).
Proof.
  step_cases; intros p0 pl0 Hp0; simpl;
    first
      [ exists pl0; split; [exact Hp0 | reflexivity]
      | match goal with
        | |- context [<[?k := _]> _ !! _] =>
            destruct (decide (k = p0)) as [->|Hne];
            [ rewrite lookup_insert_eq | rewrite lookup_insert_ne by exact Hne ]
        end;
        [ eexists; (split; [reflexivity|]); simpl;
          match goal with
          | H : platform_map _ !! p0 = Some ?pl |- _ =>
              rewrite H in Hp0; injection Hp0 as <-
          end;
          first [ reflexivity | now apply prefix_app_r ]
        | exists pl0; split; [exact Hp0 | reflexivity] ] ].
Qed.

Lemma pass_log_grows (order : list nat) (flag : bool) (s : Sim) :
  log_grows s (final (pass order flag s)).
Proof.
  revert flag s. induction order as [|i order IH]; intros flag s; simpl.
  - apply log_grows_refl.
  - pose proof (evaluate_log_grows i s) as Hi.
    destruct (evaluate i s) as [a s' | e s']; simpl in *; [|exact Hi].
    eapply log_grows_trans; [exact Hi | apply IH].
Qed.

(** Across any number of ticks the log of a platform is extended, never
    shortened or rewritten. *)
Lemma ticks_log_grows (n : nat) (s : Sim) : log_grows s (final (ticks n s)).
Proof.
  revert s. induction n as [|n IH]; intros s; simpl; [apply log_grows_refl|].
  assert (Ht : log_grows s (final (tick s))).
  { unfold tick. cbv zeta.
    eapply log_grows_trans; [|apply pass_log_grows].
    intros p pl Hp. now exists pl. }
  destruct (tick s) as [[|] s' | e s']; simpl in *; try exact Ht.
  eapply log_grows_trans; [exact Ht | apply IH].
Qed.

Lemma tick_log_grows (s : Sim) : log_grows s (final (tick s)).
Proof.
  unfold tick. cbv zeta.
  eapply log_grows_trans; [|apply pass_log_grows].
  intros p pl Hp. now exists pl.
Qed.

(** The same from the start of [run] to its end, however it ends. *)
Lemma run_log_grows (fuel : nat) (s : Sim) (o : outcome unit) :
  run fuel s = Some o -> log_grows s (final o).
Proof.
  revert s. induction fuel as [|fuel IH]; intros s; simpl; [discriminate|].
  pose proof (tick_log_grows s) as Ht.
  destruct (tick s) as [[|] s' | e s']; simpl in Ht.
  - intros Hrun. eapply log_grows_trans; [exact Ht | now apply IH].
  - now intros [= <-].
  - now intros [= <-].
Qed.

(** ** The two-platform scenario *)

(** C6, as stated, fails: a scheduler for the organizer alone cannot be
    constructed ([IndexError]), so no run completes with 80; and with three
    more robots that never meet it, the organizer does not end with 80
    either. *)
Lemma lone_organizer_not_80 :
  RobotScheduler_init lone_organizer two_platforms =
    Raised IndexError (mkSim lone_organizer two_platforms [] 0) /\
  ~ completes_with lone_organizer two_platforms 0 80 /\
  ~ completes_with escorted_organizer five_platforms 0 80.
Proof.
  split; [reflexivity|]. split.
  - intros (fuel & s & r & Hrun & _). unfold schedule in Hrun.
    change (RobotScheduler_init lone_organizer two_platforms)
      with (@Raised unit IndexError (mkSim lone_organizer two_platforms [] 0))
      in Hrun.
    discriminate.
  - intros (fuel & s & r & Hrun & Hr & Ht).
    assert (H82 : exists s0,
               schedule 82 escorted_organizer five_platforms = Some (Done tt s0) /\
               (Robot.time_spend <$> store s0 !! 0%nat) = Some 81).
    { eexists. split; vm_compute; reflexivity. }
    destruct H82 as (s0 & H82 & Hs0).
    pose proof (schedule_deterministic _ _ _ _ _ _ Hrun H82) as Heq.
    injection Heq as ->. rewrite Hr in Hs0. simpl in Hs0.
    injection Hs0 as Hs0. lia.
Qed.


(** ** Termination of [run] *)

(** *** Progress of one evaluation *)

Lemma action_bounds (k : Kind) (nt : string) (d : Z) :
  action k nt = inr d -> 20 <= d <= 45.
Proof.
  destruct k; simpl;
    destruct (String.eqb nt "A"); [intros [= <-]; lia| |intros [= <-]; lia|];
    (destruct (String.eqb nt "B"); [intros [= <-]; lia | discriminate]).
Qed.

Lemma total_insert_out (f : Robot.t -> Z) (st : list Robot.t) (l : list nat)
  (i : nat) (r' : Robot.t) :
  i ∉ l -> total f (<[i := r']> st) l = total f st l.
Proof.
  induction l as [|j l IH]; intros Hi; [reflexivity|].
  apply not_elem_of_cons in Hi as [Hne Hi]. simpl.
  rewrite list_lookup_insert_ne by congruence. now rewrite IH.
Qed.

Lemma total_insert (f : Robot.t -> Z) (st : list Robot.t) (l : list nat)
  (i : nat) (r r' : Robot.t) :
  NoDup l -> i ∈ l -> st !! i = Some r ->
  total f (<[i := r']> st) l = total f st l - f r + f r'.
Proof.
  intros Hnd Hi Hr. induction l as [|j l IH]; [now apply not_elem_of_nil in Hi|].
  apply NoDup_cons in Hnd as [Hj Hnd]. simpl.
  destruct (decide (j = i)) as [->|Hne].
  - rewrite list_lookup_insert_eq by (eapply lookup_lt_Some; exact Hr).
    rewrite Hr, total_insert_out by exact Hj. lia.
  - rewrite list_lookup_insert_ne by congruence.
    apply elem_of_cons in Hi as [Hi|Hi]; [congruence|].
    rewrite IH by assumption. lia.
Qed.

Lemma total_nonneg (f : Robot.t -> Z) (st : list Robot.t) (l : list nat) :
  (forall r, 0 <= f r) -> 0 <= total f st l.
Proof.
  intros Hf. induction l as [|j l IH]; simpl; [lia|].
  destruct (st !! j) as [r|]; [specialize (Hf r)|]; lia.
Qed.

Lemma total_le (f g : Robot.t -> Z) (st st' : list Robot.t) (l : list nat) :
  (forall i, i ∈ l ->
     match st !! i with Some r => f r | None => 0 end <=
     match st' !! i with Some r => g r | None => 0 end) ->
  total f st l <= total g st' l.
Proof.
  induction l as [|j l IH]; intros H; simpl; [lia|].
  pose proof (H j ltac:(left)) as Hj.
  assert (total f st l <= total g st' l) by (apply IH; intros; apply H; now right).
  lia.
Qed.

Lemma arrivals_nonneg (r : Robot.t) : 0 <= arrivals r.
Proof. unfold arrivals. repeat case_match; lia. Qed.

Lemma pot_nonneg (K : Z) (r : Robot.t) : 0 <= K -> 0 <= pot K r.
Proof.
  intros HK. unfold pot, cost. repeat case_match; try lia.
  all: assert (0 <= Z.of_nat (length l) *
                      (Z.max (Robot.velocity r - 1) 0 + K + 47))
         by (apply Z.mul_nonneg_nonneg; lia); lia.
Qed.

(** An evaluation that does not set [flag] changes nothing. *)
Lemma evaluate_idle (i : nat) (s s' : Sim) :
  evaluate i s = Done false s' ->
  s' = s /\ forall r, store s !! i = Some r -> Robot.path r = [].
Proof.
  intros H. step_cases; try discriminate; simplify_eq; split; try reflexivity;
    intros; congruence.
Qed.

(** An evaluation that sets [flag] rewrites the robot, lowers its potential
    and keeps the platforms within [K]. *)
Lemma evaluate_progress (K X : Z) (i : nat) (s s' : Sim) (r : Robot.t) :
  0 <= K -> 0 <= X ->
  store s !! i = Some r -> robot_state_ok r ->
  platforms_within K (X + arrivals r) (platform_map s) ->
  evaluate i s = Done true s' ->
  exists r',
    store s' = <[i := r']> (store s) /\
    robots s' = robots s /\
    robot_state_ok r' /\
    pot K r' + 1 <= pot K r /\
    platforms_within K (X + arrivals r') (platform_map s').
Proof.
  intros HK HX Hr Hok Hpl H.
  unfold evaluate in H. rewrite Hr in H.
  destruct (Robot.path r) as [|p rest] eqn:Hpath; [discriminate|].
  step_cases; try discriminate; simplify_eq; bool_to_prop.
  all: unfold robot_state_ok in Hok.
  all: repeat match goal with
         | H : action _ _ = inr _ |- _ => apply action_bounds in H
         end.
  all: pose proof (arrivals_nonneg r) as Harr.
  all: repeat match goal with
         | H : platform_map _ !! _ = Some _ |- _ =>
             pose proof (Hpl _ _ H); clear H
         end.
  all: eexists; split;
         [simpl; rewrite ?list_insert_insert_eq; reflexivity|].
  all: split; [reflexivity|].
  all: split; [unfold robot_state_ok; simpl; lia|].
  all: split.
  all: try (unfold pot, cost; simpl; rewrite ?Hpath;
            try (destruct rest; simpl length);
            repeat match goal with
              | |- context [?a =? ?b] => destruct (Z.eqb_spec a b)
              end; lia).
  all: intros p0 pl0 Hp0; simpl in Hp0.
  all: try (apply lookup_insert_Some in Hp0 as [[-> <-] | [Hne Hp0]]).
  all: try (apply Hpl in Hp0).
  all: unfold arrivals in *; simpl; rewrite ?Hpath in *.
  all: try (destruct rest; cbn [length] in *).
  all: repeat match goal with
         | H : context [_ =? _] |- _ => revert H
         end.
  all: repeat match goal with
         | |- context [?a =? ?b] => destruct (Z.eqb_spec a b)
         end.
  all: intros; simpl; lia.
Qed.

(** *** The invariant of the loop *)

Lemma total_member_le (f : Robot.t -> Z) (st : list Robot.t) (l : list nat)
  (i : nat) (r : Robot.t) :
  (forall r0, 0 <= f r0) -> i ∈ l -> st !! i = Some r -> f r <= total f st l.
Proof.
  intros Hf Hi Hr. induction l as [|j l IH]; [now apply not_elem_of_nil in Hi|].
  simpl. pose proof (total_nonneg f st l Hf) as Hl.
  apply elem_of_cons in Hi as [->|Hi].
  - rewrite Hr. lia.
  - specialize (IH Hi). destruct (st !! j) as [r0|]; [specialize (Hf r0)|]; lia.
Qed.

Lemma potential_nonneg (K : Z) (s : Sim) : 0 <= K -> 0 <= potential K s.
Proof. intros HK. apply total_nonneg. intros r. now apply pot_nonneg. Qed.

Lemma evaluate_inv (K : Z) (i : nat) (a : bool) (s s' : Sim) :
  inv K s -> i ∈ robots s -> evaluate i s = Done a s' ->
  inv K s' /\ potential K s' + (if a then 1 else 0) <= potential K s.
Proof.
  intros (HK & Hnd & Hst & Hpl) Hi H. destruct a.
  - destruct (store s !! i) as [r|] eqn:Hr;
      [|unfold evaluate in H; rewrite Hr in H; discriminate].
    pose proof (total_member_le arrivals (store s) (robots s) i r
                  arrivals_nonneg Hi Hr) as Hle.
    destruct (evaluate_progress K
                (total arrivals (store s) (robots s) - arrivals r) i s s' r)
      as (r' & Hs' & Hrs' & Hok' & Hpot & Hpl'); try assumption; try lia.
    { now apply (Hst i). }
    { now replace (total arrivals (store s) (robots s) - arrivals r + arrivals r)
        with (total arrivals (store s) (robots s)) by lia. }
    unfold inv, potential. rewrite Hs', Hrs'.
    rewrite !(total_insert _ _ _ i r r') by assumption.
    split; [|lia]. split; [exact HK|]. split; [exact Hnd|]. split; [|exact Hpl'].
    intros j rj Hj. destruct (decide (j = i)) as [->|Hne].
    + rewrite list_lookup_insert_eq by (eapply lookup_lt_Some; exact Hr).
      now intros [= <-].
    + rewrite list_lookup_insert_ne by congruence. now apply Hst.
  - apply evaluate_idle in H as [-> _].
    split; [exact (conj HK (conj Hnd (conj Hst Hpl))) | lia].
Qed.

Lemma pass_inv (K : Z) (order : list nat) (flag flag' : bool) (s s' : Sim) :
  inv K s -> (forall i, i ∈ order -> i ∈ robots s) ->
  pass order flag s = Done flag' s' ->
  inv K s' /\
  potential K s' + (if flag' then if flag then 0 else 1 else 0) <= potential K s.
Proof.
  revert flag s. induction order as [|i order IH]; intros flag s Hinv Hsub; simpl.
  - intros [= <- <-]. split; [exact Hinv|]. destruct flag; lia.
  - pose proof (evaluate_same_but i s) as (Hrs & _).
    destruct (evaluate i s) as [a s1 | e s1] eqn:He; [|discriminate].
    simpl in Hrs. intros Hpass.
    destruct (evaluate_inv K i a s s1 Hinv (Hsub i ltac:(left)) He)
      as [Hinv1 Hpot1].
    destruct (IH (flag || a) s1 Hinv1) as [Hinv' Hpot']; [|exact Hpass|].
    { intros j Hj. rewrite Hrs. apply Hsub. now right. }
    split; [exact Hinv'|].
    destruct flag', flag, a; simpl in *; lia.
Qed.

Lemma pass_times (order : list nat) (flag : bool) (s : Sim) :
  times (final (pass order flag s)) = times s.
Proof.
  revert flag s. induction order as [|i order IH]; intros flag s; simpl;
    [reflexivity|].
  pose proof (evaluate_same_but i s) as (_ & Ht & _).
  destruct (evaluate i s) as [a s1 | e s1]; simpl in *; [|exact Ht].
  now rewrite IH.
Qed.

(** Each iteration increments the counter, also the last one and one that
    raises. *)
Lemma tick_times (s : Sim) : times (final (tick s)) = times s + 1.
Proof. unfold tick. cbv zeta. now rewrite pass_times. Qed.

Lemma tick_inv (K : Z) (a : bool) (s s' : Sim) :
  inv K s -> tick s = Done a s' ->
  inv K s' /\ potential K s' + (if a then 1 else 0) <= potential K s.
Proof.
  intros Hinv H. unfold tick in H. cbv zeta in H.
  apply (pass_inv K) in H as [Hinv' Hpot].
  - split; [exact Hinv'|]. destruct a; exact Hpot.
  - exact Hinv.
  - intros i Hi. apply elem_of_sorted in Hi. exact Hi.
Qed.

(** *** When the loop exits *)

Lemma pass_flag_set (order : list nat) (flag' : bool) (s s' : Sim) :
  pass order true s = Done flag' s' -> flag' = true.
Proof.
  revert s. induction order as [|i order IH]; intros s; simpl.
  - now intros [= <- _].
  - destruct (evaluate i s) as [a s1 | e s1]; [|discriminate]. apply IH.
Qed.

Lemma pass_unset (order : list nat) (s s' : Sim) :
  pass order false s = Done false s' ->
  s' = s /\
  forall i r, i ∈ order -> store s !! i = Some r -> Robot.path r = [].
Proof.
  induction order as [|i order IH]; simpl.
  - intros [= <-]. split; [reflexivity|].
    intros i r Hi. now apply not_elem_of_nil in Hi.
  - destruct (evaluate i s) as [[|] s1 | e s1] eqn:He; try discriminate.
    + intros H. now apply pass_flag_set in H.
    + apply evaluate_idle in He as [-> Hi]. intros H.
      destruct (IH H) as [-> Hrest]. split; [reflexivity|].
      intros j r Hj Hr. apply elem_of_cons in Hj as [->|Hj]; eauto.
Qed.

Lemma pass_all_skipped (order : list nat) (flag : bool) (s : Sim) :
  (forall i r, i ∈ order -> store s !! i = Some r -> Robot.path r = []) ->
  pass order flag s = Done flag s.
Proof.
  induction order as [|i order IH]; intros H; simpl; [reflexivity|].
  assert (He : evaluate i s = Done false s).
  { unfold evaluate. destruct (store s !! i) as [r|] eqn:Hr; [|reflexivity].
    now rewrite (H i r ltac:(left) Hr). }
  rewrite He, orb_false_r. apply IH. intros j r Hj. apply H. now right.
Qed.

(** The pass leaves [flag] unset exactly when every referenced robot has
    completed its path; it has then changed nothing but the counter. *)
Lemma tick_exit (s : Sim) (a : bool) (s' : Sim) :
  tick s = Done a s' ->
  (a = false <-> all_done s) /\
  (a = false -> s' = set_times (times s + 1) s).
Proof.
  unfold tick. cbv zeta. intros H. split; [split|].
  - intros ->. apply pass_unset in H as [_ H]. intros i r Hi Hr.
    apply (H i r); [|exact Hr]. apply elem_of_sorted. exact Hi.
  - intros Hdone. rewrite pass_all_skipped in H.
    + now injection H as <- _.
    + intros i r Hi Hr. apply elem_of_sorted in Hi. now apply (Hdone i r).
  - intros ->. now apply pass_unset in H as [-> _].
Qed.

(** From a state that satisfies the invariant, [run] exits, or raises, within
    [potential + 1] iterations. *)
Lemma run_halts (K : Z) (n : nat) (s : Sim) :
  inv K s -> potential K s <= Z.of_nat n ->
  exists o, run (S n) s = Some o /\
    times (final o) <= times s + Z.of_nat n + 1 /\
    forall s', o = Done tt s' -> all_done s'.
Proof.
  revert s. induction n as [|n IH]; intros s Hinv Hpot.
  - simpl. pose proof (tick_times s) as Ht.
    destruct (tick s) as [[|] s' | e s'] eqn:Htick; simpl in Ht.
    + destruct (tick_inv K true s s' Hinv Htick) as [(HK & _) Hlt].
      pose proof (potential_nonneg K s' HK). lia.
    + eexists. split; [reflexivity|]. simpl. split; [lia|].
      intros s0 [= <-]. destruct (tick_exit s false s' Htick) as [Hd Hs'].
      rewrite (Hs' eq_refl). now apply Hd.
    + eexists. split; [reflexivity|]. simpl. split; [lia|]. discriminate.
  - change (run (S (S n)) s) with
      (match tick s with
       | Done true s' => run (S n) s'
       | Done false s' => Some (Done tt s')
       | Raised e s' => Some (Raised e s')
       end).
    pose proof (tick_times s) as Ht.
    destruct (tick s) as [[|] s' | e s'] eqn:Htick; simpl in Ht.
    + destruct (tick_inv K true s s' Hinv Htick) as [Hinv' Hlt].
      destruct (IH s' Hinv') as (o & Hrun & Htimes & Hdone); [lia|].
      exists o. repeat split; [exact Hrun | lia | exact Hdone].
    + eexists. split; [reflexivity|]. simpl. split; [lia|].
      intros s0 [= <-]. destruct (tick_exit s false s' Htick) as [Hd Hs'].
      rewrite (Hs' eq_refl). now apply Hd.
    + eexists. split; [reflexivity|]. simpl. split; [lia|]. discriminate.
Qed.

(** *** The state the constructor leaves *)

Lemma init_robot_effect (i : nat) (s s' : Sim) :
  init_robot i s = Done tt s' ->
  (exists r r', store s !! i = Some r /\ started r r' /\
     store s' = <[i := r']> (store s)) /\
  forall B, 45 <= B -> platforms_bounded B (platform_map s) ->
    platforms_bounded B (platform_map s').
Proof.
  intros H. step_cases; try discriminate; simplify_eq.
  match goal with
  | H : action _ _ = inr _ |- _ => apply action_bounds in H
  end.
  split.
  - eexists _, _. split; [reflexivity|]. split; [|reflexivity].
    split; [congruence|]. eexists. split; [eassumption|].
    unfold Robot.with_time_left, Robot.with_state. simpl. congruence.
  - intros B HB Hpl p0 pl0 Hp0. simpl in Hp0.
    apply lookup_insert_Some in Hp0 as [[-> <-] | [Hne Hp0]].
    + simpl. split; [now left | lia].
    + exact (Hpl p0 pl0 Hp0).
Qed.

Lemma init_loop_times (refs : list nat) (s : Sim) :
  times (final (init_loop refs s)) = times s.
Proof.
  revert s. induction refs as [|i refs IH]; intros s; simpl; [reflexivity|].
  pose proof (init_robot_same_but i s) as (_ & Ht & _).
  destruct (init_robot i s) as [a s1 | e s1]; simpl in *; [|exact Ht].
  now rewrite IH.
Qed.

Lemma init_loop_effect (refs : list nat) (s s' : Sim) :
  NoDup refs -> init_loop refs s = Done tt s' ->
  (forall B, 45 <= B -> platforms_bounded B (platform_map s) ->
     platforms_bounded B (platform_map s')) /\
  forall i, i ∈ refs ->
    exists r r', store s !! i = Some r /\ store s' !! i = Some r' /\ started r r'.
Proof.
  revert s. induction refs as [|i refs IH]; intros s Hnd; simpl.
  - intros [= <-]. split; [tauto|]. intros i Hi. now apply not_elem_of_nil in Hi.
  - apply NoDup_cons in Hnd as [Hi Hnd].
    destruct (init_robot i s) as [[] s1 | e s1] eqn:Hinit; [|discriminate].
    intros Hloop.
    destruct (init_robot_effect i s s1 Hinit) as [(r & r' & Hr & Hst & Hs1) Hpl1].
    destruct (IH s1 Hnd Hloop) as [Hpl' Hrefs].
    pose proof (init_loop_same_outside refs s1) as (_ & _ & Hout).
    rewrite Hloop in Hout. simpl in Hout.
    split; [intros B HB Hpl; now apply Hpl', Hpl1|].
    intros j Hj. apply elem_of_cons in Hj as [->|Hj].
    + exists r, r'. split; [exact Hr|]. split; [|exact Hst].
      rewrite Hout by exact Hi. rewrite Hs1.
      apply list_lookup_insert_eq. eapply lookup_lt_Some; exact Hr.
    + destruct (Hrefs j Hj) as (rj & rj' & Hrj & Hrj' & Hstj).
      exists rj, rj'. split; [|split; assumption].
      rewrite Hs1 in Hrj. rewrite list_lookup_insert_ne in Hrj; [exact Hrj|].
      intros ->. contradiction.
Qed.

Lemma pick_some (rs : list Robot.t) (idx l : list nat) :
  pick rs idx = Some l -> l = idx.
Proof.
  revert l. induction idx as [|i idx IH]; intros l; simpl.
  - now intros [= <-].
  - destruct (rs !! i); [|discriminate].
    destruct (pick rs idx) as [l'|]; [|discriminate].
    intros [= <-]. now rewrite (IH l' eq_refl).
Qed.

(** *** The bound *)

Lemma legs_nonneg (r : Robot.t) : 0 <= legs r.
Proof. unfold legs. destruct (Robot.path r); lia. Qed.

Lemma wait_bound_pos (B : Z) (rs : list Robot.t) : 45 <= wait_bound B rs.
Proof.
  unfold wait_bound.
  pose proof (total_nonneg legs rs [0; 2; 1; 3]%nat legs_nonneg). lia.
Qed.


Lemma started_measures (K : Z) (r r' : Robot.t) :
  started r r' ->
  robot_state_ok r' /\ arrivals r' = legs r /\ pot K r' <= budget K r.
Proof.
  intros (Hpath & d & Hd & ->).
  unfold robot_state_ok, arrivals, pot, budget, legs. simpl.
  destruct (Robot.path r) as [|p rest]; [congruence|].
  change (1 =? 3) with false. change (1 =? 1) with true. cbv iota.
  split; [now left|]. split; [reflexivity|]. unfold cost. lia.
Qed.

Lemma total_ext (f g : Robot.t -> Z) (st st' : list Robot.t) (l : list nat) :
  (forall i, i ∈ l ->
     match st !! i with Some r => f r | None => 0 end =
     match st' !! i with Some r => g r | None => 0 end) ->
  total f st l = total g st' l.
Proof.
  induction l as [|j l IH]; intros H; simpl; [reflexivity|].
  rewrite (H j ltac:(left)), IH; [reflexivity|]. intros; apply H; now right.
Qed.

(** After a successful construction the invariant holds with
    [wait_bound], and the potential is within the budgets of the fleet. *)
Lemma init_establishes (rs : list Robot.t) (pm : gmap Z Platform.t) (B : Z)
  (s : Sim) :
  platforms_bounded B pm ->
  RobotScheduler_init rs pm = Done tt s ->
  times s = 0 /\
  inv (wait_bound B rs) s /\
  potential (wait_bound B rs) s + 1 <= tick_bound B rs.
Proof.
  intros Hplat Hinit. unfold RobotScheduler_init in Hinit.
  destruct (pick rs [0; 2; 1; 3]%nat) as [refs|] eqn:Hpick; [|discriminate].
  apply pick_some in Hpick as ->.
  assert (Hnd : NoDup [0; 2; 1; 3]%nat).
  { repeat (apply NoDup_cons; split;
            [rewrite ?elem_of_cons, elem_of_nil; lia|]).
    apply NoDup_nil_2. }
  pose proof (init_loop_same_outside [0; 2; 1; 3]%nat
                (mkSim rs pm [0; 2; 1; 3]%nat 0)) as (Hrs & _).
  pose proof (init_loop_times [0; 2; 1; 3]%nat
                (mkSim rs pm [0; 2; 1; 3]%nat 0)) as Ht.
  rewrite Hinit in Hrs, Ht. simpl in Hrs, Ht.
  destruct (init_loop_effect _ _ _ Hnd Hinit) as [Hpl Hst]. simpl in Hpl, Hst.
  assert (Hpm : platforms_bounded (Z.max B 45) (platform_map s)).
  { apply Hpl; [lia|]. intros p pl Hp. destruct (Hplat p pl Hp). split; [tauto|lia]. }
  pose proof (wait_bound_pos B rs) as HK.
  assert (Harr : total arrivals (store s) [0; 2; 1; 3]%nat =
                 total legs rs [0; 2; 1; 3]%nat).
  { apply total_ext. intros i Hi.
    destruct (Hst i Hi) as (r & r' & -> & -> & Hs).
    now apply (started_measures 0) in Hs as (_ & -> & _). }
  split; [exact Ht|]. split.
  - split; [lia|]. rewrite Hrs. split; [exact Hnd|]. split.
    + intros i r' Hi Hr'. destruct (Hst i Hi) as (r & r0 & _ & Hr0 & Hs).
      rewrite Hr' in Hr0. injection Hr0 as <-.
      now apply (started_measures 0) in Hs as (Hok & _).
    + rewrite Harr. intros p pl Hp. destruct (Hpm p pl Hp) as [Hs Hl].
      split; [exact Hs|]. unfold wait_bound. lia.
  - unfold potential, tick_bound. rewrite Hrs.
    assert (total (pot (wait_bound B rs)) (store s) [0; 2; 1; 3]%nat <=
            total (budget (wait_bound B rs)) rs [0; 2; 1; 3]%nat); [|lia].
    apply total_le. intros i Hi.
    destruct (Hst i Hi) as (r & r' & -> & -> & Hs).
    now apply (started_measures (wait_bound B rs)) in Hs as (_ & _ & Hle).
Qed.

(** ** Robots the constructor cannot start *)

(** The constructor never completes when one of the four robots has no
    path. *)
Lemma init_never_skips (rs : list Robot.t) (pm : gmap Z Platform.t) (i : nat)
  (r : Robot.t) (s : Sim) :
  i ∈ [0; 2; 1; 3]%nat -> rs !! i = Some r -> Robot.path r = [] ->
  RobotScheduler_init rs pm <> Done tt s.
Proof.
  intros Hi Hr Hp Hinit. unfold RobotScheduler_init in Hinit.
  destruct (pick rs [0; 2; 1; 3]%nat) as [refs|] eqn:Hpick; [|discriminate].
  apply pick_some in Hpick as ->.
  assert (Hnd : NoDup [0; 2; 1; 3]%nat).
  { repeat (apply NoDup_cons; split;
            [rewrite ?elem_of_cons, elem_of_nil; lia|]).
    apply NoDup_nil_2. }
  destruct (init_loop_effect _ _ _ Hnd Hinit) as [_ Hst].
  destruct (Hst i Hi) as (r0 & r' & Hr0 & _ & Hne & _). simpl in Hr0.
  rewrite Hr in Hr0. injection Hr0 as <-. contradiction.
Qed.

(** ** Termination and the number of iterations *)




(** *** Why the platforms must be busy or free *)

Lemma evaluate_limbo (i : nat) (s : Sim) :
  limbo s ->
  exists a s', evaluate i s = Done a s' /\ limbo s' /\ robots s' = robots s /\
    same_paths s s' /\
    (forall r, store s !! i = Some r -> Robot.path r <> [] -> a = true).
Proof.
  intros Hl. unfold evaluate.
  destruct (store s !! i) as [r|] eqn:Hr.
  2:{ exists false, s. split; [reflexivity|]. split; [exact Hl|].
      split; [reflexivity|]. split; [|discriminate].
      intros j rj Hj. now exists rj. }
  destruct (Hl i r Hr) as [Hp | (Hst & Htl & p & rest & pl & Hp & Hpl & H1 & H2)];
    rewrite Hp.
  { exists false, s. split; [reflexivity|]. split; [exact Hl|].
    split; [reflexivity|]. split.
    - intros j rj Hj. now exists rj.
    - intros r0 [= <-] Hne. contradiction. }
  apply Z.ltb_ge in Htl. simpl Robot.time_left. rewrite Htl.
  unfold change_state. simpl Robot.state. rewrite Hst. simpl.
  unfold arrive. simpl platform_map. rewrite Hpl. cbv zeta.
  apply Z.eqb_neq in H1, H2.
  set (pl2 := if decide _ then _ else _).
  assert (Hs2 : Platform.state pl2 = Platform.state pl)
    by (unfold pl2; destruct (decide _); reflexivity).
  rewrite Hs2, H1, H2. eexists _, _. split; [reflexivity|].
  apply Z.eqb_neq in H1, H2. apply Z.ltb_ge in Htl.
  assert (Hkeep : forall r0, stuck s r0 ->
            stuck (set_platform p pl2
                     (set_robot i
                        (Robot.with_time_spend r (Robot.time_spend r + 1)) s))
              (Robot.with_time_spend r0 (Robot.time_spend r0 + 1)) /\
            stuck (set_platform p pl2
                     (set_robot i
                        (Robot.with_time_spend r (Robot.time_spend r + 1)) s))
              r0).
  { intros r0 (Hst0 & Htl0 & p0 & rest0 & pl0 & Hp0 & Hpl0 & H10 & H20).
    assert (Hex : exists pl', <[p := pl2]> (platform_map s) !! p0 = Some pl' /\
                    Platform.state pl' <> 1 /\ Platform.state pl' <> 2).
    { destruct (decide (p = p0)) as [->|Hne].
      - rewrite lookup_insert_eq. exists pl2. rewrite Hs2. now repeat split.
      - rewrite lookup_insert_ne by exact Hne. now exists pl0. }
    destruct Hex as (pl' & Hpl' & H1' & H2').
    split; (split; [exact Hst0|]; split; [exact Htl0|]);
      exists p0, rest0, pl'; now repeat split. }
  split; [|split; [reflexivity | split; [|reflexivity]]].
  - intros j rj Hj. simpl in Hj. destruct (decide (j = i)) as [->|Hne].
    + rewrite list_lookup_insert_eq in Hj by (eapply lookup_lt_Some; exact Hr).
      injection Hj as <-. right. apply Hkeep.
      split; [exact Hst|]. split; [exact Htl|]. now exists p, rest, pl.
    + rewrite list_lookup_insert_ne in Hj by congruence.
      destruct (Hl j rj Hj) as [Hpj | Hsj]; [now left|]. right. now apply Hkeep.
  - intros j rj Hj. simpl. destruct (decide (j = i)) as [->|Hne].
    + rewrite list_lookup_insert_eq by (eapply lookup_lt_Some; exact Hr).
      eexists. split; [reflexivity|]. simpl. congruence.
    + rewrite list_lookup_insert_ne by congruence. now exists rj.
Qed.

Lemma pass_limbo (order : list nat) (flag : bool) (s : Sim) :
  limbo s ->
  exists flag' s', pass order flag s = Done flag' s' /\ limbo s' /\
    robots s' = robots s /\ same_paths s s' /\
    (flag = true -> flag' = true) /\
    (forall i r, i ∈ order -> store s !! i = Some r -> Robot.path r <> [] ->
       flag' = true).
Proof.
  revert flag s. induction order as [|i order IH]; intros flag s Hl; simpl.
  - exists flag, s. split; [reflexivity|]. split; [exact Hl|].
    split; [reflexivity|]. split; [intros j rj Hj; now exists rj|].
    split; [tauto|]. intros i r Hi. now apply not_elem_of_nil in Hi.
  - destruct (evaluate_limbo i s Hl) as (a & s1 & -> & Hl1 & Hrs1 & Hp1 & Ha).
    destruct (IH (flag || a) s1 Hl1)
      as (flag' & s' & Hpass & Hl' & Hrs' & Hp' & Hf & Hact).
    exists flag', s'. split; [exact Hpass|]. split; [exact Hl'|].
    split; [congruence|]. split; [|split].
    + intros j rj Hj. destruct (Hp1 j rj Hj) as (r1 & Hr1 & Hpath1).
      destruct (Hp' j r1 Hr1) as (r' & Hr' & Hpath').
      exists r'. split; [exact Hr' | congruence].
    + intros ->. now apply Hf.
    + intros j r Hj Hr Hp. apply elem_of_cons in Hj as [->|Hj].
      * apply Hf. rewrite (Ha r Hr Hp). apply orb_true_r.
      * destruct (Hp1 j r Hr) as (r1 & Hr1 & Hpath1).
        apply (Hact j r1 Hj Hr1). congruence.
Qed.

(** Once every robot is done or stuck and a referenced one is stuck, no
    amount of fuel lets [run] return: the loop of the program goes on for
    ever. *)
Lemma run_limbo (fuel : nat) (s : Sim) (i : nat) (r : Robot.t) :
  limbo s -> i ∈ robots s -> store s !! i = Some r -> Robot.path r <> [] ->
  run fuel s = None.
Proof.
  revert s r. induction fuel as [|fuel IH]; intros s r Hl Hi Hr Hp;
    [reflexivity|].
  simpl. unfold tick. cbv zeta.
  destruct (pass_limbo (sorted (state_key (set_times (times s + 1) s))
                          (robots (set_times (times s + 1) s)))
              false (set_times (times s + 1) s) Hl)
    as (flag' & s' & -> & Hl' & Hrs' & Hp' & _ & Hact).
  assert (flag' = true) as ->
    by (apply (Hact i r); [apply elem_of_sorted; exact Hi | exact Hr | exact Hp]).
  destruct (Hp' i r Hr) as (r' & Hr' & Hpath').
  apply (IH s' r'); [exact Hl' | rewrite Hrs'; exact Hi | exact Hr' | congruence].
Qed.

Lemma run_diverges_on_odd_platform (fuel : nat) :
  schedule (36 + fuel) escorted_organizer five_platforms_one_odd = None.
Proof.
  unfold schedule.
  destruct (RobotScheduler_init escorted_organizer five_platforms_one_odd)
    as [[] s0 | e s0] eqn:Hinit; [|vm_compute in Hinit; discriminate].
  assert (H36 : exists s36, ticks 36 s0 = Done true s36 /\
            robots s36 = [0; 2; 1; 3]%nat /\
            exists pm,
              s36 = mkSim [ Robot.mk 1 Organizer 5 3 [2] 0 36;
                            Robot.mk 2 Mover 1 3 [] 0 21;
                            Robot.mk 3 Mover 1 3 [] 0 21;
                            Robot.mk 4 Mover 1 3 [] 0 21 ] pm
                      [0; 2; 1; 3]%nat 36 /\
              pm !! 2 = Some (Platform.mk 2 "B" 0 0 [1] [1])).
  { vm_compute in Hinit. injection Hinit as <-.
    eexists. split; [vm_compute; reflexivity|]. split; [reflexivity|].
    eexists. split; [reflexivity|]. vm_compute. reflexivity. }
  destruct H36 as (s36 & Hticks & Hrs & pm & -> & Hpm).
  assert (Hrun : forall n s s', ticks n s = Done true s' ->
                   forall f, run (n + f) s = run f s').
  { induction n as [|n IHn]; intros s s' Ht f; simpl in *.
    - now injection Ht as <-.
    - destruct (tick s) as [[|] s1 | e s1]; try discriminate. now apply IHn. }
  rewrite (Hrun 36%nat s0 _ Hticks fuel).
  apply (run_limbo fuel _ 0%nat (Robot.mk 1 Organizer 5 3 [2] 0 36));
    [|now left|reflexivity|discriminate].
  intros j rj Hj. simpl in Hj.
  destruct j as [|[|[|[|j]]]]; simpl in Hj; try discriminate;
    injection Hj as <-; try (now left).
  right. split; [reflexivity|]. split; [simpl; lia|].
  eexists 2, [], _. split; [reflexivity|]. split; [exact Hpm|]. simpl. lia.
Qed.

(** * Further properties of the scheduler *)

(** ** What never changes *)

Lemma robot_static_refl (st : list Robot.t) : robot_static st st.
Proof.
  split; [reflexivity|]. intros j r Hr. exists r. repeat split; first [done | lia].
Qed.

Lemma robot_static_trans (st st' st'' : list Robot.t) :
  robot_static st st' -> robot_static st' st'' -> robot_static st st''.
Proof.
  intros [Hl H] [Hl' H']. split; [congruence|]. intros j r Hr.
  destruct (H j r Hr) as (r' & Hr' & Hi & Hk & Hv & Hp & Ht).
  destruct (H' j r' Hr') as (r'' & Hr'' & Hi' & Hk' & Hv' & Hp' & Ht').
  exists r''. split; [exact Hr''|]. split; [congruence|]. split; [congruence|].
  split; [congruence|]. split; [now transitivity (Robot.path r') | lia].
Qed.

Lemma platform_static_refl (pm : gmap Z Platform.t) : platform_static pm pm.
Proof.
  intros p. destruct (pm !! p) as [pl|] eqn:Hp; [|reflexivity].
  now exists pl.
Qed.

Lemma platform_static_trans (pm pm' pm'' : gmap Z Platform.t) :
  platform_static pm pm' -> platform_static pm' pm'' -> platform_static pm pm''.
Proof.
  intros H H' p. specialize (H p). specialize (H' p).
  destruct (pm !! p) as [pl|].
  - destruct H as (pl' & Hp' & Hi & Hn & Hv). rewrite Hp' in H'.
    destruct H' as (pl'' & Hp'' & Hi' & Hn' & Hv').
    exists pl''. repeat split; try congruence.
    now transitivity (Platform.visitor pl').
  - now rewrite H in H'.
Qed.

Lemma static_refl (s : Sim) : static s s.
Proof. split; [apply robot_static_refl | apply platform_static_refl]. Qed.

Lemma static_trans (s s' s'' : Sim) : static s s' -> static s' s'' -> static s s''.
Proof.
  intros [Hr Hp] [Hr' Hp']. split.
  - eapply robot_static_trans; eassumption.
  - eapply platform_static_trans; eassumption.
Qed.

(** Replacing one robot by a robot with the same id, kind and velocity, an
    end of its path and no less time spent. *)
Lemma robot_static_insert (st : list Robot.t) (i : nat) (r r' : Robot.t) :
  st !! i = Some r ->
  Robot.robot_id r' = Robot.robot_id r -> Robot.kind r' = Robot.kind r ->
  Robot.velocity r' = Robot.velocity r ->
  Robot.path r' `suffix_of` Robot.path r ->
  Robot.time_spend r <= Robot.time_spend r' ->
  robot_static st (<[i := r']> st).
Proof.
  intros Hr Hi Hk Hv Hp Ht. split; [apply length_insert|].
  intros j rj Hj. destruct (decide (j = i)) as [->|Hne].
  - rewrite list_lookup_insert_eq by (eapply lookup_lt_Some; exact Hr).
    rewrite Hr in Hj. injection Hj as <-. now exists r'.
  - rewrite list_lookup_insert_ne by congruence. exists rj.
    repeat split; first [done | lia].
Qed.

Lemma platform_static_insert (pm : gmap Z Platform.t) (p : Z)
  (pl pl' : Platform.t) :
  pm !! p = Some pl ->
  Platform.platform_id pl' = Platform.platform_id pl ->
  Platform.node_type pl' = Platform.node_type pl ->
  Platform.visitor pl `prefix_of` Platform.visitor pl' ->
  platform_static pm (<[p := pl']> pm).
Proof.
  intros Hp Hi Hn Hv q. destruct (decide (p = q)) as [<-|Hne].
  - rewrite Hp, lookup_insert_eq. now exists pl'.
  - rewrite lookup_insert_ne by exact Hne.
    destruct (pm !! q) as [plq|] eqn:Hq; [now exists plq | reflexivity].
Qed.

Ltac static_robot :=
  first
    [ apply robot_static_refl
    | eapply robot_static_insert;
      [ eassumption | reflexivity | reflexivity | reflexivity
      | simpl;
        first
          [ reflexivity
          | match goal with
            | H : Robot.path _ = _ :: _ |- _ =>
                rewrite H; apply suffix_cons_r; reflexivity
            end ]
      | simpl; lia ] ].

Ltac static_platform :=
  first
    [ apply platform_static_refl
    | eapply platform_static_insert;
      [ eassumption | reflexivity | reflexivity
      | simpl; first [ reflexivity | now apply prefix_app_r ] ] ].

Lemma evaluate_static (i : nat) (s : Sim) : static s (final (evaluate i s)).
Proof.
  step_cases; unfold static; simpl; rewrite ?list_insert_insert_eq;
    (split; [static_robot | static_platform]).
Qed.

Lemma init_robot_static (i : nat) (s : Sim) : static s (final (init_robot i s)).
Proof.
  step_cases; unfold static; simpl; rewrite ?list_insert_insert_eq;
    (split; [static_robot | static_platform]).
Qed.

Lemma pass_static (order : list nat) (flag : bool) (s : Sim) :
  static s (final (pass order flag s)).
Proof.
  revert flag s. induction order as [|i order IH]; intros flag s; simpl.
  - apply static_refl.
  - pose proof (evaluate_static i s) as Hi.
    destruct (evaluate i s) as [a s' | e s']; simpl in *; [|exact Hi].
    eapply static_trans; [exact Hi | apply IH].
Qed.

Lemma init_loop_static (refs : list nat) (s : Sim) :
  static s (final (init_loop refs s)).
Proof.
  revert s. induction refs as [|i refs IH]; intros s; simpl.
  - apply static_refl.
  - pose proof (init_robot_static i s) as Hi.
    destruct (init_robot i s) as [a s' | e s']; simpl in *; [|exact Hi].
    eapply static_trans; [exact Hi | apply IH].
Qed.

Lemma tick_static (s : Sim) : static s (final (tick s)).
Proof.
  unfold tick. cbv zeta.
  exact (pass_static _ false (set_times (times s + 1) s)).
Qed.

Lemma ticks_static (n : nat) (s : Sim) : static s (final (ticks n s)).
Proof.
  revert s. induction n as [|n IH]; intros s; simpl; [apply static_refl|].
  pose proof (tick_static s) as Ht.
  destruct (tick s) as [[|] s' | e s']; simpl in *; try exact Ht.
  eapply static_trans; [exact Ht | apply IH].
Qed.

Lemma run_static (fuel : nat) (s : Sim) (o : outcome unit) :
  run fuel s = Some o -> static s (final o).
Proof.
  revert s. induction fuel as [|fuel IH]; intros s; simpl; [discriminate|].
  pose proof (tick_static s) as Ht.
  destruct (tick s) as [[|] s' | e s']; simpl in Ht.
  - intros Hrun. eapply static_trans; [exact Ht | now apply IH].
  - now intros [= <-].
  - now intros [= <-].
Qed.

Lemma init_static (rs : list Robot.t) (pm : gmap Z Platform.t) :
  robot_static rs (store (final (RobotScheduler_init rs pm))) /\
  platform_static pm (platform_map (final (RobotScheduler_init rs pm))).
Proof.
  unfold RobotScheduler_init. destruct (pick rs [0; 2; 1; 3]%nat) as [refs|].
  - exact (init_loop_static refs (mkSim rs pm refs 0)).
  - simpl. split; [apply robot_static_refl | apply platform_static_refl].
Qed.

(** X4: whatever the constructor, any number of ticks and the whole run do,
    the store holds the same robots, each with the id, kind and velocity it
    was given; its path is an end of the path it was given (platforms are
    only ever taken from the front) and its [time_spend] has not gone
    down.  This holds also for the state an exception leaves. *)
Theorem robots_keep_identity (rs : list Robot.t) (pm : gmap Z Platform.t) :
  robot_static rs (store (final (RobotScheduler_init rs pm))) /\
  (forall n s, RobotScheduler_init rs pm = Done tt s ->
     robot_static rs (store (final (ticks n s)))) /\
  (forall fuel o, schedule fuel rs pm = Some o ->
     robot_static rs (store (final o))).
Proof.
  pose proof (init_static rs pm) as [Hinit _].
  split; [exact Hinit|]. split.
  - intros n s Hs. rewrite Hs in Hinit. simpl in Hinit.
    eapply robot_static_trans; [exact Hinit | apply ticks_static].
  - intros fuel o Hrun. unfold schedule in Hrun.
    destruct (RobotScheduler_init rs pm) as [[] s | e s]; simpl in Hinit.
    + eapply robot_static_trans; [exact Hinit|].
      now apply (run_static fuel s o).
    + now injection Hrun as <-.
Qed.

(** X5: the platform map keeps its keys: no platform is added or removed by
    the constructor, by ticks or by the run; each platform keeps its id and
    node type, and its visitor log is only ever extended at the end.  This
    holds also for the state an exception leaves. *)
Theorem platforms_keep_identity (rs : list Robot.t) (pm : gmap Z Platform.t) :
  platform_static pm (platform_map (final (RobotScheduler_init rs pm))) /\
  (forall n s, RobotScheduler_init rs pm = Done tt s ->
     platform_static pm (platform_map (final (ticks n s)))) /\
  (forall fuel o, schedule fuel rs pm = Some o ->
     platform_static pm (platform_map (final o))).
Proof.
  pose proof (init_static rs pm) as [_ Hinit].
  split; [exact Hinit|]. split.
  - intros n s Hs. rewrite Hs in Hinit. simpl in Hinit.
    eapply platform_static_trans; [exact Hinit | apply ticks_static].
  - intros fuel o Hrun. unfold schedule in Hrun.
    destruct (RobotScheduler_init rs pm) as [[] s | e s]; simpl in Hinit.
    + eapply platform_static_trans; [exact Hinit|].
      now apply (run_static fuel s o).
    + now injection Hrun as <-.
Qed.

(** ** Time spent *)

Lemma evaluate_time_spend (i : nat) (s s' : Sim) (a : bool) (r : Robot.t) :
  evaluate i s = Done a s' -> store s !! i = Some r ->
  exists r', store s' !! i = Some r' /\
    Robot.time_spend r' = Robot.time_spend r + active r /\
    (a = true <-> Robot.path r <> []).
Proof.
  intros H Hr. unfold active.
  assert (Hlt : (i < length (store s))%nat) by (eapply lookup_lt_Some; exact Hr).
  unfold evaluate in H. rewrite Hr in H.
  destruct (Robot.path r) as [|p rest] eqn:Hp.
  - injection H as <- <-. exists r. split; [exact Hr|]. split; [lia|].
    split; [discriminate | congruence].
  - step_cases; try discriminate; simplify_eq; simpl;
      rewrite ?list_insert_insert_eq, list_lookup_insert_eq by exact Hlt;
      (eexists; split; [reflexivity|]; simpl; split; [lia|];
       split; [discriminate | reflexivity]).
Qed.

Lemma insert_by_NoDup (key : nat -> Z) (x : nat) (l : list nat) :
  x ∉ l -> NoDup l -> NoDup (insert_by key x l).
Proof.
  induction l as [|y l IH]; intros Hx Hnd; simpl.
  - apply NoDup_singleton.
  - destruct (key x <=? key y); [now apply NoDup_cons|].
    apply not_elem_of_cons in Hx as [Hne Hx].
    apply NoDup_cons in Hnd as [Hy Hnd]. apply NoDup_cons. split.
    + rewrite elem_of_insert_by. intros [->|Hin]; [congruence | contradiction].
    + now apply IH.
Qed.

Lemma sorted_NoDup (key : nat -> Z) (l : list nat) : NoDup l -> NoDup (sorted key l).
Proof.
  induction 1 as [|x l Hx Hnd IH]; [apply NoDup_nil_2|].
  unfold sorted in *. simpl. apply insert_by_NoDup; [|exact IH].
  now rewrite (elem_of_sorted key x l).
Qed.

Lemma pass_time_spend (order : list nat) (flag flag' : bool) (s s' : Sim) :
  NoDup order -> pass order flag s = Done flag' s' ->
  forall i r, store s !! i = Some r ->
    exists r', store s' !! i = Some r' /\
      Robot.time_spend r' =
        Robot.time_spend r + (if decide (i ∈ order) then active r else 0).
Proof.
  revert flag s. induction order as [|j order IH]; intros flag s Hnd; simpl.
  - intros [= <- <-] i r Hr. exists r. split; [exact Hr|].
    destruct (decide (i ∈ [])) as [Hin|_]; [now apply not_elem_of_nil in Hin | lia].
  - apply NoDup_cons in Hnd as [Hj Hnd].
    destruct (evaluate j s) as [a s1 | e s1] eqn:He; [|discriminate].
    intros Hpass i r Hr.
    destruct (decide (i = j)) as [->|Hne].
    + destruct (evaluate_time_spend j s s1 a r He Hr) as (r1 & Hr1 & Ht1 & _).
      destruct (IH _ _ Hnd Hpass j r1 Hr1) as (r' & Hr' & Ht').
      exists r'. split; [exact Hr'|].
      destruct (decide (j ∈ order)) as [Hin|_]; [contradiction|].
      destruct (decide (j ∈ j :: order)) as [_|Hout]; [lia|].
      exfalso. apply Hout. now left.
    + pose proof (evaluate_same_but j s) as (_ & _ & _ & Hother).
      rewrite He in Hother. simpl in Hother.
      rewrite <- (Hother i Hne) in Hr.
      destruct (IH _ _ Hnd Hpass i r Hr) as (r' & Hr' & Ht').
      exists r'. split; [exact Hr'|]. rewrite Ht'.
      destruct (decide (i ∈ order)) as [Hin|Hout];
        destruct (decide (i ∈ j :: order)) as [Hin'|Hout']; try lia.
      * exfalso. apply Hout'. now right.
      * apply elem_of_cons in Hin' as [->|Hin']; [congruence | contradiction].
Qed.

(** A referenced robot in a tick that completes. *)
Lemma tick_adds_active (s s' : Sim) (a : bool) (i : nat) (r : Robot.t) :
  NoDup (robots s) -> tick s = Done a s' -> i ∈ robots s ->
  store s !! i = Some r ->
  exists r', store s' !! i = Some r' /\
    Robot.time_spend r' = Robot.time_spend r + active r.
Proof.
  intros Hnd Htick Hi Hr.
  unfold tick in Htick. cbv zeta in Htick.
  destruct (pass_time_spend _ _ _ _ _
              (sorted_NoDup (state_key (set_times (times s + 1) s)) _ Hnd)
              Htick i r Hr) as (r' & Hr' & Ht').
  exists r'. split; [exact Hr'|]. rewrite Ht'.
  rewrite decide_True; [reflexivity|]. now apply elem_of_sorted.
Qed.

(** X3: a tick that completes adds exactly 1 to the [time_spend] of every
    referenced robot that has a platform in front of its path when the tick
    starts, and nothing to the [time_spend] of any other robot. *)
Theorem tick_time_spend (s s' : Sim) (a : bool) (i : nat) (r : Robot.t)
  (Hnd : NoDup (robots s))
  (Htick : tick s = Done a s')
  (Hr : store s !! i = Some r) :
  exists r', store s' !! i = Some r' /\
    Robot.time_spend r' =
      Robot.time_spend r + (if decide (i ∈ robots s) then active r else 0).
Proof.
  unfold tick in Htick. cbv zeta in Htick.
  destruct (pass_time_spend _ _ _ _ _
              (sorted_NoDup (state_key (set_times (times s + 1) s)) _ Hnd)
              Htick i r Hr) as (r' & Hr' & Ht').
  exists r'. split; [exact Hr'|]. rewrite Ht'. simpl robots.
  destruct (decide (i ∈ sorted (state_key (set_times (times s + 1) s)) (robots s)))
    as [Hin|Hout]; destruct (decide (i ∈ robots s)) as [Hin'|Hout'];
    try reflexivity.
  - apply elem_of_sorted in Hin. contradiction.
  - exfalso. apply Hout. now apply elem_of_sorted.
Qed.

Lemma tick_time_spend_witness :
  exists r', store (final (tick handoff)) !! 1%nat = Some r' /\
    Robot.time_spend r' = 30 + 1.
Proof.
  refine (tick_time_spend handoff (final (tick handoff)) true 1
            (Robot.mk 22 Organizer 2 1 [1; 2] 0 30) _ _ eq_refl).
  - repeat (apply NoDup_cons; split;
            [rewrite ?elem_of_cons, elem_of_nil; lia|]).
    apply NoDup_nil_2.
  - vm_compute. reflexivity.
Defined.

Lemma robot_static_back (st st' : list Robot.t) (j : nat) (r' : Robot.t) :
  robot_static st st' -> st' !! j = Some r' ->
  exists r, st !! j = Some r /\ Robot.path r' `suffix_of` Robot.path r /\
    Robot.time_spend r <= Robot.time_spend r'.
Proof.
  intros [Hl H] Hr'.
  assert (Hlt : (j < length st)%nat)
    by (rewrite <- Hl; eapply lookup_lt_Some; exact Hr').
  apply lookup_lt_is_Some in Hlt as [r Hr]. exists r. split; [exact Hr|].
  destruct (H j r Hr) as (r0 & Hr0 & _ & _ & _ & Hp & Ht).
  rewrite Hr' in Hr0. injection Hr0 as <-. now split.
Qed.

Lemma suffix_of_nil_inv (l : list Z) : l `suffix_of` [] -> l = [].
Proof. intros H. now apply suffix_nil_inv in H. Qed.

(** A pass that sets [flag] has met a robot with a platform in front of its
    path. *)
Lemma pass_active (order : list nat) (flag' : bool) (s s' : Sim) :
  pass order false s = Done flag' s' -> flag' = true ->
  exists i r, i ∈ order /\ store s !! i = Some r /\ Robot.path r <> [].
Proof.
  revert s. induction order as [|j order IH]; intros s; simpl.
  - intros [= <- _]. discriminate.
  - destruct (evaluate j s) as [[|] s1 | e s1] eqn:He; try discriminate.
    + intros _ _. unfold evaluate in He.
      destruct (store s !! j) as [r|] eqn:Hr; [|discriminate].
      exists j, r. split; [now left|]. split; [exact Hr|].
      intros Hp. rewrite Hp in He. discriminate.
    + apply evaluate_idle in He as [-> _]. intros Hpass Hf.
      destruct (IH s Hpass Hf) as (i & r & Hi & Hr & Hp).
      exists i, r. split; [now right | now split].
Qed.

Lemma tick_active (s s' : Sim) :
  tick s = Done true s' ->
  exists i r, i ∈ robots s /\ store s !! i = Some r /\ Robot.path r <> [].
Proof.
  unfold tick. cbv zeta. intros H.
  destruct (pass_active _ _ _ _ H eq_refl) as (i & r & Hi & Hr & Hp).
  exists i, r. split; [now apply elem_of_sorted in Hi | now split].
Qed.

Lemma tick_robots (s : Sim) : robots (final (tick s)) = robots s.
Proof. now destruct (tick_same_outside s) as (H & _). Qed.

Lemma active_cases (r : Robot.t) :
  (Robot.path r = [] /\ active r = 0) \/ (Robot.path r <> [] /\ active r = 1).
Proof. unfold active. destruct (Robot.path r); [now left | now right]. Qed.

(** From a state to the end of a run that completes: every referenced robot
    has spent at most one tick per iteration but the last, at least one if
    it had a platform in front of its path, none if it had completed its
    path; and a robot that was active in every iteration but the last
    exists when one was active at all. *)
Lemma run_time_spend (fuel : nat) (s s' : Sim) :
  NoDup (robots s) -> run fuel s = Some (Done tt s') ->
  (forall i r, i ∈ robots s -> store s !! i = Some r ->
     exists r', store s' !! i = Some r' /\
       Robot.time_spend r + active r <= Robot.time_spend r' /\
       Robot.time_spend r' <= Robot.time_spend r + (times s' - times s - 1) /\
       (Robot.path r = [] -> Robot.time_spend r' = Robot.time_spend r)) /\
  ((exists i r, i ∈ robots s /\ store s !! i = Some r /\ Robot.path r <> []) ->
   exists i r r', i ∈ robots s /\ store s !! i = Some r /\ Robot.path r <> [] /\
     store s' !! i = Some r' /\
     Robot.time_spend r' = Robot.time_spend r + (times s' - times s - 1)).
Proof.
  revert s. induction fuel as [|fuel IH]; intros s Hnd; simpl; [discriminate|].
  pose proof (tick_times s) as Ht. pose proof (tick_robots s) as Hrs.
  pose proof (tick_static s) as [Hst _].
  destruct (tick s) as [[|] s1 | e s1] eqn:Htick; simpl in Ht, Hrs, Hst;
    [| |discriminate].
  - intros Hrun.
    assert (Hnd1 : NoDup (robots s1)) by now rewrite Hrs.
    destruct (IH s1 Hnd1 Hrun) as [IH1 IH2].
    assert (Hstep : forall i r, i ∈ robots s -> store s !! i = Some r ->
              exists r1, store s1 !! i = Some r1 /\
                Robot.time_spend r1 = Robot.time_spend r + active r /\
                Robot.path r1 `suffix_of` Robot.path r).
    { intros i r Hi Hr.
      destruct (tick_adds_active s s1 true i r Hnd Htick Hi Hr)
        as (r1 & Hr1 & Ht1).
      exists r1. split; [exact Hr1|]. split; [exact Ht1|].
      destruct (proj2 Hst i r Hr) as (r0 & Hr0 & _ & _ & _ & Hp & _).
      rewrite Hr1 in Hr0. now injection Hr0 as <-. }
    split.
    + intros i r Hi Hr. destruct (Hstep i r Hi Hr) as (r1 & Hr1 & Ht1 & Hp1).
      destruct (IH1 i r1 ltac:(now rewrite Hrs) Hr1) as (r' & Hr' & Hlo & Hhi & Hz).
      exists r'. split; [exact Hr'|].
      pose proof (active_cases r) as Hr_act.
      pose proof (active_cases r1) as Hr1_act.
      split; [lia|]. split; [lia|].
      intros Hp. rewrite Hp in Hp1. apply suffix_of_nil_inv in Hp1.
      rewrite (Hz Hp1). destruct Hr_act as [[_ Ha]|[Hne _]]; [lia | contradiction].
    + intros (j & rj & Hj & Hrj & Hpj).
      destruct fuel as [|fuel']; [discriminate|]. simpl in Hrun.
      pose proof (tick_times s1) as Ht1.
      destruct (tick s1) as [[|] s2 | e s2] eqn:Htick1; simpl in Ht1;
        [| |discriminate].
      * destruct (tick_active s1 s2 Htick1) as (k & rk & Hk & Hrk & Hpk).
        destruct IH2 as (i & r1 & r' & Hi & Hr1 & Hp1 & Hr' & Heq);
          [now exists k, rk|].
        destruct (robot_static_back _ _ i r1 Hst Hr1) as (r & Hr & Hsuf & _).
        assert (Hp : Robot.path r <> []).
        { intros Hp. rewrite Hp in Hsuf. now apply suffix_of_nil_inv in Hsuf. }
        rewrite Hrs in Hi.
        destruct (Hstep i r Hi Hr) as (r1' & Hr1' & Ht1' & _).
        rewrite Hr1 in Hr1'. injection Hr1' as <-.
        exists i, r, r'. repeat split; try assumption.
        destruct (active_cases r) as [[Hp0 _]|[_ Ha]]; [contradiction | lia].
      * injection Hrun as <-.
        destruct (Hstep j rj Hj Hrj) as (r1 & Hr1 & Ht1' & Hp1).
        destruct (tick_exit s1 false s2 Htick1) as [Hdone Hs2].
        rewrite (Hs2 eq_refl). simpl.
        exists j, rj, r1. repeat split; try assumption.
        destruct (active_cases rj) as [[Hp0 _]|[_ Ha]]; [contradiction | lia].
  - intros [= <-]. destruct (tick_exit s false s1 Htick) as [Hdone Hs1].
    rewrite (Hs1 eq_refl). simpl. split.
    + intros i r Hi Hr. exists r. split; [exact Hr|].
      pose proof (proj1 Hdone eq_refl i r Hi Hr) as Hp.
      destruct (active_cases r) as [[_ Ha]|[Hne _]]; [|contradiction].
      repeat split; lia.
    + intros (j & rj & Hj & Hrj & Hpj).
      now pose proof (proj1 Hdone eq_refl j rj Hj Hrj).
Qed.

Lemma NoDup_reorder : NoDup [0; 2; 1; 3]%nat.
Proof.
  repeat (apply NoDup_cons; split; [rewrite ?elem_of_cons, elem_of_nil; lia|]).
  apply NoDup_nil_2.
Qed.

(** What a completed construction has set up. *)
Lemma init_done (rs : list Robot.t) (pm : gmap Z Platform.t) (s : Sim) :
  RobotScheduler_init rs pm = Done tt s ->
  robots s = [0; 2; 1; 3]%nat /\ times s = 0 /\
  forall i, i ∈ [0; 2; 1; 3]%nat ->
    exists r r', rs !! i = Some r /\ store s !! i = Some r' /\ started r r'.
Proof.
  intros Hinit. unfold RobotScheduler_init in Hinit.
  destruct (pick rs [0; 2; 1; 3]%nat) as [refs|] eqn:Hpick; [|discriminate].
  apply pick_some in Hpick as ->.
  pose proof (init_loop_same_outside [0; 2; 1; 3]%nat
                (mkSim rs pm [0; 2; 1; 3]%nat 0)) as (Hrs & _).
  pose proof (init_loop_times [0; 2; 1; 3]%nat
                (mkSim rs pm [0; 2; 1; 3]%nat 0)) as Ht.
  rewrite Hinit in Hrs, Ht. simpl in Hrs, Ht.
  destruct (init_loop_effect _ _ _ NoDup_reorder Hinit) as [_ Hst].
  split; [exact Hrs|]. split; [exact Ht | exact Hst].
Qed.

(** X9: when the program completes, the tick counter is one more than the
    largest time a scheduled robot has spent in the run: every scheduled
    robot has spent at least 1 and at most [times - 1] ticks, and one of
    them exactly [times - 1]. *)
Theorem ticks_count_the_longest_robot (rs : list Robot.t)
  (pm : gmap Z Platform.t) (fuel : nat) (s : Sim)
  (Hrun : schedule fuel rs pm = Some (Done tt s)) :
  (forall i, i ∈ [0; 2; 1; 3]%nat ->
     exists r r', rs !! i = Some r /\ store s !! i = Some r' /\
       Robot.time_spend r + 1 <= Robot.time_spend r' /\
       Robot.time_spend r' <= Robot.time_spend r + (times s - 1)) /\
  (exists i r r', i ∈ [0; 2; 1; 3]%nat /\
     rs !! i = Some r /\ store s !! i = Some r' /\
     Robot.time_spend r' = Robot.time_spend r + (times s - 1)).
Proof.
  unfold schedule in Hrun.
  destruct (RobotScheduler_init rs pm) as [[] s0 | e s0] eqn:Hinit;
    [|discriminate].
  destruct (init_done rs pm s0 Hinit) as (Hrefs & Ht0 & Hst).
  assert (Hnd : NoDup (robots s0)) by (rewrite Hrefs; exact NoDup_reorder).
  destruct (run_time_spend fuel s0 s Hnd Hrun) as [H1 H2].
  rewrite Hrefs in H1, H2. rewrite Ht0 in H1, H2.
  assert (Hinit_ts : forall r r0, started r r0 ->
            Robot.time_spend r0 = Robot.time_spend r /\ active r0 = 1).
  { intros r r0 (Hp & d & _ & ->). unfold active. simpl.
    destruct (Robot.path r); [contradiction | now split]. }
  split.
  - intros i Hi. destruct (Hst i Hi) as (r & r0 & Hr & Hr0 & Hs).
    destruct (H1 i r0 Hi Hr0) as (r' & Hr' & Hlo & Hhi & _).
    destruct (Hinit_ts r r0 Hs) as [Hts Hact].
    exists r, r'. repeat split; try assumption; lia.
  - destruct (Hst 0%nat ltac:(left)) as (r & r0 & Hr & Hr0 & Hs).
    destruct H2 as (i & ri0 & r' & Hi & Hri0 & _ & Hr' & Heq).
    { exists 0%nat, r0. split; [now left|]. split; [exact Hr0|].
      destruct (Hinit_ts r r0 Hs) as [_ Hact]. unfold active in Hact.
      intros Hp. rewrite Hp in Hact. discriminate. }
    destruct (Hst i Hi) as (ri & ri0' & Hri & Hri0' & Hsi).
    rewrite Hri0 in Hri0'. injection Hri0' as <-.
    destruct (Hinit_ts ri ri0 Hsi) as [Hts _].
    exists i, ri, r'. repeat split; try assumption. lia.
Qed.

Lemma ticks_count_the_longest_robot_witness :
  exists i r r', i ∈ [0; 2; 1; 3]%nat /\
    escorted_organizer !! i = Some r /\
    store (ended (schedule 82 escorted_organizer five_platforms)) !! i = Some r' /\
    Robot.time_spend r' =
      Robot.time_spend r +
      (times (ended (schedule 82 escorted_organizer five_platforms)) - 1).
Proof.
  refine (proj2 (ticks_count_the_longest_robot escorted_organizer five_platforms
                   82 (ended (schedule 82 escorted_organizer five_platforms)) _)).
  vm_compute. reflexivity.
Defined.

(** ** What the constructor needs and sets up *)

Lemma action_inr_iff (k : Kind) (nt : string) :
  (exists d, action k nt = inr d) <-> nt = "A"%string \/ nt = "B"%string.
Proof.
  split.
  - intros [d Hd].
    destruct (String.eqb_spec nt "A") as [->|HA]; [now left|].
    destruct (String.eqb_spec nt "B") as [->|HB]; [now right|].
    apply String.eqb_neq in HA, HB.
    destruct k; simpl in Hd; rewrite HA, HB in Hd; discriminate.
  - intros [-> | ->]; destruct k; simpl; eauto.
Qed.

(** The one way [init_robot] completes, and the state it leaves then. *)
Lemma init_robot_done (i : nat) (s s' : Sim) :
  init_robot i s = Done tt s' <->
  exists r p rest pl d,
    store s !! i = Some r /\ Robot.path r = p :: rest /\
    platform_map s !! p = Some pl /\
    action (Robot.kind r) (Platform.node_type pl) = inr d /\
    s' = mkSim
           (<[i := Robot.mk (Robot.robot_id r) (Robot.kind r) (Robot.velocity r) 1
                     (p :: rest) d (Robot.time_spend r)]> (store s))
           (<[p := Platform.mk (Platform.platform_id pl) (Platform.node_type pl)
                     1 d (Platform.cur_visitor pl ++ [Robot.robot_id r])
                     (Platform.visitor pl ++ [Robot.robot_id r])]> (platform_map s))
           (robots s) (times s).
Proof.
  split.
  - intros H. step_cases; try discriminate; simplify_eq.
    eexists _, _, _, _, _. split; [reflexivity|].
    repeat (split; [eassumption|]).
    unfold set_platform, set_robot, Robot.with_time_left, Robot.with_state.
    simpl. congruence.
  - intros (r & p & rest & pl & d & Hr & Hp & Hpl & Hd & ->).
    unfold init_robot. rewrite Hr, Hp, Hpl, Hd.
    unfold set_platform, set_robot, Robot.with_time_left, Robot.with_state.
    simpl. now rewrite Hp.
Qed.

Lemma init_robot_completes_iff (i : nat) (s : Sim) :
  (exists s', init_robot i s = Done tt s') <-> ready (store s) (platform_map s) i.
Proof.
  split.
  - intros [s' H]. apply init_robot_done in H
      as (r & p & rest & pl & d & Hr & Hp & Hpl & Hd & _).
    exists r, p, rest, pl. repeat split; try assumption.
    apply (action_inr_iff (Robot.kind r)). now exists d.
  - intros (r & p & rest & pl & Hr & Hp & Hpl & Hnt).
    apply (action_inr_iff (Robot.kind r)) in Hnt as [d Hd].
    eexists. apply init_robot_done. now exists r, p, rest, pl, d.
Qed.

(** Putting one robot to work does not change which robots are [ready]. *)
Lemma init_robot_ready (i j : nat) (s s' : Sim) :
  init_robot i s = Done tt s' ->
  ready (store s') (platform_map s') j <-> ready (store s) (platform_map s) j.
Proof.
  intros H. pose proof (init_robot_static i s) as [_ Hpm].
  rewrite H in Hpm. simpl in Hpm.
  apply init_robot_done in H as (r & p & rest & pl & d & Hr & Hp & Hpl & Hd & ->).
  simpl in *.
  assert (Hlt : (i < length (store s))%nat) by (eapply lookup_lt_Some; exact Hr).
  split.
  - intros (rj & q & restj & plq & Hrj & Hq & Hplq & Hnt).
    specialize (Hpm q). rewrite Hplq in Hpm.
    destruct (platform_map s !! q) as [pl0|] eqn:Hpl0; [|discriminate].
    destruct Hpm as (pl1 & [= <-] & _ & Hn & _).
    destruct (decide (j = i)) as [->|Hne].
    + rewrite list_lookup_insert_eq in Hrj by exact Hlt. injection Hrj as <-.
      simpl in Hq. exists r, q, restj, pl0.
      repeat split; first [congruence | now rewrite <- Hn].
    + rewrite list_lookup_insert_ne in Hrj by congruence.
      exists rj, q, restj, pl0. repeat split; first [assumption | now rewrite <- Hn].
  - intros (rj & q & restj & plq & Hrj & Hq & Hplq & Hnt).
    specialize (Hpm q). rewrite Hplq in Hpm.
    destruct Hpm as (pl1 & Hpl1 & _ & Hn & _).
    destruct (decide (j = i)) as [->|Hne].
    + rewrite Hr in Hrj. injection Hrj as <-.
      eexists _, q, restj, pl1. rewrite list_lookup_insert_eq by exact Hlt.
      repeat split; first [assumption | simpl; congruence | now rewrite Hn].
    + exists rj, q, restj, pl1. rewrite list_lookup_insert_ne by congruence.
      repeat split; first [assumption | now rewrite Hn].
Qed.

Lemma init_loop_completes_iff (refs : list nat) (s : Sim) :
  (exists s', init_loop refs s = Done tt s') <->
  forall i, i ∈ refs -> ready (store s) (platform_map s) i.
Proof.
  revert s. induction refs as [|i refs IH]; intros s; simpl.
  - split; [|now exists s]. intros _ i Hi. now apply not_elem_of_nil in Hi.
  - split.
    + intros [s' H].
      destruct (init_robot i s) as [[] s1 | e s1] eqn:Hi; [|discriminate].
      intros j Hj. apply elem_of_cons in Hj as [->|Hj].
      * apply init_robot_completes_iff. now exists s1.
      * apply (init_robot_ready i j s s1 Hi).
        apply (proj1 (IH s1)); [now exists s' | exact Hj].
    + intros Hall.
      destruct (proj2 (init_robot_completes_iff i s) (Hall i ltac:(left)))
        as [s1 Hi].
      rewrite Hi. apply IH. intros j Hj.
      apply (init_robot_ready i j s s1 Hi). apply Hall. now right.
Qed.

Lemma pick_all (rs : list Robot.t) (idx : list nat) :
  (forall i, i ∈ idx -> is_Some (rs !! i)) -> pick rs idx = Some idx.
Proof.
  induction idx as [|i idx IH]; intros H; simpl; [reflexivity|].
  destruct (H i ltac:(left)) as [r ->].
  rewrite IH; [reflexivity|]. intros j Hj. apply H. now right.
Qed.

(** X1: the constructor completes exactly when each of the robots at
    positions 0, 2, 1 and 3 exists (so there are at least four), has a
    platform in front of its path, and that platform is in the map with node
    type ['A'] or ['B']; otherwise it raises.  Nothing else is asked of the
    input: later platforms of a path and robots past the fourth are not
    looked at. *)
Theorem init_completes_iff (rs : list Robot.t) (pm : gmap Z Platform.t) :
  (exists s, RobotScheduler_init rs pm = Done tt s) <->
  forall i, i ∈ [0; 2; 1; 3]%nat -> ready rs pm i.
Proof.
  unfold RobotScheduler_init. split.
  - intros [s H].
    destruct (pick rs [0; 2; 1; 3]%nat) as [refs|] eqn:Hpick; [|discriminate].
    apply pick_some in Hpick as ->.
    apply (proj1 (init_loop_completes_iff _ (mkSim rs pm [0; 2; 1; 3]%nat 0))).
    now exists s.
  - intros Hall. rewrite pick_all.
    + now apply (init_loop_completes_iff _ (mkSim rs pm [0; 2; 1; 3]%nat 0)).
    + intros i Hi. destruct (Hall i Hi) as (r & _ & _ & _ & Hr & _). now exists r.
Qed.

Lemma starters_insert_out (st : list Robot.t) (refs : list nat) (p : Z)
  (i : nat) (x : Robot.t) :
  i ∉ refs -> starters (<[i := x]> st) refs p = starters st refs p.
Proof.
  induction refs as [|j refs IH]; intros Hi; [reflexivity|].
  apply not_elem_of_cons in Hi as [Hne Hi]. simpl.
  rewrite list_lookup_insert_ne by congruence. now rewrite IH.
Qed.

Lemma starters_cons (st : list Robot.t) (refs : list nat) (p : Z) (i : nat)
  (r : Robot.t) :
  st !! i = Some r ->
  starters st (i :: refs) p =
    (if decide (head (Robot.path r) = Some p) then [r] else []) ++
    starters st refs p.
Proof.
  intros Hr. simpl. rewrite Hr.
  now destruct (decide (head (Robot.path r) = Some p)).
Qed.

(** The platforms after the initialisation loop over [refs]: each has
    queued and logged, after what it held, the ids of the robots that start
    on it, in the order of [refs]; a platform on which nobody starts is as
    before, the others are busy with the duration of the last robot that
    starts there. *)
Lemma init_loop_platforms (refs : list nat) (s s' : Sim) :
  NoDup refs -> init_loop refs s = Done tt s' ->
  forall p pl, platform_map s !! p = Some pl ->
    exists pl', platform_map s' !! p = Some pl' /\
      Platform.node_type pl' = Platform.node_type pl /\
      Platform.cur_visitor pl' =
        Platform.cur_visitor pl ++ (Robot.robot_id <$> starters (store s) refs p) /\
      Platform.visitor pl' =
        Platform.visitor pl ++ (Robot.robot_id <$> starters (store s) refs p) /\
      match last (starters (store s) refs p) with
      | Some r =>
          Platform.state pl' = 1 /\
          action (Robot.kind r) (Platform.node_type pl) =
            inr (Platform.time_left pl')
      | None =>
          Platform.state pl' = Platform.state pl /\
          Platform.time_left pl' = Platform.time_left pl
      end.
Proof.
  revert s. induction refs as [|i refs IH]; intros s Hnd; cbn [init_loop].
  - intros [= <-] p pl Hp. exists pl. simpl. rewrite !app_nil_r.
    now repeat split.
  - apply NoDup_cons in Hnd as [Hi Hnd].
    destruct (init_robot i s) as [[] s1 | e s1] eqn:Hinit; [|discriminate].
    intros Hloop p pl Hp.
    apply init_robot_done in Hinit
      as (r & q & rest & plq & d & Hr & Hq & Hplq & Hd & ->).
    specialize (IH _ Hnd Hloop p). simpl in IH.
    rewrite (starters_insert_out _ _ _ _ _ Hi) in IH.
    rewrite (starters_cons _ _ _ _ _ Hr), Hq. simpl head.
    destruct (decide (q = p)) as [->|Hne].
    + rewrite Hp in Hplq. injection Hplq as <-.
      rewrite lookup_insert_eq in IH.
      destruct (IH _ eq_refl) as (pl' & Hp' & Hn & Hq' & Hv' & Hlast).
      simpl in Hn, Hq', Hv', Hlast.
      exists pl'. split; [exact Hp'|]. split; [exact Hn|].
      case_decide; [|simpl in *; congruence].
      simpl. rewrite Hq', Hv', <- !app_assoc. simpl.
      split; [reflexivity|]. split; [reflexivity|].
      rewrite last_cons.
      destruct (last (starters (store s) refs p)) as [r2|]; [exact Hlast|].
      destruct Hlast as [-> ->]. now split.
    + rewrite lookup_insert_ne in IH by exact Hne.
      destruct (IH _ Hp) as (pl' & Hp' & Hn & Hq' & Hv' & Hlast).
      exists pl'. split; [exact Hp'|]. split; [exact Hn|].
      case_decide; [simpl in *; congruence|].
      now repeat split.
Qed.

(** X2: after a completed construction every platform has queued and
    logged, behind what it held before, the ids of the scheduled robots
    whose path starts there, in the order first, third, second, fourth.  A
    platform on which nobody starts is untouched; any other is busy, and its
    [time_left] is the duration of the last robot that starts there: a
    robot that starts on a platform already taken is put to work all the
    same, and durations are overwritten, not added. *)
Theorem init_platforms (rs : list Robot.t) (pm : gmap Z Platform.t) (s : Sim)
  (p : Z) (pl : Platform.t)
  (Hinit : RobotScheduler_init rs pm = Done tt s)
  (Hp : pm !! p = Some pl) :
  exists pl', platform_map s !! p = Some pl' /\
    Platform.node_type pl' = Platform.node_type pl /\
    Platform.cur_visitor pl' =
      Platform.cur_visitor pl ++
      (Robot.robot_id <$> starters rs [0; 2; 1; 3]%nat p) /\
    Platform.visitor pl' =
      Platform.visitor pl ++ (Robot.robot_id <$> starters rs [0; 2; 1; 3]%nat p) /\
    match last (starters rs [0; 2; 1; 3]%nat p) with
    | Some r =>
        Platform.state pl' = 1 /\
        action (Robot.kind r) (Platform.node_type pl) =
          inr (Platform.time_left pl')
    | None =>
        Platform.state pl' = Platform.state pl /\
        Platform.time_left pl' = Platform.time_left pl
    end.
Proof.
  unfold RobotScheduler_init in Hinit.
  destruct (pick rs [0; 2; 1; 3]%nat) as [refs|] eqn:Hpick; [|discriminate].
  apply pick_some in Hpick as ->.
  exact (init_loop_platforms _ _ _ NoDup_reorder Hinit p pl Hp).
Qed.

Lemma init_platforms_witness :
  exists pl', platform_map (final (RobotScheduler_init crowded_fleet three_platforms))
                !! 1 = Some pl' /\
    Platform.node_type pl' = "A"%string /\
    Platform.cur_visitor pl' = [1; 3] /\
    Platform.visitor pl' = [1; 3] /\
    Platform.state pl' = 1 /\
    action Mover "A" = inr (Platform.time_left pl').
Proof.
  exact (init_platforms crowded_fleet three_platforms
           (final (RobotScheduler_init crowded_fleet three_platforms))
           1 (loaded_platform 1 "A")
           ltac:(vm_compute; reflexivity) eq_refl).
Defined.

(** ** How a finished robot is left *)

Lemma evaluate_parked (i : nat) (s : Sim) (r r' : Robot.t) :
  store s !! i = Some r -> parked r ->
  store (final (evaluate i s)) !! i = Some r' -> parked r'.
Proof.
  intros Hr Hpark.
  assert (Hlt : (i < length (store s))%nat) by (eapply lookup_lt_Some; exact Hr).
  unfold evaluate. rewrite Hr.
  destruct (Robot.path r) as [|p rest] eqn:Hp.
  - simpl. rewrite Hr. now intros [= <-].
  - step_cases;
      rewrite ?list_insert_insert_eq, ?list_lookup_insert_eq by exact Hlt;
      intros [= <-]; unfold parked; simpl; rewrite ?Hp;
      first [ discriminate | now split ].
Qed.

Lemma pass_parked (L : list nat) (order : list nat) (flag : bool) (s : Sim) :
  (forall j r, j ∈ L -> store s !! j = Some r -> parked r) ->
  forall j r, j ∈ L -> store (final (pass order flag s)) !! j = Some r -> parked r.
Proof.
  revert flag s. induction order as [|i order IH]; intros flag s Hall; simpl.
  - exact Hall.
  - pose proof (evaluate_same_but i s) as (_ & _ & Hlen & Hother).
    assert (Hall1 : forall j r, j ∈ L ->
              store (final (evaluate i s)) !! j = Some r -> parked r).
    { intros j r Hj Hr. destruct (decide (j = i)) as [->|Hne].
      - assert (Hlt : (i < length (store s))%nat)
          by (rewrite <- Hlen; eapply lookup_lt_Some; exact Hr).
        apply lookup_lt_is_Some in Hlt as [r0 Hr0].
        exact (evaluate_parked i s r0 r Hr0 (Hall i r0 Hj Hr0) Hr).
      - rewrite (Hother j Hne) in Hr. now apply (Hall j). }
    destruct (evaluate i s) as [a s1 | e s1]; simpl in *; [|exact Hall1].
    now apply IH.
Qed.

Lemma run_parked (L : list nat) (fuel : nat) (s : Sim) (o : outcome unit) :
  run fuel s = Some o ->
  (forall j r, j ∈ L -> store s !! j = Some r -> parked r) ->
  forall j r, j ∈ L -> store (final o) !! j = Some r -> parked r.
Proof.
  revert s. induction fuel as [|fuel IH]; intros s; simpl; [discriminate|].
  intros Hrun Hall.
  assert (Ht : forall j r, j ∈ L -> store (final (tick s)) !! j = Some r ->
            parked r).
  { unfold tick. cbv zeta. apply pass_parked. exact Hall. }
  destruct (tick s) as [[|] s1 | e s1]; simpl in Ht.
  - now apply (IH s1).
  - now injection Hrun as <-.
  - now injection Hrun as <-.
Qed.

Lemma run_all_done (fuel : nat) (s s' : Sim) :
  run fuel s = Some (Done tt s') -> all_done s'.
Proof.
  revert s. induction fuel as [|fuel IH]; intros s; simpl; [discriminate|].
  destruct (tick s) as [[|] s1 | e s1] eqn:Ht; [apply IH| |discriminate].
  intros [= <-]. destruct (tick_exit s false s1 Ht) as [Hd Hs1].
  rewrite (Hs1 eq_refl). now apply Hd.
Qed.

(** X8: when the program completes, each of the four scheduled robots has
    an empty path and is left in the state the departure from its last
    platform gave it: moving (state 3), with [time_left = velocity - 1];
    no state marks a robot as finished. *)
Theorem finished_robots_are_parked (rs : list Robot.t) (pm : gmap Z Platform.t)
  (fuel : nat) (s : Sim) (i : nat)
  (Hrun : schedule fuel rs pm = Some (Done tt s))
  (Hi : i ∈ [0; 2; 1; 3]%nat) :
  exists r r', rs !! i = Some r /\ store s !! i = Some r' /\
    Robot.path r' = [] /\ Robot.state r' = 3 /\
    Robot.time_left r' = Robot.velocity r - 1.
Proof.
  unfold schedule in Hrun.
  destruct (RobotScheduler_init rs pm) as [[] s0 | e s0] eqn:Hinit;
    [|discriminate].
  destruct (init_done rs pm s0 Hinit) as (Hrefs & _ & Hst).
  destruct (Hst i Hi) as (r & r0 & Hr & Hr0 & Hp0 & d & _ & Heq).
  destruct (run_static fuel s0 _ Hrun) as [[_ Hrob] _]. simpl in Hrob.
  destruct (Hrob i r0 Hr0) as (r' & Hr' & _ & _ & Hv & _ & _).
  pose proof (run_same_outside fuel s0 _ Hrun) as (Hrs & _). simpl in Hrs.
  pose proof (run_all_done fuel s0 s Hrun i r') as Hdone.
  rewrite Hrs, Hrefs in Hdone. specialize (Hdone Hi Hr').
  assert (Hpark : parked r').
  { apply (run_parked [0; 2; 1; 3]%nat fuel s0 _ Hrun) with (j := i);
      [|exact Hi|exact Hr'].
    intros j rj Hj Hrj. destruct (Hst j Hj) as (r1 & r2 & _ & Hr2 & Hne & d2 & _ & ->).
    rewrite Hrj in Hr2. injection Hr2 as ->. intros Hp. simpl in Hp. contradiction. }
  destruct (Hpark Hdone) as [Hs3 Htl].
  exists r, r'. repeat split; try assumption.
  rewrite Htl, Hv, Heq. reflexivity.
Qed.

Lemma finished_robots_are_parked_witness :
  exists r r', escorted_organizer !! 0%nat = Some r /\
    store (ended (schedule 82 escorted_organizer five_platforms)) !! 0%nat = Some r' /\
    Robot.path r' = [] /\ Robot.state r' = 3 /\
    Robot.time_left r' = Robot.velocity r - 1.
Proof.
  refine (finished_robots_are_parked escorted_organizer five_platforms 82
            (ended (schedule 82 escorted_organizer five_platforms)) 0 _ _).
  - vm_compute. reflexivity.
  - now left.
Defined.

(** ** When an evaluation raises *)

Lemma action_inl_iff (k : Kind) (nt : string) (e : exn) :
  action k nt = inl e <->
  e = ValueError /\ nt <> "A"%string /\ nt <> "B"%string.
Proof.
  split.
  - intros H. split; [now apply (action_raises_only_ValueError k nt)|].
    split; intros ->; destruct k; discriminate.
  - intros (-> & HA & HB). apply String.eqb_neq in HA, HB.
    destruct k; simpl; now rewrite HA, HB.
Qed.

(** X6: the evaluation of a robot raises in three situations only.
    [KeyError]: the platform in front of its path is not in the map and the
    evaluation looks it up (a working robot, or any robot whose countdown
    is over).  [IndexError]: a working robot whose countdown is over leaves a
    platform whose queue is empty.  [ValueError]: [action] is called (a
    waiting robot starts to work, or a moving robot arrives at a busy or
    free platform) on a node type other than ['A'] and ['B'].  A robot with
    an empty path never raises, nor does a waiting or moving robot that is
    still counting down. *)
Theorem evaluate_raises_iff (i : nat) (s : Sim) (e : exn) :
  (exists s', evaluate i s = Raised e s') <->
  exists r p rest,
    store s !! i = Some r /\ Robot.path r = p :: rest /\
    raises (platform_map s) r p e.
Proof.
  split.
  - intros [s' H]. unfold evaluate in H.
    destruct (store s !! i) as [r|] eqn:Hr; [|discriminate].
    destruct (Robot.path r) as [|p rest] eqn:Hp; [discriminate|].
    exists r, p, rest. split; [reflexivity|]. split; [exact Hp|].
    step_cases; try discriminate; simplify_eq; bool_to_prop;
      repeat match goal with
        | H : action _ _ = inl _ |- _ => apply action_inl_iff in H as (-> & ? & ?)
        end;
      unfold raises, needs_platform, calls_action;
      first
        [ split; [lia | assumption]
        | split; [assumption|]; split; [assumption|]; eexists; split; eassumption
        | eexists; split; [eassumption|]; split; [|now split]; lia ].
  - intros (r & p & rest & Hr & Hp & Hraise).
    unfold evaluate. rewrite Hr, Hp. cbv zeta.
    unfold keep_state, change_state, leave_platform, start_work, arrive.
    simpl platform_map. simpl Robot.time_left. simpl Robot.state.
    simpl Robot.kind.
    destruct e; simpl in Hraise.
    + destruct Hraise as (Hl & Hs & pl & Hpl & Hq).
      apply Z.ltb_ge in Hl. rewrite Hl, Hs, Hpl, Hq. simpl. now eexists.
    + destruct Hraise as ([[Hl Hs] | [Hl Hs]] & Hpl).
      * apply Z.ltb_lt in Hl. rewrite Hl, Hs, Hpl. simpl. now eexists.
      * apply Z.ltb_ge in Hl. rewrite Hl, Hpl.
        destruct Hs as [-> | [-> | ->]]; simpl; now eexists.
    + destruct Hraise as (pl & Hpl & (Hl & Hs) & HA & HB).
      assert (Hact : action (Robot.kind r) (Platform.node_type pl) = inl ValueError)
        by now apply action_inl_iff.
      apply Z.ltb_ge in Hl. rewrite Hl, Hpl.
      destruct Hs as [-> | [-> Hps]]; simpl.
      * rewrite Hact. now eexists.
      * cbv zeta.
        destruct (decide (last (Platform.visitor pl) = Some (Robot.robot_id r)));
          simpl; destruct Hps as [-> | ->]; simpl; rewrite Hact; now eexists.
Qed.

(** ** Inputs on which nothing is raised *)

Lemma occupies_nonneg (p : Z) (r : Robot.t) : 0 <= occupies p r.
Proof. unfold occupies. case_decide; lia. Qed.

Lemma evaluate_safe_step (X : Z -> Z) (i : nat) (s : Sim) (r : Robot.t) :
  store s !! i = Some r -> path_ok (platform_map s) r ->
  (forall p, 0 <= X p) ->
  (forall p pl, platform_map s !! p = Some pl ->
     X p + occupies p r <= Z.of_nat (length (Platform.cur_visitor pl))) ->
  exists a s' r',
    evaluate i s = Done a s' /\ store s' = <[i := r']> (store s) /\
    robots s' = robots s /\
    forall p pl', platform_map s' !! p = Some pl' ->
      X p + occupies p r' <= Z.of_nat (length (Platform.cur_visitor pl')).
Proof.
  intros Hr Hok HX Hocc.
  destruct (Robot.path r) as [|p rest] eqn:Hp.
  { exists false, s, r. rewrite (evaluate_empty_path i s r Hr Hp).
    split; [reflexivity|]. split; [now rewrite list_insert_id|]. now split. }
  destruct (Hok p ltac:(rewrite Hp; left)) as (pl & Hpl & Hnt).
  apply (action_inr_iff (Robot.kind r)) in Hnt as [d Hd].
  pose proof (Hocc p pl Hpl) as Hoccp.
  destruct (evaluate i s) as [a s' | e s'] eqn:He.
  - exists a, s'. unfold evaluate in He. rewrite Hr, Hp in He.
    step_cases; try discriminate; simplify_eq; bool_to_prop.
    all: eexists; split; [reflexivity|].
    all: split; [simpl; rewrite ?list_insert_insert_eq; reflexivity|].
    all: split; [reflexivity|].
    all: intros p0 pl0 Hp0; simpl in Hp0; pose proof (HX p0) as HX0.
    all: try (apply lookup_insert_Some in Hp0 as [[<- <-] | [Hne Hp0]]).
    all: try (pose proof (Hocc _ _ Hp0) as Hocc0).
    all: unfold occupies in *; simpl; rewrite ?Hp in *; simpl head in *.
    all: repeat match goal with
           | H : Platform.cur_visitor _ = _ |- _ => rewrite H in *
           end.
    all: repeat case_decide; simpl in *; rewrite ?length_app; simpl.
    all: try lia.
    all: exfalso; destruct_and?; simplify_eq; first [lia | congruence | tauto].
  - exfalso. unfold evaluate in He. rewrite Hr, Hp in He.
    step_cases; try discriminate; simplify_eq; bool_to_prop.
    all: try congruence.
    pose proof (HX p). rewrite H2 in Hoccp. unfold occupies in Hoccp.
    rewrite Hp in Hoccp. case_decide; simpl in *; [lia|tauto].
Qed.

Lemma path_ok_static (pm pm' : gmap Z Platform.t) (r r' : Robot.t) :
  platform_static pm pm' -> Robot.path r' `suffix_of` Robot.path r ->
  path_ok pm r -> path_ok pm' r'.
Proof.
  intros Hpm [k Hk] Hok p Hp.
  destruct (Hok p) as (pl & Hpl & Hnt).
  { rewrite Hk. apply elem_of_app. now right. }
  specialize (Hpm p). rewrite Hpl in Hpm.
  destruct Hpm as (pl' & Hpl' & _ & Hn & _).
  exists pl'. split; [exact Hpl'|]. now rewrite Hn.
Qed.

Lemma evaluate_safe (i : nat) (s : Sim) :
  safe s -> i ∈ robots s ->
  exists a s', evaluate i s = Done a s' /\ safe s'.
Proof.
  intros (Hnd & Hok & Hocc) Hi.
  destruct (store s !! i) as [r|] eqn:Hr.
  2:{ exists false, s. unfold evaluate. rewrite Hr. now split. }
  destruct (evaluate_safe_step
              (fun p => total (occupies p) (store s) (robots s) - occupies p r)
              i s r Hr (Hok i r Hi Hr))
    as (a & s' & r' & He & Hs' & Hrs' & Hocc').
  { intros p.
    pose proof (total_member_le (occupies p) (store s) (robots s) i r
                  (occupies_nonneg p) Hi Hr). lia. }
  { intros p pl Hpl. specialize (Hocc p pl Hpl). lia. }
  exists a, s'. split; [exact He|].
  pose proof (evaluate_static i s) as [Hrob Hpm]. rewrite He in Hrob, Hpm.
  simpl in Hrob, Hpm.
  split; [now rewrite Hrs'|]. split.
  - intros j rj' Hj Hrj'. rewrite Hrs' in Hj.
    destruct (robot_static_back _ _ j rj' Hrob Hrj') as (rj & Hrj & Hsuf & _).
    exact (path_ok_static _ _ rj rj' Hpm Hsuf (Hok j rj Hj Hrj)).
  - intros p pl' Hpl'. rewrite Hs', Hrs'.
    rewrite (total_insert _ _ _ i r r') by assumption.
    specialize (Hocc' p pl' Hpl'). lia.
Qed.

Lemma pass_safe (order : list nat) (flag : bool) (s : Sim) :
  safe s -> (forall i, i ∈ order -> i ∈ robots s) ->
  exists flag' s', pass order flag s = Done flag' s' /\ safe s'.
Proof.
  revert flag s. induction order as [|i order IH]; intros flag s Hsafe Hsub; simpl.
  - now exists flag, s.
  - destruct (evaluate_safe i s Hsafe (Hsub i ltac:(left))) as (a & s1 & He & Hs1).
    pose proof (evaluate_same_but i s) as (Hrs & _).
    rewrite He in Hrs |- *. simpl in Hrs.
    apply IH; [exact Hs1|]. intros j Hj. rewrite Hrs. apply Hsub. now right.
Qed.

Lemma tick_safe (s : Sim) : safe s -> exists a s', tick s = Done a s' /\ safe s'.
Proof.
  intros Hsafe. unfold tick. cbv zeta.
  apply pass_safe; [exact Hsafe|].
  intros i Hi. apply elem_of_sorted in Hi. exact Hi.
Qed.

(** From a safe state the loop raises nothing. *)
Lemma run_safe (fuel : nat) (s : Sim) (o : outcome unit) :
  safe s -> run fuel s = Some o -> exists s', o = Done tt s'.
Proof.
  revert s. induction fuel as [|fuel IH]; intros s Hsafe; simpl; [discriminate|].
  destruct (tick_safe s Hsafe) as (a & s1 & -> & Hs1).
  destruct a; [now apply IH|]. intros [= <-]. now exists s1.
Qed.

(** The queues after the initialisation loop cover the robots it has put to
    work. *)
Lemma init_loop_occupancy (refs : list nat) (base : Z -> Z) (s s' : Sim) :
  NoDup refs -> init_loop refs s = Done tt s' ->
  (forall p pl, platform_map s !! p = Some pl ->
     base p <= Z.of_nat (length (Platform.cur_visitor pl))) ->
  forall p pl', platform_map s' !! p = Some pl' ->
    base p + total (occupies p) (store s') refs <=
    Z.of_nat (length (Platform.cur_visitor pl')).
Proof.
  revert base s. induction refs as [|i refs IH]; intros base s Hnd; simpl.
  - intros [= <-] Hbase p pl Hp. specialize (Hbase p pl Hp). lia.
  - apply NoDup_cons in Hnd as [Hi Hnd].
    destruct (init_robot i s) as [[] s1 | e s1] eqn:Hinit; [|discriminate].
    intros Hloop Hbase p pl' Hp'.
    pose proof (init_loop_same_outside refs s1) as (_ & _ & Hout).
    rewrite Hloop in Hout. simpl in Hout. rewrite (Hout i Hi).
    apply init_robot_done in Hinit
      as (r & q & rest & plq & d & Hr & Hq & Hplq & Hd & ->).
    simpl in Hout |- *.
    rewrite list_lookup_insert_eq by (eapply lookup_lt_Some; exact Hr).
    set (r1 := Robot.mk _ _ _ 1 (q :: rest) d _) in *.
    specialize (IH (fun p0 => base p0 + occupies p0 r1) _ Hnd Hloop).
    simpl in IH.
    rewrite Z.add_assoc. apply IH; [|exact Hp'].
    intros p0 pl0 Hp0.
    apply lookup_insert_Some in Hp0 as [[<- <-] | [Hne Hp0]]; simpl.
    + specialize (Hbase q plq Hplq). rewrite length_app. simpl.
      pose proof (occupies_nonneg q r1). unfold occupies in *.
      case_decide; lia.
    + specialize (Hbase p0 pl0 Hp0). unfold occupies, r1. simpl.
      case_decide; [|lia]. destruct_and?. simplify_eq.
Qed.

Lemma init_safe (rs : list Robot.t) (pm : gmap Z Platform.t) (s : Sim) :
  RobotScheduler_init rs pm = Done tt s ->
  (forall i r, i ∈ [0; 2; 1; 3]%nat -> rs !! i = Some r -> path_ok pm r) ->
  safe s.
Proof.
  intros Hinit Hok.
  destruct (init_done rs pm s Hinit) as (Hrefs & _ & Hst).
  pose proof (init_static rs pm) as [_ Hpm]. rewrite Hinit in Hpm. simpl in Hpm.
  unfold RobotScheduler_init in Hinit.
  destruct (pick rs [0; 2; 1; 3]%nat) as [refs|] eqn:Hpick; [|discriminate].
  apply pick_some in Hpick as ->.
  split; [rewrite Hrefs; exact NoDup_reorder|]. rewrite Hrefs. split.
  - intros i r' Hi Hr'. destruct (Hst i Hi) as (r & r0 & Hr & Hr0 & _ & d & _ & ->).
    rewrite Hr' in Hr0. injection Hr0 as ->.
    apply (path_ok_static pm _ r); [exact Hpm | reflexivity | now apply (Hok i)].
  - intros p pl' Hp'.
    pose proof (init_loop_occupancy _ (fun _ => 0) _ _ NoDup_reorder Hinit) as H.
    simpl in H. apply (H ltac:(intros; lia) p pl' Hp').
Qed.

Lemma well_formed_init (rs : list Robot.t) (pm : gmap Z Platform.t) :
  (forall i, i ∈ [0; 2; 1; 3]%nat ->
     exists r, rs !! i = Some r /\ Robot.path r <> [] /\ path_ok pm r) ->
  exists s0, RobotScheduler_init rs pm = Done tt s0 /\ safe s0.
Proof.
  intros Hrobots.
  assert (Hready : forall i, i ∈ [0; 2; 1; 3]%nat -> ready rs pm i).
  { intros i Hi. destruct (Hrobots i Hi) as (r & Hr & Hne & Hok).
    destruct (Robot.path r) as [|p rest] eqn:Hp; [contradiction|].
    destruct (Hok p ltac:(rewrite Hp; left)) as (pl & Hpl & Hnt).
    now exists r, p, rest, pl. }
  assert (Hinit : exists s0, RobotScheduler_init rs pm = Done tt s0).
  { unfold RobotScheduler_init. rewrite pick_all.
    - now apply (init_loop_completes_iff _ (mkSim rs pm [0; 2; 1; 3]%nat 0)).
    - intros i Hi. destruct (Hrobots i Hi) as (r & Hr & _). now exists r. }
  destruct Hinit as [s0 Hinit]. exists s0. split; [exact Hinit|].
  apply (init_safe rs pm s0 Hinit). intros i r Hi Hr.
  destruct (Hrobots i Hi) as (r0 & Hr0 & _ & Hok).
  rewrite Hr in Hr0. now injection Hr0 as <-.
Qed.

Lemma safe_run_completes (rs : list Robot.t) (pm : gmap Z Platform.t) (B : Z)
  (s0 : Sim) :
  platforms_bounded B pm -> RobotScheduler_init rs pm = Done tt s0 -> safe s0 ->
  exists fuel s,
    run fuel s0 = Some (Done tt s) /\ all_done s /\ times s <= tick_bound B rs.
Proof.
  intros Hplat Hinit Hsafe.
  destruct (init_establishes rs pm B s0 Hplat Hinit) as (Ht & Hinv & Hpot).
  pose proof (potential_nonneg _ s0 (proj1 Hinv)) as Hnn.
  destruct (run_halts (wait_bound B rs)
              (Z.to_nat (potential (wait_bound B rs) s0)) s0 Hinv)
    as (o & Hrun & Htimes & Hdone); [lia|].
  destruct (run_safe _ s0 o Hsafe Hrun) as [s ->].
  eexists _, s. split; [exact Hrun|]. split; [now apply Hdone|].
  simpl in Htimes. lia.
Qed.

(** X7: on well-formed input the program completes.  If each of the robots
    at positions 0, 2, 1 and 3 has a non-empty path on which every platform
    is in the map with node type ['A'] or ['B'], and every platform is busy
    or free with at most [B] left, then the constructor and [run] raise
    nothing, the loop exits with every scheduled path empty, and it has made
    at most [tick_bound B rs] iterations.  In particular [popleft] never
    meets an empty queue, whatever the queues held at first. *)
Theorem well_formed_input_completes (rs : list Robot.t) (pm : gmap Z Platform.t)
  (B : Z)
  (Hplat : platforms_bounded B pm)
  (Hrobots : forall i, i ∈ [0; 2; 1; 3]%nat ->
     exists r, rs !! i = Some r /\ Robot.path r <> [] /\ path_ok pm r) :
  exists fuel s,
    schedule fuel rs pm = Some (Done tt s) /\ all_done s /\
    times s <= tick_bound B rs.
Proof.
  destruct (well_formed_init rs pm Hrobots) as (s0 & Hinit & Hsafe).
  destruct (safe_run_completes rs pm B s0 Hplat Hinit Hsafe)
    as (fuel & s & Hrun & Hdone & Htimes).
  exists fuel, s. unfold schedule. rewrite Hinit. now split.
Qed.

Lemma well_formed_input_completes_witness :
  exists fuel s,
    schedule fuel crowded_fleet three_platforms = Some (Done tt s) /\
    all_done s /\ times s <= tick_bound 0 crowded_fleet.
Proof.
  apply (well_formed_input_completes crowded_fleet three_platforms 0).
  - intros p pl H. unfold three_platforms in H.
    repeat (apply lookup_insert_Some in H as [[_ <-] | [_ H]];
            [simpl; split; [now right | lia]|]).
    now rewrite lookup_empty in H.
  - intros i Hi.
    repeat (apply elem_of_cons in Hi as [-> | Hi]); [..|now apply elem_of_nil in Hi].
    all: eexists; split; [reflexivity|]; split; [discriminate|].
    all: intros p Hp; simpl in Hp.
    all: repeat (apply elem_of_cons in Hp as [-> | Hp]);
           [..|now apply elem_of_nil in Hp].
    all: eexists; split; [vm_compute; reflexivity | now left].
Defined.

(** ** The end of a run *)

(** The store and the platforms at the end of a run that completes. *)
Lemma schedule_store (fuel : nat) (rs : list Robot.t) (pm : gmap Z Platform.t)
  (s : Sim) :
  schedule fuel rs pm = Some (Done tt s) ->
  robot_static rs (store s) /\
  platform_static pm (platform_map s) /\
  (forall i, i ∈ [0; 2; 1; 3]%nat ->
     exists r r', rs !! i = Some r /\ store s !! i = Some r' /\
       Robot.time_spend r + 1 <= Robot.time_spend r') /\
  (forall j, (4 <= j)%nat -> store s !! j = rs !! j).
Proof.
  intros Hrun. unfold schedule in Hrun.
  destruct (RobotScheduler_init rs pm) as [[] s0 | e s0] eqn:Hinit;
    [|discriminate].
  pose proof (init_static rs pm) as [Hr0 Hp0]. rewrite Hinit in Hr0, Hp0.
  pose proof (run_static fuel s0 _ Hrun) as [Hr1 Hp1]. simpl in *.
  split; [exact (robot_static_trans _ _ _ Hr0 Hr1)|].
  split; [exact (platform_static_trans _ _ _ Hp0 Hp1)|].
  destruct (init_done rs pm s0 Hinit) as (Hrefs & Ht0 & Hst).
  assert (Hnd : NoDup (robots s0)) by (rewrite Hrefs; exact NoDup_reorder).
  destruct (run_time_spend fuel s0 s Hnd Hrun) as [H1 _].
  rewrite Hrefs in H1. split.
  - intros i Hi. destruct (Hst i Hi) as (r & r0 & Hr & Hr0' & Hp & d & _ & ->).
    destruct (H1 i _ Hi Hr0') as (r' & Hr' & Hlo & _).
    exists r, r'. split; [exact Hr|]. split; [exact Hr'|].
    unfold active in Hlo. simpl in Hlo.
    destruct (Robot.path r); [contradiction | lia].
  - intros j Hj. destruct (init_same_outside rs pm s0 Hinit) as [_ Hout0].
    pose proof (run_same_outside fuel s0 _ Hrun) as (_ & _ & Hout1).
    simpl in Hout1. rewrite Hout1, Hout0; [reflexivity | exact Hj |].
    rewrite Hrefs. rewrite !elem_of_cons, elem_of_nil. lia.
Qed.

(** ** Who is in a visitor log *)

Lemma registered_static (pm pm' : gmap Z Platform.t) (p x : Z) :
  platform_static pm pm' -> registered pm p x -> registered pm' p x.
Proof.
  intros Hst (pl & Hpl & Hx). specialize (Hst p). rewrite Hpl in Hst.
  destruct Hst as (pl' & Hpl' & _ & _ & [k Hk]). exists pl'.
  split; [exact Hpl'|]. rewrite Hk. apply elem_of_app. now left.
Qed.

(** What one evaluation does to the logs and to the robot evaluated. *)
Lemma evaluate_logs (i : nat) (s s' : Sim) (a : bool) (r : Robot.t) :
  evaluate i s = Done a s' -> store s !! i = Some r ->
  (forall p x, registered (platform_map s') p x ->
     registered (platform_map s) p x \/
     (x = Robot.robot_id r /\ head (Robot.path r) = Some p)) /\
  exists r', store s' !! i = Some r' /\
    forall p, p ∈ pending r ->
      registered (platform_map s') p (Robot.robot_id r) \/ p ∈ pending r'.
Proof.
  intros He Hr.
  assert (Hlt : (i < length (store s))%nat) by (eapply lookup_lt_Some; exact Hr).
  unfold evaluate in He. rewrite Hr in He.
  destruct (Robot.path r) as [|p0 rest] eqn:Hp.
  { injection He as <- <-. split; [now left|]. exists r. split; [exact Hr|].
    now right. }
  step_cases; try discriminate; simplify_eq; bool_to_prop; simpl.
  all: rewrite ?list_insert_insert_eq, ?list_lookup_insert_eq by exact Hlt.
  all: split;
    [ intros p x (pl & Hpl & Hx);
      try (apply lookup_insert_Some in Hpl as [[<- <-] | [Hne Hpl]]);
      simpl in Hx; rewrite ?elem_of_app, ?list_elem_of_singleton in Hx;
      first [ left; eexists; split; [eassumption|]; first [exact Hx | tauto]
            | destruct Hx as [Hx | ->];
              [left; eexists; split; eassumption | now right] ]
    | eexists; split; [reflexivity|];
      intros p; unfold pending, registered; simpl; rewrite ?Hp;
      repeat case_decide; simpl; intros Hin ].
  all: try (now right).
  all: try (exfalso; lia).
  all: apply elem_of_cons in Hin as [-> | Hin]; [left | now right].
  all: eexists; split; [apply lookup_insert_eq|]; simpl.
  all: first [ now apply last_Some_elem_of
             | rewrite ?elem_of_app, ?list_elem_of_singleton; tauto ].
Qed.

Lemma elem_of_starters (st : list Robot.t) (refs : list nat) (p : Z)
  (r : Robot.t) :
  r ∈ starters st refs p <->
  exists i, i ∈ refs /\ st !! i = Some r /\ head (Robot.path r) = Some p.
Proof.
  induction refs as [|i refs IH]; simpl.
  - rewrite elem_of_nil. split; [tauto|]. intros (i & Hi & _).
    now apply elem_of_nil in Hi.
  - assert (Hrest : (exists j, j ∈ i :: refs /\ st !! j = Some r /\
                       head (Robot.path r) = Some p) <->
                    (st !! i = Some r /\ head (Robot.path r) = Some p) \/
                    r ∈ starters st refs p).
    { rewrite IH. split.
      - intros (j & [-> | Hj]%elem_of_cons & Hr & Hp); [now left|].
        right. now exists j.
      - intros [[Hr Hp] | (j & Hj & Hr & Hp)].
        + exists i. split; [left | now split].
        + exists j. split; [now right | now split]. }
    rewrite Hrest. destruct (st !! i) as [ri|] eqn:Hri.
    + case_decide as Hhead.
      * rewrite elem_of_cons. split.
        { intros [-> | Hin]; [left; now split | now right]. }
        intros [[[= ->] _] | Hin]; [now left | now right].
      * split; [now right|]. intros [[[= ->] Hp] | Hin]; [contradiction|exact Hin].
    + split; [now right|]. now intros [[? _] | Hin].
Qed.

Lemma head_elem_of (l : list Z) (p : Z) : head l = Some p -> p ∈ l.
Proof. destruct l; [discriminate|]. intros [= ->]. left. Qed.

(** The logs after the construction. *)
Lemma init_logs (rs : list Robot.t) (pm : gmap Z Platform.t) (s : Sim) :
  RobotScheduler_init rs pm = Done tt s ->
  logs_sound rs pm [0; 2; 1; 3]%nat s /\ logs_complete rs [0; 2; 1; 3]%nat s.
Proof.
  intros Hinit.
  destruct (init_done rs pm s Hinit) as (_ & _ & Hst).
  pose proof (init_static rs pm) as [_ Hpm]. rewrite Hinit in Hpm. simpl in Hpm.
  assert (Hlogs : forall p pl, pm !! p = Some pl ->
            exists pl', platform_map s !! p = Some pl' /\
              Platform.visitor pl' =
                Platform.visitor pl ++
                (Robot.robot_id <$> starters rs [0; 2; 1; 3]%nat p)).
  { unfold RobotScheduler_init in Hinit.
    destruct (pick rs [0; 2; 1; 3]%nat) as [refs|] eqn:Hpick; [|discriminate].
    apply pick_some in Hpick as ->. intros p pl Hp.
    destruct (init_loop_platforms _ _ _ NoDup_reorder Hinit p pl Hp)
      as (pl' & Hpl' & _ & _ & Hv & _).
    now exists pl'. }
  assert (Hready : forall i, i ∈ [0; 2; 1; 3]%nat -> ready rs pm i).
  { unfold RobotScheduler_init in Hinit.
    destruct (pick rs [0; 2; 1; 3]%nat) as [refs|] eqn:Hpick; [|discriminate].
    apply pick_some in Hpick as ->.
    apply (init_loop_completes_iff _ (mkSim rs pm [0; 2; 1; 3]%nat 0)).
    now exists s. }
  split.
  - intros p x (pl' & Hpl' & Hx). specialize (Hpm p).
    destruct (pm !! p) as [pl|] eqn:Hp; [|congruence].
    destruct (Hlogs p pl Hp) as (pl2 & Hpl2 & Hv).
    rewrite Hpl' in Hpl2. injection Hpl2 as <-.
    rewrite Hv, elem_of_app in Hx. destruct Hx as [Hx | Hx].
    + left. now exists pl.
    + right. apply list_elem_of_fmap in Hx as (r & -> & Hr).
      apply elem_of_starters in Hr as (i & Hi & Hr & Hhead).
      exists i, r. split; [exact Hi|]. split; [exact Hr|].
      split; [reflexivity | now apply head_elem_of].
  - intros i r0 r Hi Hr0 Hr p Hp.
    destruct (Hst i Hi) as (r0' & r' & Hr0' & Hr' & Hne & d & _ & ->).
    rewrite Hr0 in Hr0'. injection Hr0' as <-.
    rewrite Hr in Hr'. injection Hr' as ->.
    unfold pending. simpl.
    destruct (Hready i Hi) as (r1 & q & rest & pl & Hr1 & Hpath & Hq & _).
    rewrite Hr0 in Hr1. injection Hr1 as <-. rewrite Hpath in Hp |- *.
    apply elem_of_cons in Hp as [-> | Hp]; [left | now right].
    destruct (Hlogs q pl Hq) as (pl' & Hpl' & Hv). exists pl'.
    split; [exact Hpl'|]. rewrite Hv, elem_of_app. right.
    apply list_elem_of_fmap. exists r0. split; [reflexivity|].
    apply elem_of_starters. exists i. split; [exact Hi|]. split; [exact Hr0|].
    now rewrite Hpath.
Qed.

(** One evaluation keeps the two properties of the logs. *)
Lemma evaluate_logs_kept (rs : list Robot.t) (pm : gmap Z Platform.t)
  (refs : list nat) (i : nat) (s s' : Sim) (a : bool) :
  evaluate i s = Done a s' -> i ∈ refs -> robot_static rs (store s) ->
  logs_sound rs pm refs s -> logs_complete rs refs s ->
  logs_sound rs pm refs s' /\ logs_complete rs refs s'.
Proof.
  intros He Hi Hstatic Hsound Hcomplete.
  pose proof (evaluate_static i s) as [_ Hpm]. rewrite He in Hpm. simpl in Hpm.
  pose proof (evaluate_same_but i s) as (_ & _ & _ & Hother).
  rewrite He in Hother. simpl in Hother.
  destruct (store s !! i) as [r|] eqn:Hr.
  2:{ unfold evaluate in He. rewrite Hr in He. injection He as <- <-.
      now split. }
  destruct (evaluate_logs i s s' a r He Hr) as (Hnew & r' & Hr' & Hpend).
  destruct (robot_static_back _ _ i r Hstatic Hr) as (r0 & Hr0 & Hsuf & _).
  destruct Hstatic as [_ Hfields].
  destruct (Hfields i r0 Hr0) as (r2 & Hr2 & Hid & _).
  rewrite Hr in Hr2. injection Hr2 as <-.
  split.
  - intros p x Hreg. destruct (Hnew p x Hreg) as [Hold | [-> Hhead]].
    + now apply Hsound.
    + right. exists i, r0. split; [exact Hi|]. split; [exact Hr0|].
      split; [now symmetry|]. destruct Hsuf as [k ->].
      apply elem_of_app. right. now apply head_elem_of.
  - intros j rj0 rj Hj Hrj0 Hrj p Hp.
    destruct (decide (j = i)) as [->|Hne].
    + rewrite Hr0 in Hrj0. injection Hrj0 as <-.
      rewrite Hr' in Hrj. injection Hrj as <-.
      destruct (Hcomplete i r0 r Hi Hr0 Hr p Hp) as [Hreg | Hin].
      * left. exact (registered_static _ _ _ _ Hpm Hreg).
      * rewrite <- Hid. now apply Hpend.
    + rewrite (Hother j Hne) in Hrj.
      destruct (Hcomplete j rj0 rj Hj Hrj0 Hrj p Hp) as [Hreg | Hin];
        [left | now right].
      exact (registered_static _ _ _ _ Hpm Hreg).
Qed.

Lemma pass_logs_kept (rs : list Robot.t) (pm : gmap Z Platform.t)
  (refs order : list nat) (flag flag' : bool) (s s' : Sim) :
  pass order flag s = Done flag' s' -> (forall i, i ∈ order -> i ∈ refs) ->
  robot_static rs (store s) ->
  logs_sound rs pm refs s -> logs_complete rs refs s ->
  logs_sound rs pm refs s' /\ logs_complete rs refs s'.
Proof.
  revert flag s. induction order as [|i order IH]; intros flag s; simpl.
  - now intros [= <- <-].
  - destruct (evaluate i s) as [a s1 | e s1] eqn:He; [|discriminate].
    intros Hpass Hsub Hstatic Hsound Hcomplete.
    destruct (evaluate_logs_kept rs pm refs i s s1 a He (Hsub i ltac:(left))
                Hstatic Hsound Hcomplete) as [Hsound1 Hcomplete1].
    pose proof (evaluate_static i s) as [Hst1 _]. rewrite He in Hst1.
    apply (IH _ _ Hpass); try assumption.
    + intros j Hj. apply Hsub. now right.
    + exact (robot_static_trans _ _ _ Hstatic Hst1).
Qed.

Lemma run_logs_kept (rs : list Robot.t) (pm : gmap Z Platform.t) (fuel : nat)
  (s s' : Sim) :
  run fuel s = Some (Done tt s') -> robot_static rs (store s) ->
  logs_sound rs pm (robots s) s -> logs_complete rs (robots s) s ->
  logs_sound rs pm (robots s) s' /\ logs_complete rs (robots s) s'.
Proof.
  revert s. induction fuel as [|fuel IH]; intros s; simpl; [discriminate|].
  pose proof (tick_static s) as [Hst1 _]. pose proof (tick_robots s) as Hrs.
  destruct (tick s) as [a s1 | e s1] eqn:Htick; simpl in Hst1, Hrs.
  2:{ discriminate. }
  intros Hrun Hstatic Hsound Hcomplete.
  assert (Hkept : logs_sound rs pm (robots s) s1 /\
                  logs_complete rs (robots s) s1).
  { unfold tick in Htick. cbv zeta in Htick.
    apply (pass_logs_kept rs pm (robots s) _ _ _ _ _ Htick); try assumption.
    intros i Hi. now apply elem_of_sorted in Hi. }
  destruct a.
  - rewrite <- Hrs. apply (IH s1 Hrun).
    + exact (robot_static_trans _ _ _ Hstatic Hst1).
    + rewrite Hrs. apply Hkept.
    + rewrite Hrs. apply Hkept.
  - injection Hrun as <-. exact Hkept.
Qed.

(** The logs at the end of a run that completes. *)
Lemma schedule_logs (rs : list Robot.t) (pm : gmap Z Platform.t) (fuel : nat)
  (s : Sim) :
  schedule fuel rs pm = Some (Done tt s) ->
  logs_sound rs pm [0; 2; 1; 3]%nat s /\
  forall p x, routed rs [0; 2; 1; 3]%nat p x -> registered (platform_map s) p x.
Proof.
  intros Hrun. unfold schedule in Hrun.
  destruct (RobotScheduler_init rs pm) as [[] s0 | e s0] eqn:Hinit;
    [|discriminate].
  destruct (init_logs rs pm s0 Hinit) as [Hsound0 Hcomplete0].
  destruct (init_done rs pm s0 Hinit) as (Hrefs & _ & _).
  pose proof (init_static rs pm) as [Hst0 _].
  rewrite Hinit in Hst0. simpl in Hst0.
  pose proof (run_static fuel s0 _ Hrun) as [Hst1 _]. simpl in Hst1.
  rewrite <- Hrefs in Hsound0, Hcomplete0.
  destruct (run_logs_kept rs pm fuel s0 s Hrun Hst0 Hsound0 Hcomplete0)
    as [Hsound Hcomplete].
  rewrite Hrefs in Hsound, Hcomplete.
  pose proof (run_all_done fuel s0 s Hrun) as Hdone.
  pose proof (run_same_outside fuel s0 _ Hrun) as (Hrs & _). simpl in Hrs.
  unfold all_done in Hdone. rewrite Hrs, Hrefs in Hdone.
  split; [exact Hsound|].
  intros p x (i & r0 & Hi & Hr0 & <- & Hpath).
  destruct (robot_static_trans _ _ _ Hst0 Hst1) as [_ Hfields].
  destruct (Hfields i r0 Hr0) as (r & Hr & _).
  destruct (Hcomplete i r0 r Hi Hr0 Hr p Hpath) as [Hreg | Hpend];
    [exact Hreg|].
  exfalso. unfold pending in Hpend. rewrite (Hdone i r Hi Hr) in Hpend.
  case_decide; simpl in Hpend; now apply elem_of_nil in Hpend.
Qed.

(** X16: when the program completes, the visitor log of a platform holds,
    besides the ids it held at first, exactly the ids of the scheduled
    robots that have the platform on their path. *)
Theorem visitor_log_names_the_visitors (rs : list Robot.t)
  (pm : gmap Z Platform.t) (fuel : nat) (s : Sim) (p : Z) (pl : Platform.t)
  (Hrun : schedule fuel rs pm = Some (Done tt s))
  (Hp : platform_map s !! p = Some pl) :
  forall x, x ∈ Platform.visitor pl <->
    registered pm p x \/ routed rs [0; 2; 1; 3]%nat p x.
Proof.
  destruct (schedule_logs rs pm fuel s Hrun) as [Hsound Hcomplete].
  destruct (schedule_store fuel rs pm s Hrun) as (_ & Hpm & _).
  assert (Hin : forall y, registered (platform_map s) p y ->
                          y ∈ Platform.visitor pl).
  { intros y (pl' & Hpl' & Hy). rewrite Hp in Hpl'. now injection Hpl' as <-. }
  intros x. split.
  - intros Hx. apply Hsound. now exists pl.
  - intros [Hreg | Hrouted]; apply Hin.
    + exact (registered_static _ _ _ _ Hpm Hreg).
    + now apply Hcomplete.
Qed.

Lemma visitor_log_names_the_visitors_witness :
  exists s pl,
    schedule 50 crowded_fleet three_platforms = Some (Done tt s) /\
    platform_map s !! 1 = Some pl /\
    forall x, x ∈ Platform.visitor pl <->
      registered three_platforms 1 x \/
      routed crowded_fleet [0; 2; 1; 3]%nat 1 x.
Proof.
  destruct (schedule 50 crowded_fleet three_platforms) as [[[] s | e s]|] eqn:Hrun;
    try (vm_compute in Hrun; discriminate).
  destruct (platform_map s !! 1) as [pl|] eqn:Hp.
  2:{ exfalso. vm_compute in Hrun. injection Hrun as <-.
      vm_compute in Hp. discriminate. }
  exists s, pl. split; [reflexivity|]. split; [exact Hp|].
  exact (visitor_log_names_the_visitors crowded_fleet three_platforms 50 s 1 pl
           Hrun Hp).
Defined.

(** ** Queues in balance *)

(** One evaluation, seen from platform [p]: the queue grows by one when the
    robot comes to work or wait there and shrinks by one when it leaves. *)
Lemma evaluate_queue_step (n : Z) (p : Z) (pl : Platform.t) (i : nat)
  (s s' : Sim) (a : bool) (r : Robot.t) :
  evaluate i s = Done a s' -> store s !! i = Some r -> 0 <= n ->
  platform_map s !! p = Some pl -> queue_counts n (occupies p r) pl ->
  exists r' pl',
    store s' = <[i := r']> (store s) /\ robots s' = robots s /\
    platform_map s' !! p = Some pl' /\
    queue_counts n (occupies p r') pl' /\
    (idle_when_empty pl -> idle_when_empty pl').
Proof.
  intros He Hr Hn Hpl [Hstate Hlen].
  destruct (Robot.path r) as [|p0 rest] eqn:Hp.
  { rewrite (evaluate_empty_path i s r Hr Hp) in He. injection He as <- <-.
    exists r, pl. split; [now rewrite list_insert_id|]. split; [reflexivity|].
    split; [exact Hpl|]. split; [now split | tauto]. }
  unfold evaluate in He. rewrite Hr, Hp in He.
  destruct (decide (p0 = p)) as [->|Hne].
  - step_cases; try discriminate; simplify_eq; bool_to_prop.
    all: eexists _, _.
    all: split; [simpl; rewrite ?list_insert_insert_eq; reflexivity|].
    all: split; [reflexivity|].
    all: split; [simpl; rewrite ?lookup_insert_eq; first [reflexivity | eassumption]|].
    all: unfold queue_counts, idle_when_empty, occupies in *; simpl.
    all: rewrite ?Hp in *; simpl head in *.
    all: repeat match goal with
           | H : Platform.cur_visitor _ = _ |- _ => rewrite H in *
           end.
    all: repeat case_decide; simpl in *; rewrite ?length_app in *; simpl in *.
    all: (split; [split; first [lia | tauto]|]).
    all: try tauto.
    all: intros Hidle Hq; exfalso.
    all: first [ rewrite Hq in *; simpl in *; lia
               | now apply app_nil in Hq as [_ Hq]
               | discriminate ].
  - step_cases; try discriminate; simplify_eq; bool_to_prop.
    all: eexists _, _.
    all: split; [simpl; rewrite ?list_insert_insert_eq; reflexivity|].
    all: split; [reflexivity|].
    all: split; [simpl; rewrite ?lookup_insert_ne by exact Hne; eassumption|].
    all: unfold queue_counts, idle_when_empty, occupies in *; simpl.
    all: rewrite ?Hp in *; simpl head in *.
    all: repeat case_decide; simpl in *.
    all: try (exfalso; destruct_and?; congruence).
    all: (split; [split; first [lia | tauto]|]).
    all: tauto.
Qed.
Lemma total_zero (f : Robot.t -> Z) (st : list Robot.t) (l : list nat) :
  (forall i r, i ∈ l -> st !! i = Some r -> f r = 0) -> total f st l = 0.
Proof.
  induction l as [|j l IH]; intros H; simpl; [reflexivity|].
  rewrite IH by (intros i r Hi; apply H; now right).
  destruct (st !! j) as [r|] eqn:Hr; [|reflexivity].
  rewrite (H j r ltac:(left) Hr). reflexivity.
Qed.

Lemma evaluate_queue (n p : Z) (pl : Platform.t) (i : nat) (s s' : Sim)
  (a : bool) :
  evaluate i s = Done a s' -> NoDup (robots s) -> i ∈ robots s -> 0 <= n ->
  platform_map s !! p = Some pl ->
  queue_counts n (total (occupies p) (store s) (robots s)) pl ->
  exists pl',
    platform_map s' !! p = Some pl' /\
    queue_counts n (total (occupies p) (store s') (robots s')) pl' /\
    (idle_when_empty pl -> idle_when_empty pl').
Proof.
  intros He Hnd Hi Hn Hpl Hq.
  destruct (store s !! i) as [r|] eqn:Hr.
  2:{ unfold evaluate in He. rewrite Hr in He. injection He as <- <-.
      exists pl. split; [exact Hpl|]. split; [exact Hq | tauto]. }
  pose proof (total_member_le (occupies p) (store s) (robots s) i r
                (occupies_nonneg p) Hi Hr) as Hle.
  destruct (evaluate_queue_step
              (n + total (occupies p) (store s) (robots s) - occupies p r)
              p pl i s s' a r He Hr) as (r' & pl' & Hst & Hrs & Hpl' & Hq' & Hid).
  { pose proof (occupies_nonneg p r). lia. }
  { exact Hpl. }
  { destruct Hq as [Hstate Hlen]. split; [exact Hstate | lia]. }
  exists pl'. split; [exact Hpl'|]. split; [|exact Hid].
  rewrite Hst, Hrs, (total_insert _ _ _ i r r') by assumption.
  destruct Hq' as [Hstate Hlen]. split; [exact Hstate | lia].
Qed.

Lemma pass_queue (n p : Z) (order : list nat) (pl : Platform.t) (flag flag' : bool)
  (s s' : Sim) :
  pass order flag s = Done flag' s' -> NoDup (robots s) ->
  (forall i, i ∈ order -> i ∈ robots s) -> 0 <= n ->
  platform_map s !! p = Some pl ->
  queue_counts n (total (occupies p) (store s) (robots s)) pl ->
  exists pl',
    platform_map s' !! p = Some pl' /\
    queue_counts n (total (occupies p) (store s') (robots s')) pl' /\
    (idle_when_empty pl -> idle_when_empty pl').
Proof.
  revert flag s pl. induction order as [|i order IH]; intros flag s pl; simpl.
  - intros [= <- <-] _ _ _ Hpl Hq. exists pl.
    split; [exact Hpl|]. split; [exact Hq | tauto].
  - destruct (evaluate i s) as [a s1 | e s1] eqn:He; [|discriminate].
    intros Hpass Hnd Hsub Hn Hpl Hq.
    destruct (evaluate_queue n p pl i s s1 a He Hnd (Hsub i ltac:(left)) Hn
                Hpl Hq) as (pl1 & Hpl1 & Hq1 & Hid1).
    pose proof (evaluate_same_but i s) as (Hrs & _).
    rewrite He in Hrs. simpl in Hrs.
    destruct (IH _ _ pl1 Hpass) as (pl' & Hpl' & Hq' & Hid'); try assumption.
    + now rewrite Hrs.
    + intros j Hj. rewrite Hrs. apply Hsub. now right.
    + exists pl'. split; [exact Hpl'|]. split; [exact Hq' | tauto].
Qed.

Lemma run_queue (n p : Z) (fuel : nat) (pl : Platform.t) (s s' : Sim) :
  run fuel s = Some (Done tt s') -> NoDup (robots s) -> 0 <= n ->
  platform_map s !! p = Some pl ->
  queue_counts n (total (occupies p) (store s) (robots s)) pl ->
  exists pl',
    platform_map s' !! p = Some pl' /\
    queue_counts n (total (occupies p) (store s') (robots s')) pl' /\
    (idle_when_empty pl -> idle_when_empty pl').
Proof.
  revert s pl. induction fuel as [|fuel IH]; intros s pl; simpl; [discriminate|].
  pose proof (tick_robots s) as Hrs.
  destruct (tick s) as [a s1 | e s1] eqn:Htick; simpl in Hrs; [|discriminate].
  intros Hrun Hnd Hn Hpl Hq.
  assert (Hstep : exists pl1,
            platform_map s1 !! p = Some pl1 /\
            queue_counts n (total (occupies p) (store s1) (robots s1)) pl1 /\
            (idle_when_empty pl -> idle_when_empty pl1)).
  { unfold tick in Htick. cbv zeta in Htick.
    apply (pass_queue n p _ pl _ _ _ _ Htick); try assumption.
    intros i Hi. now apply elem_of_sorted in Hi. }
  destruct Hstep as (pl1 & Hpl1 & Hq1 & Hid1).
  destruct a.
  - destruct (IH s1 pl1 Hrun) as (pl' & Hpl' & Hq' & Hid'); try assumption.
    + now rewrite Hrs.
    + exists pl'. split; [exact Hpl'|]. split; [exact Hq' | tauto].
  - injection Hrun as <-. now exists pl1.
Qed.

Lemma init_loop_queue (refs : list nat) (base : Z -> Z) (s s' : Sim) :
  NoDup refs -> init_loop refs s = Done tt s' ->
  (forall p pl, platform_map s !! p = Some pl ->
     Z.of_nat (length (Platform.cur_visitor pl)) = base p) ->
  forall p pl', platform_map s' !! p = Some pl' ->
    Z.of_nat (length (Platform.cur_visitor pl')) =
    base p + total (occupies p) (store s') refs.
Proof.
  revert base s. induction refs as [|i refs IH]; intros base s Hnd; simpl.
  - intros [= <-] Hbase p pl Hp. specialize (Hbase p pl Hp). lia.
  - apply NoDup_cons in Hnd as [Hi Hnd].
    destruct (init_robot i s) as [[] s1 | e s1] eqn:Hinit; [|discriminate].
    intros Hloop Hbase p pl' Hp'.
    pose proof (init_loop_same_outside refs s1) as (_ & _ & Hout).
    rewrite Hloop in Hout. simpl in Hout. rewrite (Hout i Hi).
    apply init_robot_done in Hinit
      as (r & q & rest & plq & d & Hr & Hq & Hplq & Hd & ->).
    simpl in Hout |- *.
    rewrite list_lookup_insert_eq by (eapply lookup_lt_Some; exact Hr).
    set (r1 := Robot.mk _ _ _ 1 (q :: rest) d _) in *.
    specialize (IH (fun p0 => base p0 + occupies p0 r1) _ Hnd Hloop).
    simpl in IH.
    rewrite Z.add_assoc. apply IH; [|exact Hp'].
    intros p0 pl0 Hp0.
    apply lookup_insert_Some in Hp0 as [[<- <-] | [Hne Hp0]]; simpl.
    + specialize (Hbase q plq Hplq). rewrite length_app. simpl.
      unfold occupies, r1. simpl. rewrite decide_True by tauto. lia.
    + specialize (Hbase p0 pl0 Hp0). unfold occupies, r1. simpl.
      rewrite decide_False; [lia|]. intros [_ [= ->]]. contradiction.
Qed.

(** X17: the queues balance.  When the program completes, a platform that
    was busy or free at first has as many ids in its queue as it had at
    first, each arrival having been undone by a departure; and if at first
    it was free with no time left whenever its queue was empty, so it is at
    the end.  A platform as the loader builds it is hence found free, with
    no time left and an empty queue. *)
Theorem queues_balance (rs : list Robot.t) (pm : gmap Z Platform.t)
  (fuel : nat) (s : Sim) (p : Z) (pl pl' : Platform.t)
  (Hrun : schedule fuel rs pm = Some (Done tt s))
  (Hp : pm !! p = Some pl)
  (Hstate : Platform.state pl = 1 \/ Platform.state pl = 2)
  (Hp' : platform_map s !! p = Some pl') :
  length (Platform.cur_visitor pl') = length (Platform.cur_visitor pl) /\
  (idle_when_empty pl -> idle_when_empty pl').
Proof.
  unfold schedule in Hrun.
  destruct (RobotScheduler_init rs pm) as [[] s0 | e s0] eqn:Hinit;
    [|discriminate].
  destruct (init_done rs pm s0 Hinit) as (Hrefs & _ & _).
  pose proof Hinit as Hloop. unfold RobotScheduler_init in Hloop.
  destruct (pick rs [0; 2; 1; 3]%nat) as [refs|] eqn:Hpick; [|discriminate].
  apply pick_some in Hpick as ->.
  destruct (init_loop_platforms _ _ _ NoDup_reorder Hloop p pl Hp)
    as (pl0 & Hpl0 & _ & Hqueue & _ & Hlast). cbn [store] in Hqueue, Hlast.
  assert (Hq0 : queue_counts (Z.of_nat (length (Platform.cur_visitor pl)))
                  (total (occupies p) (store s0) (robots s0)) pl0).
  { split.
    - destruct (last (starters rs [0; 2; 1; 3]%nat p));
        [left; tauto | destruct Hlast as [-> _]; exact Hstate].
    - rewrite Hrefs.
      pose proof (init_loop_queue _
                    (fun q => match pm !! q with
                              | Some plq =>
                                  Z.of_nat (length (Platform.cur_visitor plq))
                              | None => 0
                              end) _ _ NoDup_reorder Hloop) as Hcount.
      simpl in Hcount. rewrite (Hcount ltac:(now intros q plq ->) p pl0 Hpl0), Hp.
      reflexivity. }
  assert (Hidle0 : idle_when_empty pl -> idle_when_empty pl0).
  { intros Hidle Hempty. rewrite Hqueue in Hempty.
    apply app_nil in Hempty as [Hempty Hnone].
    apply fmap_nil_inv in Hnone. rewrite Hnone in Hlast. simpl in Hlast.
    destruct Hlast as [-> ->]. now apply Hidle. }
  assert (Hnd : NoDup (robots s0)) by (rewrite Hrefs; exact NoDup_reorder).
  destruct (run_queue (Z.of_nat (length (Platform.cur_visitor pl))) p fuel pl0
              s0 s Hrun Hnd ltac:(lia) Hpl0 Hq0)
    as (pl2 & Hpl2 & [_ Hlen] & Hidle).
  rewrite Hp' in Hpl2. injection Hpl2 as <-.
  split; [|tauto].
  pose proof (run_all_done fuel s0 s Hrun) as Hdone.
  assert (Hzero : total (occupies p) (store s) (robots s) = 0).
  { apply total_zero. intros i r Hi Hr. unfold occupies.
    rewrite (Hdone i r Hi Hr). simpl. apply decide_False. now intros [_ ?]. }
  lia.
Qed.

Lemma queues_balance_witness :
  exists s pl',
    schedule 50 crowded_fleet three_platforms = Some (Done tt s) /\
    platform_map s !! 1 = Some pl' /\
    Platform.cur_visitor pl' = [] /\
    Platform.state pl' = 2 /\ Platform.time_left pl' = 0.
Proof.
  destruct (schedule 50 crowded_fleet three_platforms) as [[[] s | e s]|] eqn:Hrun;
    try (vm_compute in Hrun; discriminate).
  destruct (platform_map s !! 1) as [pl'|] eqn:Hp'.
  2:{ exfalso. vm_compute in Hrun. injection Hrun as <-.
      vm_compute in Hp'. discriminate. }
  exists s, pl'. split; [reflexivity|]. split; [exact Hp'|].
  destruct (queues_balance crowded_fleet three_platforms 50 s 1
              (loaded_platform 1 "A") pl' Hrun eq_refl ltac:(now right) Hp')
    as [Hlen Hidle].
  apply nil_length_inv in Hlen. split; [exact Hlen|].
  apply Hidle; [|exact Hlen]. intros _. now split.
Defined.

(** ** A robot with a single platform *)

(** What an evaluation that completes makes of a working robot. *)
Lemma evaluate_working (i : nat) (s s' : Sim) (a : bool) (r : Robot.t) (p : Z)
  (rest : list Z) :
  evaluate i s = Done a s' -> store s !! i = Some r ->
  Robot.state r = 1 -> Robot.path r = p :: rest ->
  store s' !! i =
    Some (if 0 <? Robot.time_left r
          then Robot.mk (Robot.robot_id r) (Robot.kind r) (Robot.velocity r) 1
                 (p :: rest) (Robot.time_left r - 1) (Robot.time_spend r + 1)
          else Robot.mk (Robot.robot_id r) (Robot.kind r) (Robot.velocity r) 3
                 rest (Robot.velocity r - 1) (Robot.time_spend r + 1)).
Proof.
  intros He Hr Hstate Hp.
  assert (Hlt : (i < length (store s))%nat) by (eapply lookup_lt_Some; exact Hr).
  unfold evaluate in He. rewrite Hr, Hp in He.
  step_cases; try discriminate; simplify_eq; bool_to_prop; simpl.
  all: rewrite ?list_insert_insert_eq, ?list_lookup_insert_eq by exact Hlt.
  all: try (exfalso; lia).
  all: unfold Robot.with_time_left, Robot.with_time_spend, Robot.with_state,
         Robot.with_path; simpl; rewrite ?Hstate, ?Hp; reflexivity.
Qed.

Lemma pass_working (order : list nat) (flag flag' : bool) (s s' : Sim) (i : nat)
  (r : Robot.t) (p : Z) (rest : list Z) :
  pass order flag s = Done flag' s' -> NoDup order -> i ∈ order ->
  store s !! i = Some r -> Robot.state r = 1 -> Robot.path r = p :: rest ->
  store s' !! i =
    Some (if 0 <? Robot.time_left r
          then Robot.mk (Robot.robot_id r) (Robot.kind r) (Robot.velocity r) 1
                 (p :: rest) (Robot.time_left r - 1) (Robot.time_spend r + 1)
          else Robot.mk (Robot.robot_id r) (Robot.kind r) (Robot.velocity r) 3
                 rest (Robot.velocity r - 1) (Robot.time_spend r + 1)).
Proof.
  revert flag s. induction order as [|j order IH]; intros flag s; simpl.
  - intros _ _ Hi. now apply elem_of_nil in Hi.
  - destruct (evaluate j s) as [a s1 | e s1] eqn:He; [|discriminate].
    intros Hpass [Hj Hnd]%NoDup_cons Hi Hr Hstate Hp.
    pose proof (evaluate_same_but j s) as (_ & _ & _ & Hother).
    rewrite He in Hother. simpl in Hother.
    apply elem_of_cons in Hi as [-> | Hi].
    + rewrite <- (evaluate_working j s s1 a r p rest He Hr Hstate Hp).
      pose proof (pass_same_outside order (flag || a) s1) as (_ & _ & Hout).
      rewrite Hpass in Hout. simpl in Hout. now apply Hout.
    + apply (IH _ _ Hpass Hnd Hi); [|exact Hstate|exact Hp].
      rewrite Hother; [exact Hr|]. intros ->. contradiction.
Qed.

Lemma run_last_platform (fuel : nat) (s s' : Sim) (i : nat) (r : Robot.t)
  (p : Z) :
  run fuel s = Some (Done tt s') -> NoDup (robots s) -> i ∈ robots s ->
  store s !! i = Some r -> Robot.state r = 1 -> Robot.path r = [p] ->
  0 <= Robot.time_left r ->
  exists r', store s' !! i = Some r' /\
    Robot.time_spend r' = Robot.time_spend r + Robot.time_left r + 1.
Proof.
  revert s r. induction fuel as [|fuel IH]; intros s r; simpl; [discriminate|].
  pose proof (tick_robots s) as Hrs.
  destruct (tick s) as [a s1 | e s1] eqn:Htick; simpl in Hrs; [|discriminate].
  intros Hrun Hnd Hi Hr Hstate Hp Hleft.
  assert (Hr1 : store s1 !! i =
            Some (if 0 <? Robot.time_left r
                  then Robot.mk (Robot.robot_id r) (Robot.kind r)
                         (Robot.velocity r) 1 [p] (Robot.time_left r - 1)
                         (Robot.time_spend r + 1)
                  else Robot.mk (Robot.robot_id r) (Robot.kind r)
                         (Robot.velocity r) 3 [] (Robot.velocity r - 1)
                         (Robot.time_spend r + 1))).
  { pose proof Htick as Hpass. unfold tick in Hpass. cbv zeta in Hpass.
    apply (pass_working _ _ _ _ _ i r p [] Hpass); try assumption.
    - now apply sorted_NoDup.
    - now apply elem_of_sorted. }
  assert (Ha : a = true).
  { destruct a; [reflexivity|]. exfalso.
    destruct (tick_exit s false s1 Htick) as [[Hdone _] _].
    specialize (Hdone eq_refl i r Hi Hr). congruence. }
  subst a.
  assert (Hnd1 : NoDup (robots s1)) by now rewrite Hrs.
  assert (Hi1 : i ∈ robots s1) by now rewrite Hrs.
  destruct (0 <? Robot.time_left r) eqn:Hpos; bool_to_prop.
  - destruct (IH s1 _ Hrun Hnd1 Hi1 Hr1 eq_refl eq_refl) as (r' & Hr' & Ht');
      [simpl; lia|].
    exists r'. split; [exact Hr'|]. simpl in Ht'. lia.
  - destruct (run_time_spend fuel s1 s' Hnd1 Hrun) as [Hkeep _].
    destruct (Hkeep i _ Hi1 Hr1) as (r' & Hr' & _ & _ & Hsame).
    exists r'. split; [exact Hr'|]. rewrite (Hsame eq_refl). simpl. lia.
Qed.

(** The robot referenced by [i] as the constructor leaves it. *)
Lemma init_loop_started (refs : list nat) (s s' : Sim) (i : nat) (r : Robot.t)
  (p : Z) (rest : list Z) (pl : Platform.t) :
  NoDup refs -> init_loop refs s = Done tt s' -> i ∈ refs ->
  store s !! i = Some r -> Robot.path r = p :: rest ->
  platform_map s !! p = Some pl ->
  exists d,
    action (Robot.kind r) (Platform.node_type pl) = inr d /\
    store s' !! i =
      Some (Robot.mk (Robot.robot_id r) (Robot.kind r) (Robot.velocity r) 1
              (p :: rest) d (Robot.time_spend r)).
Proof.
  revert s pl. induction refs as [|j refs IH]; intros s pl Hnd; simpl.
  - intros _ Hi. now apply elem_of_nil in Hi.
  - apply NoDup_cons in Hnd as [Hj Hnd].
    destruct (init_robot j s) as [[] s1 | e s1] eqn:Hinit; [|discriminate].
    intros Hloop Hi Hr Hp Hpl.
    pose proof (init_robot_static j s) as [_ Hpm]. rewrite Hinit in Hpm.
    simpl in Hpm. specialize (Hpm p). rewrite Hpl in Hpm.
    destruct Hpm as (pl1 & Hpl1 & _ & Hnt & _).
    pose proof (init_robot_same_but j s) as (_ & _ & _ & Hother).
    rewrite Hinit in Hother. simpl in Hother.
    apply elem_of_cons in Hi as [-> | Hi].
    + pose proof (init_loop_same_outside refs s1) as (_ & _ & Hout).
      rewrite Hloop in Hout. simpl in Hout. rewrite (Hout j Hj).
      apply init_robot_done in Hinit
        as (r2 & q & rest2 & plq & d & Hr2 & Hq & Hplq & Hd & ->).
      rewrite Hr in Hr2. injection Hr2 as <-.
      rewrite Hp in Hq. injection Hq as <- <-.
      rewrite Hpl in Hplq. injection Hplq as <-.
      exists d. split; [exact Hd|]. simpl.
      apply list_lookup_insert_eq. eapply lookup_lt_Some; exact Hr.
    + destruct (IH s1 pl1 Hnd Hloop Hi) as (d & Hd & Hr'); try assumption.
      * rewrite Hother; [exact Hr|]. intros ->. contradiction.
      * exists d. rewrite <- Hnt. now split.
Qed.

(** X19: a scheduled robot whose path is a single platform.  When the
    program completes, such a robot has spent one tick more than the
    duration [action] gives for the platform, whatever the other robots
    do there: the duration is counted down to 0 from the first tick on, and
    the tick in which the robot leaves counts as well. *)
Theorem single_platform_robot (rs : list Robot.t) (pm : gmap Z Platform.t)
  (fuel : nat) (s : Sim) (i : nat) (r : Robot.t) (p : Z) (pl : Platform.t)
  (Hrun : schedule fuel rs pm = Some (Done tt s))
  (Hi : i ∈ [0; 2; 1; 3]%nat)
  (Hr : rs !! i = Some r)
  (Hpath : Robot.path r = [p])
  (Hpl : pm !! p = Some pl) :
  exists d r',
    action (Robot.kind r) (Platform.node_type pl) = inr d /\
    store s !! i = Some r' /\
    Robot.time_spend r' = Robot.time_spend r + d + 1.
Proof.
  unfold schedule in Hrun.
  destruct (RobotScheduler_init rs pm) as [[] s0 | e s0] eqn:Hinit;
    [|discriminate].
  destruct (init_done rs pm s0 Hinit) as (Hrefs & _ & _).
  unfold RobotScheduler_init in Hinit.
  destruct (pick rs [0; 2; 1; 3]%nat) as [refs|] eqn:Hpick; [|discriminate].
  apply pick_some in Hpick as ->.
  destruct (init_loop_started _ _ _ i r p [] pl NoDup_reorder Hinit Hi Hr Hpath Hpl)
    as (d & Hd & Hr0).
  assert (Hnd : NoDup (robots s0)) by (rewrite Hrefs; exact NoDup_reorder).
  assert (Hi0 : i ∈ robots s0) by now rewrite Hrefs.
  destruct (run_last_platform fuel s0 s i _ p Hrun Hnd Hi0 Hr0 eq_refl eq_refl)
    as (r' & Hr' & Ht').
  { simpl. pose proof (action_bounds _ _ _ Hd). lia. }
  exists d, r'. split; [exact Hd|]. split; [exact Hr'|]. exact Ht'.
Qed.

Lemma single_platform_robot_witness :
  exists s r',
    schedule 50 crowded_fleet three_platforms = Some (Done tt s) /\
    store s !! 0%nat = Some r' /\ Robot.time_spend r' = 0 + 30 + 1.
Proof.
  destruct (schedule 50 crowded_fleet three_platforms) as [[[] s | e s]|] eqn:Hrun;
    try (vm_compute in Hrun; discriminate).
  destruct (single_platform_robot crowded_fleet three_platforms 50 s 0
              (loaded_robot 1 Organizer 1 [1]) 1 (loaded_platform 1 "A")
              Hrun ltac:(left) eq_refl eq_refl eq_refl)
    as (d & r' & Hd & Hr' & Ht').
  injection Hd as <-. exists s, r'.
  split; [reflexivity|]. split; [exact Hr' | exact Ht'].
Defined.

(** ** The two-platform scenario, in general *)

(** *** Platforms an evaluation leaves alone *)

Lemma evaluate_untouched (p : Z) (j : nat) (s : Sim) :
  (forall rj, store s !! j = Some rj -> quiet p rj) ->
  platform_map (final (evaluate j s)) !! p = platform_map s !! p.
Proof.
  intros Hq. unfold evaluate.
  destruct (store s !! j) as [r|] eqn:Hr; [|reflexivity].
  destruct (Robot.path r) as [|p0 rest] eqn:Hp; [reflexivity|].
  specialize (Hq r eq_refl). unfold quiet in Hq. rewrite Hp in Hq. simpl in Hq.
  step_cases; bool_to_prop; try reflexivity.
  all: destruct (decide (p0 = p)) as [->|Hne];
    [exfalso; destruct Hq as [Hq | [Hq1 Hq2]]; first [congruence | lia]
    | now rewrite lookup_insert_ne by exact Hne].
Qed.

Lemma pass_untouched (p : Z) (order : list nat) (flag : bool) (s : Sim) :
  NoDup order ->
  (forall j rj, j ∈ order -> store s !! j = Some rj -> quiet p rj) ->
  platform_map (final (pass order flag s)) !! p = platform_map s !! p.
Proof.
  revert flag s. induction order as [|j order IH]; intros flag s Hnd Hq; simpl;
    [reflexivity|].
  apply NoDup_cons in Hnd as [Hj Hnd].
  pose proof (evaluate_untouched p j s (fun rj => Hq j rj ltac:(left))) as Hp.
  pose proof (evaluate_same_but j s) as (_ & _ & _ & Hother).
  destruct (evaluate j s) as [a s1 | e s1]; simpl in *; [|exact Hp].
  rewrite IH; [exact Hp | exact Hnd |].
  intros k rk Hk Hrk. apply (Hq k rk); [now right|].
  rewrite <- Hother; [exact Hrk|]. intros ->. contradiction.
Qed.

Lemma tick_untouched (p : Z) (s : Sim) :
  NoDup (robots s) ->
  (forall j rj, j ∈ robots s -> store s !! j = Some rj -> quiet p rj) ->
  platform_map (final (tick s)) !! p = platform_map s !! p.
Proof.
  intros Hnd Hq. unfold tick. cbv zeta.
  rewrite pass_untouched; [reflexivity | now apply sorted_NoDup |].
  intros j rj Hj Hrj. apply elem_of_sorted in Hj. now apply (Hq j rj).
Qed.

(** *** A moving robot in one tick *)

Lemma evaluate_moving (i : nat) (s s' : Sim) (a : bool) (r : Robot.t) (p : Z)
  (rest : list Z) :
  evaluate i s = Done a s' -> store s !! i = Some r ->
  Robot.state r = 3 -> Robot.path r = p :: rest ->
  (0 < Robot.time_left r ->
   store s' !! i =
     Some (Robot.mk (Robot.robot_id r) (Robot.kind r) (Robot.velocity r) 3
             (p :: rest) (Robot.time_left r - 1) (Robot.time_spend r + 1))) /\
  (Robot.time_left r <= 0 ->
   forall pl d, platform_map s !! p = Some pl -> Platform.state pl = 2 ->
     action (Robot.kind r) (Platform.node_type pl) = inr d ->
     store s' !! i =
       Some (Robot.mk (Robot.robot_id r) (Robot.kind r) (Robot.velocity r) 1
               (p :: rest) (d - 1) (Robot.time_spend r + 1))).
Proof.
  intros He Hr Hstate Hp.
  assert (Hlt : (i < length (store s))%nat) by (eapply lookup_lt_Some; exact Hr).
  unfold evaluate in He. rewrite Hr, Hp in He.
  step_cases; try discriminate; simplify_eq; bool_to_prop; simpl.
  all: rewrite ?list_insert_insert_eq, ?list_lookup_insert_eq by exact Hlt.
  all: try (exfalso; lia).
  all: split; [intros Hpos | intros Hzero pl d Hpl Hfree Hd]; try (exfalso; lia).
  all: simplify_eq; try (exfalso; lia).
  all: unfold Robot.with_time_left, Robot.with_time_spend, Robot.with_state,
         Robot.with_path; simpl; rewrite ?Hstate, ?Hp; try reflexivity.
  all: simpl in *; simplify_eq; try reflexivity; try (exfalso; lia).
  all: congruence.
Qed.

Lemma pass_moving (order : list nat) (flag flag' : bool) (s s' : Sim) (i : nat)
  (r : Robot.t) (p : Z) (rest : list Z) :
  pass order flag s = Done flag' s' -> NoDup order -> i ∈ order ->
  store s !! i = Some r -> Robot.state r = 3 -> Robot.path r = p :: rest ->
  (0 < Robot.time_left r ->
   store s' !! i =
     Some (Robot.mk (Robot.robot_id r) (Robot.kind r) (Robot.velocity r) 3
             (p :: rest) (Robot.time_left r - 1) (Robot.time_spend r + 1))) /\
  (Robot.time_left r <= 0 ->
   (forall j rj, j ∈ order -> j <> i -> store s !! j = Some rj ->
      head (Robot.path rj) <> Some p) ->
   forall pl d, platform_map s !! p = Some pl -> Platform.state pl = 2 ->
     action (Robot.kind r) (Platform.node_type pl) = inr d ->
     store s' !! i =
       Some (Robot.mk (Robot.robot_id r) (Robot.kind r) (Robot.velocity r) 1
               (p :: rest) (d - 1) (Robot.time_spend r + 1))).
Proof.
  revert flag s. induction order as [|j order IH]; intros flag s; simpl.
  - intros _ _ Hi. now apply elem_of_nil in Hi.
  - destruct (evaluate j s) as [a s1 | e s1] eqn:He; [|discriminate].
    intros Hpass [Hj Hnd]%NoDup_cons Hi Hr Hstate Hp.
    pose proof (evaluate_same_but j s) as (_ & _ & _ & Hother).
    rewrite He in Hother. simpl in Hother.
    apply elem_of_cons in Hi as [-> | Hi].
    + pose proof (pass_same_outside order (flag || a) s1) as (_ & _ & Hout).
      rewrite Hpass in Hout. simpl in Hout. rewrite (Hout j Hj).
      destruct (evaluate_moving j s s1 a r p rest He Hr Hstate Hp) as [H1 H2].
      split; [exact H1|]. intros Hzero _. now apply H2.
    + assert (Hne : i <> j) by (intros ->; contradiction).
      assert (Hr1 : store s1 !! i = Some r) by (now rewrite Hother).
      destruct (IH _ _ Hpass Hnd Hi Hr1 Hstate Hp) as [H1 H2].
      split; [exact H1|]. intros Hzero Hquiet pl d Hpl Hfree Hd.
      apply (H2 Hzero) with (pl := pl); try assumption.
      * intros k rk Hk Hki Hrk. apply (Hquiet k rk); [now right | exact Hki |].
        rewrite <- Hother; [exact Hrk|]. intros ->. contradiction.
      * pose proof (evaluate_untouched p j s) as Hsame. rewrite He in Hsame.
        simpl in Hsame. rewrite Hsame; [exact Hpl|].
        intros rj Hrj. left.
        apply (Hquiet j rj); [now left | congruence | exact Hrj].
Qed.

(** *** Ticks of one robot *)

Lemma tick_working (s s' : Sim) (a : bool) (i : nat) (r : Robot.t) (p : Z)
  (rest : list Z) :
  tick s = Done a s' -> NoDup (robots s) -> i ∈ robots s ->
  store s !! i = Some r -> Robot.state r = 1 -> Robot.path r = p :: rest ->
  store s' !! i =
    Some (if 0 <? Robot.time_left r
          then Robot.mk (Robot.robot_id r) (Robot.kind r) (Robot.velocity r) 1
                 (p :: rest) (Robot.time_left r - 1) (Robot.time_spend r + 1)
          else Robot.mk (Robot.robot_id r) (Robot.kind r) (Robot.velocity r) 3
                 rest (Robot.velocity r - 1) (Robot.time_spend r + 1)).
Proof.
  intros Htick Hnd Hi Hr Hstate Hp. unfold tick in Htick. cbv zeta in Htick.
  apply (pass_working _ _ _ _ _ i r p rest Htick); try assumption.
  - now apply sorted_NoDup.
  - now apply elem_of_sorted.
Qed.

Lemma tick_moving (s s' : Sim) (a : bool) (i : nat) (r : Robot.t) (p : Z)
  (rest : list Z) :
  tick s = Done a s' -> NoDup (robots s) -> i ∈ robots s ->
  store s !! i = Some r -> Robot.state r = 3 -> Robot.path r = p :: rest ->
  (0 < Robot.time_left r ->
   store s' !! i =
     Some (Robot.mk (Robot.robot_id r) (Robot.kind r) (Robot.velocity r) 3
             (p :: rest) (Robot.time_left r - 1) (Robot.time_spend r + 1))) /\
  (Robot.time_left r <= 0 ->
   (forall j rj, j ∈ robots s -> j <> i -> store s !! j = Some rj ->
      head (Robot.path rj) <> Some p) ->
   forall pl d, platform_map s !! p = Some pl -> Platform.state pl = 2 ->
     action (Robot.kind r) (Platform.node_type pl) = inr d ->
     store s' !! i =
       Some (Robot.mk (Robot.robot_id r) (Robot.kind r) (Robot.velocity r) 1
               (p :: rest) (d - 1) (Robot.time_spend r + 1))).
Proof.
  intros Htick Hnd Hi Hr Hstate Hp. unfold tick in Htick. cbv zeta in Htick.
  destruct (pass_moving _ _ _ _ _ i r p rest Htick) as [H1 H2]; try assumption.
  - now apply sorted_NoDup.
  - now apply elem_of_sorted.
  - split; [exact H1|]. intros Hzero Hquiet pl d Hpl Hfree Hd.
    apply (H2 Hzero) with (pl := pl); try assumption.
    intros j rj Hj Hne Hrj. apply elem_of_sorted in Hj. now apply (Hquiet j rj).
Qed.

(** A robot that has finished is never written again. *)
Lemma pass_finished (order : list nat) (flag : bool) (s : Sim) (i : nat)
  (r : Robot.t) :
  store s !! i = Some r -> Robot.path r = [] ->
  store (final (pass order flag s)) !! i = Some r.
Proof.
  revert flag s. induction order as [|j order IH]; intros flag s Hr Hp; simpl;
    [exact Hr|].
  assert (Hr1 : store (final (evaluate j s)) !! i = Some r).
  { destruct (decide (j = i)) as [->|Hne].
    - now rewrite (evaluate_empty_path i s r Hr Hp).
    - pose proof (evaluate_same_but j s) as (_ & _ & _ & Hother).
      rewrite Hother by congruence. exact Hr. }
  destruct (evaluate j s) as [a s1 | e s1]; simpl in *; [|exact Hr1].
  now apply IH.
Qed.

Lemma run_finished (fuel : nat) (s : Sim) (o : outcome unit) (i : nat)
  (r : Robot.t) :
  run fuel s = Some o -> store s !! i = Some r -> Robot.path r = [] ->
  store (final o) !! i = Some r.
Proof.
  revert s. induction fuel as [|fuel IH]; intros s; simpl; [discriminate|].
  intros Hrun Hr Hp.
  assert (Hr1 : store (final (tick s)) !! i = Some r).
  { unfold tick. cbv zeta. now apply pass_finished. }
  destruct (tick s) as [[|] s1 | e s1]; simpl in Hr1.
  - now apply (IH s1).
  - now injection Hrun as <-.
  - now injection Hrun as <-.
Qed.

Lemma ticks_times (n : nat) (s s' : Sim) :
  ticks n s = Done true s' -> times s' = times s + Z.of_nat n.
Proof.
  revert s. induction n as [|n IH]; intros s; simpl.
  - intros [= <-]. lia.
  - pose proof (tick_times s) as Ht.
    destruct (tick s) as [[|] s1 | e s1]; simpl in Ht; try discriminate.
    intros Hn. rewrite (IH s1 Hn). lia.
Qed.

Lemma run_times_lower (fuel : nat) (s : Sim) (o : outcome unit) :
  run fuel s = Some o -> times s + 1 <= times (final o).
Proof.
  revert s. induction fuel as [|fuel IH]; intros s; simpl; [discriminate|].
  pose proof (tick_times s) as Ht.
  destruct (tick s) as [[|] s1 | e s1]; simpl in Ht.
  - intros Hrun. specialize (IH s1 Hrun). lia.
  - intros [= <-]. simpl. lia.
  - intros [= <-]. simpl. lia.
Qed.

(** *** The organizer, tick by tick *)

Section Scenario.

Variables (rs : list Robot.t) (i : nat) (id ts P1 P2 : Z).
Hypothesis Hi : i ∈ [0; 2; 1; 3]%nat.
Hypothesis Hne : P1 <> P2.
Hypothesis Hothers : forall j rj,
  j ∈ [0; 2; 1; 3]%nat -> j <> i -> rs !! j = Some rj -> P2 ∉ Robot.path rj.

Lemma others_keep_off (st : list Robot.t) (j : nat) (rj : Robot.t) :
  robot_static rs st -> j ∈ [0; 2; 1; 3]%nat -> j <> i -> st !! j = Some rj ->
  head (Robot.path rj) <> Some P2.
Proof.
  intros Hstatic Hj Hji Hrj Hhead.
  destruct (robot_static_back _ _ j rj Hstatic Hrj) as (r0 & Hr0 & [k Hk] & _).
  apply (Hothers j r0 Hj Hji Hr0). rewrite Hk. apply elem_of_app. right.
  now apply head_elem_of.
Qed.

Lemma scenario_step (t : nat) (st st' : Sim) (a : bool) :
  (t <= 80)%nat -> scenario_inv rs i id ts P1 P2 t st -> tick st = Done a st' ->
  a = true /\ scenario_inv rs i id ts P1 P2 (S t) st'.
Proof.
  intros Ht (Hrs & Hstatic & Hr & HP2) Htick.
  assert (Hnd : NoDup (robots st)) by (rewrite Hrs; exact NoDup_reorder).
  assert (Hin : i ∈ robots st) by now rewrite Hrs.
  pose proof (tick_robots st) as Hrs'. pose proof (tick_static st) as [Hst' _].
  rewrite Htick in Hrs', Hst'. simpl in Hrs', Hst'.
  assert (Hpath : Robot.path (organizer_at id ts P1 P2 t) <> []).
  { unfold organizer_at.
    destruct (Nat.leb_spec t 30), (Nat.leb_spec t 35), (Nat.leb_spec t 80);
      simpl; first [discriminate | lia]. }
  split.
  { destruct a; [reflexivity|]. exfalso.
    destruct (tick_exit st false st' Htick) as [[Hdone _] _].
    exact (Hpath (Hdone eq_refl i _ Hin Hr)). }
  split; [now rewrite Hrs'|].
  split; [exact (robot_static_trans _ _ _ Hstatic Hst')|].
  split.
  - unfold organizer_at in Hr |- *.
    destruct (Nat.leb_spec t 30), (Nat.leb_spec t 35), (Nat.leb_spec t 80),
      (Nat.leb_spec (S t) 30), (Nat.leb_spec (S t) 35), (Nat.leb_spec (S t) 80);
      try lia.
    + rewrite (tick_working st st' a i _ _ _ Htick Hnd Hin Hr eq_refl eq_refl).
      simpl. destruct (Z.ltb_spec 0 (30 - Z.of_nat t)); [|lia].
      do 2 f_equal; lia.
    + rewrite (tick_working st st' a i _ _ _ Htick Hnd Hin Hr eq_refl eq_refl).
      simpl. destruct (Z.ltb_spec 0 (30 - Z.of_nat t)); [lia|].
      do 2 f_equal; lia.
    + destruct (tick_moving st st' a i _ _ _ Htick Hnd Hin Hr eq_refl eq_refl)
        as [Hcount _]. simpl in Hcount.
      rewrite Hcount by lia. do 2 f_equal; lia.
    + destruct (tick_moving st st' a i _ _ _ Htick Hnd Hin Hr eq_refl eq_refl)
        as [_ Harrive]. simpl in Harrive.
      destruct HP2 as (pl & Hpl & Hfree & Hnt); [lia|].
      rewrite (Harrive ltac:(lia)) with (pl := pl) (d := 45); try assumption.
      * do 2 f_equal; lia.
      * intros j rj Hj Hji Hrj. rewrite Hrs in Hj.
        exact (others_keep_off _ j rj Hstatic Hj Hji Hrj).
      * rewrite Hnt. reflexivity.
    + rewrite (tick_working st st' a i _ _ _ Htick Hnd Hin Hr eq_refl eq_refl).
      simpl. destruct (Z.ltb_spec 0 (80 - Z.of_nat t)); [|lia].
      do 2 f_equal; lia.
    + rewrite (tick_working st st' a i _ _ _ Htick Hnd Hin Hr eq_refl eq_refl).
      simpl. destruct (Z.ltb_spec 0 (80 - Z.of_nat t)); [lia|].
      do 2 f_equal; lia.
  - intros H35.
    pose proof (tick_untouched P2 st Hnd) as Hsame. rewrite Htick in Hsame.
    simpl in Hsame. rewrite Hsame; [apply HP2; lia|].
    intros j rj Hj Hrj. rewrite Hrs in Hj.
    destruct (decide (j = i)) as [->|Hji].
    + rewrite Hr in Hrj. injection Hrj as <-. unfold quiet, organizer_at.
      destruct (Nat.leb_spec t 30); simpl.
      * left. congruence.
      * destruct (Nat.leb_spec t 35); [|lia]. simpl. right. split; lia.
    + left. exact (others_keep_off _ j rj Hstatic Hj Hji Hrj).
Qed.

Lemma scenario_ticks (n : nat) (t : nat) (st s : Sim) (fuel : nat) :
  (t + n <= 81)%nat -> scenario_inv rs i id ts P1 P2 t st ->
  run fuel st = Some (Done tt s) ->
  exists st' fuel',
    ticks n st = Done true st' /\
    scenario_inv rs i id ts P1 P2 (t + n) st' /\
    run fuel' st' = Some (Done tt s) /\
    history n i st =
      (fun u => (Robot.state (organizer_at id ts P1 P2 u),
                 Robot.path (organizer_at id ts P1 P2 u))) <$> seq (S t) n.
Proof.
  revert t st fuel. induction n as [|n IH]; intros t st fuel Hle Hinv Hrun.
  - exists st, fuel. rewrite Nat.add_0_r.
    split; [reflexivity|]. split; [exact Hinv|]. split; [exact Hrun | reflexivity].
  - destruct fuel as [|fuel]; [discriminate|]. simpl in Hrun. simpl.
    destruct (tick st) as [a s1 | e s1] eqn:Htick.
    2:{ discriminate. }
    destruct (scenario_step t st s1 a ltac:(lia) Hinv Htick) as [-> Hinv1].
    destruct (IH (S t) s1 fuel ltac:(lia) Hinv1 Hrun)
      as (st' & fuel' & Hticks & Hinv' & Hrun' & Hhist).
    exists st', fuel'. rewrite Nat.add_succ_r.
    split; [exact Hticks|]. split; [exact Hinv'|]. split; [exact Hrun'|].
    destruct Hinv1 as (_ & _ & Hr1 & _). rewrite Hr1, Hhist. reflexivity.
Qed.

End Scenario.

(** A finite map of platforms that are busy or free has a largest
    [time_left]. *)
Lemma busy_or_free_bounded (pm : gmap Z Platform.t) :
  (forall p pl, pm !! p = Some pl ->
     Platform.state pl = 1 \/ Platform.state pl = 2) ->
  exists B, platforms_bounded B pm.
Proof.
  induction pm as [|p pl pm Hnone IH] using map_ind; intros Hstate.
  - exists 0. intros p pl Hp. now rewrite lookup_empty in Hp.
  - destruct IH as [B HB].
    { intros q plq Hq. apply (Hstate q plq).
      rewrite lookup_insert_ne; [exact Hq|]. intros ->. congruence. }
    exists (Z.max B (Platform.time_left pl)). intros q plq Hq.
    apply lookup_insert_Some in Hq as [[<- <-] | [Hne Hq]].
    + split; [|lia]. apply (Hstate p pl). apply lookup_insert_eq.
    + destruct (HB q plq Hq) as [H1 H2]. split; [exact H1 | lia].
Qed.

(** The state the constructor leaves in the scenario. *)
Lemma scenario_start (rs : list Robot.t) (pm : gmap Z Platform.t) (s0 : Sim)
  (i : nat) (r : Robot.t) (P1 P2 : Z) (pl1 pl2 : Platform.t) :
  RobotScheduler_init rs pm = Done tt s0 ->
  i ∈ [0; 2; 1; 3]%nat -> rs !! i = Some r ->
  Robot.kind r = Organizer -> Robot.velocity r = 5 ->
  Robot.path r = [P1; P2] ->
  pm !! P1 = Some pl1 -> Platform.node_type pl1 = "A"%string ->
  pm !! P2 = Some pl2 -> Platform.node_type pl2 = "B"%string ->
  Platform.state pl2 = 2 ->
  (forall j rj, j ∈ [0; 2; 1; 3]%nat -> j <> i -> rs !! j = Some rj ->
     P2 ∉ Robot.path rj) ->
  scenario_inv rs i (Robot.robot_id r) (Robot.time_spend r) P1 P2 0 s0.
Proof.
  intros Hinit Hi Hr Hkind Hvel Hpath HP1 HA HP2 HB Hfree Hothers.
  destruct (init_done rs pm s0 Hinit) as (Hrefs & _ & _).
  pose proof (init_static rs pm) as [Hstatic _]. rewrite Hinit in Hstatic.
  simpl in Hstatic.
  unfold RobotScheduler_init in Hinit.
  destruct (pick rs [0; 2; 1; 3]%nat) as [refs|] eqn:Hpick; [|discriminate].
  apply pick_some in Hpick as ->.
  split; [exact Hrefs|]. split; [exact Hstatic|]. split.
  - destruct (init_loop_started _ _ _ i r P1 [P2] pl1 NoDup_reorder Hinit Hi Hr
                Hpath HP1) as (d & Hd & Hstore).
    rewrite Hkind, HA in Hd. injection Hd as <-.
    rewrite Hstore, Hkind, Hvel. unfold organizer_at. simpl.
    do 2 f_equal; lia.
  - intros _.
    destruct (init_loop_platforms _ _ _ NoDup_reorder Hinit P2 pl2 HP2)
      as (pl & Hpl & Hnt & _ & _ & Hlast). cbn [store] in Hlast.
    exists pl. split; [exact Hpl|].
    destruct (starters rs [0; 2; 1; 3]%nat P2) as [|x l] eqn:Hstart.
    + simpl in Hlast. destruct Hlast as [-> _].
      split; [exact Hfree|]. now rewrite Hnt.
    + exfalso.
      assert (Hx : x ∈ starters rs [0; 2; 1; 3]%nat P2) by (rewrite Hstart; left).
      apply elem_of_starters in Hx as (j & Hj & Hrj & Hhead).
      destruct (decide (j = i)) as [->|Hji].
      * rewrite Hr in Hrj. injection Hrj as <-. rewrite Hpath in Hhead.
        injection Hhead as ->. rewrite HP1 in HP2. injection HP2 as ->.
        rewrite HA in HB. discriminate.
      * apply (Hothers j x Hj Hji Hrj). now apply head_elem_of.
Qed.

(** C6, amended.  The scheduler takes four robots, so the organizer of the
    scenario (velocity 5, path [[P1; P2]], [P1] of node type ['A'], [P2] of
    node type ['B']) is one of the four scheduled robots [rs].  If [P2] is
    free and on the path of no other scheduled robot, every scheduled robot
    has a path that is not empty over platforms of the map with node type
    ['A'] or ['B'], and every platform is busy or free, then the
    constructor and [run] complete, and the organizer is working at [P1] at
    the end of ticks 1 to 30, moving at the end of ticks 31 to 35 and
    working at [P2] at the end of ticks 36 to 80, whatever the other robots
    do elsewhere.  It has spent 80 ticks when its countdown at [P2] is
    over, and tick 81, in which it leaves [P2] and its path becomes empty,
    is counted as well: the run ends with 81 ticks added to its
    [time_spend], not 80, after 82 iterations or more. *)
Theorem organizer_scenario_81 (rs : list Robot.t) (pm : gmap Z Platform.t)
  (i : nat) (r : Robot.t) (P1 P2 : Z) (pl1 pl2 : Platform.t)
  (Hi : i ∈ [0; 2; 1; 3]%nat)
  (Hr : rs !! i = Some r)
  (Hkind : Robot.kind r = Organizer)
  (Hvel : Robot.velocity r = 5)
  (Hpath : Robot.path r = [P1; P2])
  (HP1 : pm !! P1 = Some pl1)
  (HA : Platform.node_type pl1 = "A"%string)
  (HP2 : pm !! P2 = Some pl2)
  (HB : Platform.node_type pl2 = "B"%string)
  (Hfree : Platform.state pl2 = 2)
  (Hothers : forall j rj, j ∈ [0; 2; 1; 3]%nat -> j <> i -> rs !! j = Some rj ->
     P2 ∉ Robot.path rj)
  (Hplat : forall p pl, pm !! p = Some pl ->
     Platform.state pl = 1 \/ Platform.state pl = 2)
  (Hfleet : forall j, j ∈ [0; 2; 1; 3]%nat ->
     exists rj, rs !! j = Some rj /\ Robot.path rj <> [] /\ path_ok pm rj) :
  exists fuel s0 s80 s,
    RobotScheduler_init rs pm = Done tt s0 /\
    history 81 i s0 =
      replicate 30 (1, [P1; P2]) ++ replicate 5 (3, [P2]) ++
      replicate 45 (1, [P2]) ++ [(3, [])] /\
    ticks 80 s0 = Done true s80 /\
    store s80 !! i =
      Some (Robot.mk (Robot.robot_id r) Organizer 5 1 [P2] 0
              (Robot.time_spend r + 80)) /\
    schedule fuel rs pm = Some (Done tt s) /\
    store s !! i =
      Some (Robot.mk (Robot.robot_id r) Organizer 5 3 [] 4
              (Robot.time_spend r + 81)) /\
    82 <= times s.
Proof.
  destruct (well_formed_init rs pm Hfleet) as (s0 & Hinit & Hsafe).
  destruct (busy_or_free_bounded pm Hplat) as [B HB'].
  destruct (safe_run_completes rs pm B s0 HB' Hinit Hsafe)
    as (fuel & s & Hrun & _ & _).
  assert (Hne : P1 <> P2).
  { intros ->. rewrite HP1 in HP2. injection HP2 as ->.
    rewrite HA in HB. discriminate. }
  pose proof (scenario_start rs pm s0 i r P1 P2 pl1 pl2 Hinit Hi Hr Hkind Hvel
                Hpath HP1 HA HP2 HB Hfree Hothers) as Hinv0.
  destruct (scenario_ticks rs i _ _ P1 P2 Hi Hne Hothers 80 0 s0 s fuel
              ltac:(lia) Hinv0 Hrun)
    as (s80 & fuel80 & Hticks80 & (_ & _ & Hr80 & _) & _ & _).
  destruct (scenario_ticks rs i _ _ P1 P2 Hi Hne Hothers 81 0 s0 s fuel
              ltac:(lia) Hinv0 Hrun)
    as (s81 & fuel81 & Hticks81 & (_ & _ & Hr81 & _) & Hrun81 & Hhist).
  exists fuel, s0, s80, s.
  split; [exact Hinit|]. split; [exact Hhist|]. split; [exact Hticks80|].
  split; [exact Hr80|]. split; [unfold schedule; now rewrite Hinit|].
  split.
  - exact (run_finished fuel81 s81 _ i _ Hrun81 Hr81 eq_refl).
  - destruct (init_done rs pm s0 Hinit) as (_ & Ht0 & _).
    pose proof (ticks_times 81 s0 s81 Hticks81) as Ht81.
    pose proof (run_times_lower fuel81 s81 _ Hrun81) as Hlow. simpl in Hlow.
    lia.
Qed.

Lemma organizer_scenario_81_witness :
  exists fuel s0 s80 s,
    RobotScheduler_init escorted_organizer five_platforms = Done tt s0 /\
    history 81 0 s0 =
      replicate 30 (1, [1; 2]) ++ replicate 5 (3, [2]) ++
      replicate 45 (1, [2]) ++ [(3, [])] /\
    ticks 80 s0 = Done true s80 /\
    store s80 !! 0%nat = Some (Robot.mk 1 Organizer 5 1 [2] 0 (0 + 80)) /\
    schedule fuel escorted_organizer five_platforms = Some (Done tt s) /\
    store s !! 0%nat = Some (Robot.mk 1 Organizer 5 3 [] 4 (0 + 81)) /\
    82 <= times s.
Proof.
  refine (organizer_scenario_81 escorted_organizer five_platforms 0
            (loaded_robot 1 Organizer 5 [1; 2]) 1 2
            (loaded_platform 1 "A") (loaded_platform 2 "B")
            _ eq_refl eq_refl eq_refl eq_refl eq_refl eq_refl eq_refl eq_refl
            eq_refl _ _ _).
  - left.
  - intros j rj Hj Hne Hrj.
    repeat (apply elem_of_cons in Hj as [-> | Hj]); [..|now apply elem_of_nil in Hj].
    all: try congruence.
    all: injection Hrj as <-; simpl.
    all: rewrite elem_of_cons, elem_of_nil; intros [? | []]; discriminate.
  - intros p pl H. unfold five_platforms in H.
    repeat (apply lookup_insert_Some in H as [[_ <-] | [_ H]];
            [simpl; now right|]).
    now rewrite lookup_empty in H.
  - intros j Hj.
    repeat (apply elem_of_cons in Hj as [-> | Hj]); [..|now apply elem_of_nil in Hj].
    all: eexists; split; [reflexivity|]; split; [discriminate|].
    all: intros p Hp; simpl in Hp.
    all: repeat (apply elem_of_cons in Hp as [-> | Hp]);
           [..|now apply elem_of_nil in Hp].
    all: eexists; split; [vm_compute; reflexivity | first [now left | now right]].
Defined.

(** ** Construction needs four robots, and takes four *)



(** * Properties of the loader, the writer and the main program *)

(** ** Rows *)

Lemma int_cell_inr (int : string -> option Z) (row : list string) (k : nat)
  (z : Z) :
  int_cell int row k = inr z <-> exists c, row !! k = Some c /\ int c = Some z.
Proof.
  unfold int_cell, cell, to_int, bind. split.
  - destruct (row !! k) as [c|]; [|discriminate].
    destruct (int c) as [z'|] eqn:Hc; [|discriminate].
    intros [= <-]. now exists c.
  - intros (c & -> & ->). reflexivity.
Qed.

Lemma robot_of_row_inr (int : string -> option Z) (row : list string)
  (r : Robot.t) :
  robot_of_row int row = inr r <->
  exists c0 c1 c2 more id v,
    row = c0 :: c1 :: c2 :: more /\ int c0 = Some id /\ int c2 = Some v /\
    ((c1 = "organizer"%string /\ r = loaded_robot id Organizer v []) \/
     (c1 = "mover"%string /\ r = loaded_robot id Mover v [])).
Proof.
  unfold robot_of_row, int_cell, cell, to_int, bind. split.
  - destruct row as [|c0 [|c1 [|c2 more]]]; simpl;
      try discriminate; destruct (int c0) as [id|] eqn:H0; try discriminate.
    destruct (int c2) as [v|] eqn:H2; [|discriminate].
    destruct (String.eqb_spec c1 "organizer") as [->|Hno].
    { intros [= <-]. exists c0, "organizer"%string, c2, more, id, v. tauto. }
    destruct (String.eqb_spec c1 "mover") as [->|Hnm]; [|discriminate].
    intros [= <-]. exists c0, "mover"%string, c2, more, id, v. tauto.
  - intros (c0 & c1 & c2 & more & id & v & -> & H0 & H2 & Hk). simpl.
    rewrite H0, H2. destruct Hk as [[-> ->] | [-> ->]]; reflexivity.
Qed.

Lemma robot_of_row_ok (int : string -> option Z) (row : list string) :
  (exists r, robot_of_row int row = inr r) <-> robot_row_ok int row.
Proof.
  split.
  - intros [r (c0 & c1 & c2 & more & id & v & -> & H0 & H2 & Hk)%robot_of_row_inr].
    exists c0, c1, c2, more, id, v. tauto.
  - intros (c0 & c1 & c2 & more & id & v & -> & H0 & H2 & [-> | ->]).
    + exists (loaded_robot id Organizer v []). apply robot_of_row_inr.
      eexists _, _, _, _, _, _. eauto 10.
    + exists (loaded_robot id Mover v []). apply robot_of_row_inr.
      eexists _, _, _, _, _, _. eauto 10.
Qed.

Lemma platform_of_row_inr (int : string -> option Z) (row : list string)
  (pl : Platform.t) :
  platform_of_row int row = inr pl <->
  exists c0 c1 more id,
    row = c0 :: c1 :: more /\ int c0 = Some id /\ pl = loaded_platform id c1.
Proof.
  unfold platform_of_row, int_cell, cell, to_int, bind. split.
  - destruct row as [|c0 [|c1 more]]; simpl;
      try discriminate; destruct (int c0) as [id|] eqn:H0; try discriminate.
    intros [= <-]. now exists c0, c1, more, id.
  - intros (c0 & c1 & more & id & -> & H0 & ->). simpl. now rewrite H0.
Qed.

Lemma path_row_ok_cells (int : string -> option Z) (row : list string) :
  path_row_ok int row <->
  exists id p, int_cell int row 0 = inr id /\ int_cell int row 1 = inr p.
Proof.
  split.
  - intros (c0 & c1 & more & id & p & -> & H0 & H1). exists id, p.
    split; apply int_cell_inr; eauto.
  - intros (id & p & (c0 & Hc0 & H0)%int_cell_inr & (c1 & Hc1 & H1)%int_cell_inr).
    destruct row as [|c0' [|c1' more]]; simpl in *; try discriminate.
    simplify_eq. now exists c0, c1, more, id, p.
Qed.

(** ** Dictionaries of references *)

Lemma indexes_nil {A : Type} (key : A -> Z) : indexes key [] ∅.
Proof.
  intros id k. rewrite lookup_empty. split; [discriminate|].
  intros [(x & Hx & _) _]. now rewrite lookup_nil in Hx.
Qed.

Lemma indexes_snoc {A : Type} (key : A -> Z) (l : list A) (m : gmap Z nat)
  (x : A) :
  indexes key l m -> indexes key (l ++ [x]) (<[key x := length l]> m).
Proof.
  intros Hm id k. destruct (decide (key x = id)) as [<-|Hne].
  - rewrite lookup_insert_eq. split.
    + intros [= <-]. split.
      * exists x. split; [|reflexivity]. apply list_lookup_middle. reflexivity.
      * intros j y Hj _. apply lookup_lt_Some in Hj.
        rewrite length_app in Hj. simpl in Hj. lia.
    + intros [(y & Hy & _) Hmax]. f_equal.
      apply lookup_lt_Some in Hy. rewrite length_app in Hy. simpl in Hy.
      specialize (Hmax (length l) x (list_lookup_middle l [] x _ eq_refl) eq_refl).
      lia.
  - rewrite lookup_insert_ne by exact Hne. rewrite (Hm id k). split.
    + intros [(y & Hy & Hky) Hmax]. split.
      * exists y. split; [|exact Hky]. now apply lookup_app_l_Some.
      * intros j z Hj Hkz. apply lookup_app_Some in Hj as [Hj | [_ Hj]].
        { now apply (Hmax j z). }
        apply list_lookup_singleton_Some in Hj as [_ <-]. contradiction.
    + intros [(y & Hy & Hky) Hmax].
      apply lookup_app_Some in Hy as [Hy | [_ Hy]].
      2:{ apply list_lookup_singleton_Some in Hy as [_ <-]. contradiction. }
      split; [now exists y|].
      intros j z Hj Hkz. apply (Hmax j z); [|exact Hkz].
      now apply lookup_app_l_Some.
Qed.

(** ** The loops of the loader *)

Lemma read_robot_rows_inr (int : string -> option Z) (rows : list (list string))
  (rs rs' : list Robot.t) (m m' : gmap Z nat) :
  read_robot_rows int rows rs m = inr (rs', m') ->
  indexes Robot.robot_id rs m ->
  exists new,
    Forall2 (fun row r => robot_of_row int row = inr r) rows new /\
    rs' = rs ++ new /\ indexes Robot.robot_id rs' m'.
Proof.
  revert rs m. induction rows as [|row rows IH]; intros rs m; simpl.
  - intros [= <- <-] Hm. exists []. rewrite app_nil_r. split; [constructor|]. now split.
  - destruct (robot_of_row int row) as [e|r] eqn:Hrow; simpl; [discriminate|].
    intros Hread Hm.
    destruct (IH _ _ Hread (indexes_snoc _ rs m r Hm)) as (new & Hnew & -> & Hm').
    exists (r :: new). split; [now constructor|].
    split; [now rewrite <- app_assoc|]. exact Hm'.
Qed.

Lemma read_robot_rows_ok (int : string -> option Z) (rows : list (list string))
  (rs : list Robot.t) (m : gmap Z nat) :
  (exists res, read_robot_rows int rows rs m = inr res) <->
  Forall (robot_row_ok int) rows.
Proof.
  revert rs m. induction rows as [|row rows IH]; intros rs m; simpl.
  - split; [constructor | now eexists].
  - rewrite Forall_cons, <- robot_of_row_ok.
    destruct (robot_of_row int row) as [e|r]; simpl.
    + split; [now intros [? ?] | now intros [[? ?] _]].
    + rewrite IH. split; [intros H; split; [now eexists | exact H] | tauto].
Qed.

Lemma read_platform_rows_inr (int : string -> option Z)
  (rows : list (list string)) (pls pls' : list Platform.t) (m m' : gmap Z nat) :
  read_platform_rows int rows pls m = inr (pls', m') ->
  indexes Platform.platform_id pls m ->
  exists new,
    Forall2 (fun row pl => platform_of_row int row = inr pl) rows new /\
    pls' = pls ++ new /\ indexes Platform.platform_id pls' m'.
Proof.
  revert pls m. induction rows as [|row rows IH]; intros pls m; simpl.
  - intros [= <- <-] Hm. exists []. rewrite app_nil_r. split; [constructor|]. now split.
  - destruct (platform_of_row int row) as [e|pl] eqn:Hrow; simpl; [discriminate|].
    intros Hread Hm.
    destruct (IH _ _ Hread (indexes_snoc _ pls m pl Hm))
      as (new & Hnew & -> & Hm').
    exists (pl :: new). split; [now constructor|].
    split; [now rewrite <- app_assoc|]. exact Hm'.
Qed.

Lemma platform_of_row_ok (int : string -> option Z) (row : list string) :
  (exists pl, platform_of_row int row = inr pl) <-> node_row_ok int row.
Proof.
  split.
  - intros [pl (c0 & c1 & more & id & -> & H0 & _)%platform_of_row_inr].
    now exists c0, c1, more, id.
  - intros (c0 & c1 & more & id & -> & H0).
    exists (loaded_platform id c1). apply platform_of_row_inr.
    now exists c0, c1, more, id.
Qed.

Lemma read_platform_rows_ok (int : string -> option Z)
  (rows : list (list string)) (pls : list Platform.t) (m : gmap Z nat) :
  (exists res, read_platform_rows int rows pls m = inr res) <->
  Forall (node_row_ok int) rows.
Proof.
  revert pls m. induction rows as [|row rows IH]; intros pls m; simpl.
  - split; [constructor | now eexists].
  - rewrite Forall_cons, <- platform_of_row_ok.
    destruct (platform_of_row int row) as [e|pl]; simpl.
    + split; [now intros [? ?] | now intros [[? ?] _]].
    + rewrite IH. split; [intros H; split; [now eexists | exact H] | tauto].
Qed.

Lemma read_path_rows_ok (int : string -> option Z) (rows : list (list string))
  (rs : list Robot.t) :
  (exists rs', read_path_rows int rows rs = inr rs') <->
  Forall (path_row_ok int) rows.
Proof.
  revert rs. induction rows as [|row rows IH]; intros rs; simpl.
  - split; [constructor | now eexists].
  - rewrite Forall_cons, path_row_ok_cells.
    destruct (int_cell int row 0) as [e|id]; simpl.
    { split; [now intros [? ?] | now intros [(? & ? & ? & _) _]]. }
    destruct (int_cell int row 1) as [e|p]; simpl.
    { split; [now intros [? ?] | now intros [(? & ? & _ & ?) _]]. }
    rewrite IH. split; [intros H; split; [now eexists _, _ | exact H] | tauto].
Qed.

(** The ids stay where they are when a position is appended. *)
Lemma append_position_ids (id p : Z) (rs : list Robot.t) :
  Robot.robot_id <$> append_position id p rs = Robot.robot_id <$> rs.
Proof.
  induction rs as [|r rs IH]; [reflexivity|]. cbn [append_position].
  destruct (Robot.robot_id r =? id); [reflexivity|].
  rewrite !fmap_cons. now rewrite IH.
Qed.

Lemma append_position_lookup (id p : Z) (rs : list Robot.t) (k : nat) :
  append_position id p rs !! k =
  (fun r =>
     if decide (Robot.robot_id r = id /\ id ∉ (Robot.robot_id <$> take k rs))
     then Robot.with_path r (Robot.path r ++ [p]) else r) <$> rs !! k.
Proof.
  revert k. induction rs as [|r rs IH]; intros k; [reflexivity|].
  cbn [append_position].
  destruct (Z.eqb_spec (Robot.robot_id r) id) as [Heq|Hne].
  - destruct k as [|k]; simpl.
    + rewrite decide_True; [reflexivity|]. split; [exact Heq|]. apply not_elem_of_nil.
    + destruct (rs !! k) as [r'|]; [|reflexivity]. simpl.
      rewrite decide_False; [reflexivity|]. intros [_ Hout]. apply Hout.
      rewrite Heq. left.
  - destruct k as [|k]; simpl.
    + rewrite decide_False; [reflexivity|]. tauto.
    + rewrite IH. destruct (rs !! k) as [r'|]; [|reflexivity]. simpl.
      f_equal. repeat case_decide; try reflexivity; exfalso.
      all: rewrite not_elem_of_cons in *; destruct_and?.
      all: match goal with
           | H : ¬ _ |- _ =>
               apply H; repeat split; first [assumption | congruence]
           end.
Qed.

Lemma read_path_rows_lookup (int : string -> option Z)
  (rows : list (list string)) (rs rs' : list Robot.t) (k : nat) :
  read_path_rows int rows rs = inr rs' ->
  rs' !! k =
  (fun r =>
     Robot.with_path r
       (Robot.path r ++
        if decide (Robot.robot_id r ∈ (Robot.robot_id <$> take k rs)) then []
        else positions_of int (Robot.robot_id r) rows)) <$> rs !! k.
Proof.
  revert rs. induction rows as [|row rows IH]; intros rs; simpl.
  - intros [= <-]. destruct (rs !! k) as [r|]; [|reflexivity]. simpl.
    f_equal. destruct r. unfold Robot.with_path. simpl.
    case_decide; now rewrite app_nil_r.
  - destruct (int_cell int row 0) as [e|id]; simpl; [discriminate|].
    destruct (int_cell int row 1) as [e|p]; simpl; [discriminate|].
    intros Hread. rewrite (IH _ Hread), append_position_lookup.
    rewrite fmap_take, append_position_ids, <- fmap_take.
    destruct (rs !! k) as [r|]; [|reflexivity]. simpl. f_equal.
    destruct (Z.eqb_spec id (Robot.robot_id r)) as [Heq|Hne];
      repeat case_decide; destruct r; unfold Robot.with_path in *; simpl in *;
      rewrite <- ?app_assoc; simpl; try reflexivity; exfalso;
      destruct_and?; simplify_eq; tauto.
Qed.

(** ** What [read_robots] returns *)

Lemma read_robots_inr (int : string -> option Z) (rr pr : list (list string))
  (rs : list Robot.t) (m : gmap Z nat) :
  read_robots int rr pr = inr (rs, m) ->
  exists rs0,
    Forall2 (fun row r => robot_of_row int row = inr r) rr rs0 /\
    read_path_rows int pr rs0 = inr rs /\
    indexes Robot.robot_id rs0 m.
Proof.
  unfold read_robots.
  destruct (read_robot_rows int rr [] ∅) as [e|[rs0 m0]] eqn:Hrows; simpl;
    [discriminate|].
  destruct (read_path_rows int pr rs0) as [e|rs1] eqn:Hpaths; simpl;
    [discriminate|].
  intros [= <- <-].
  destruct (read_robot_rows_inr int rr [] rs0 ∅ m0 Hrows (indexes_nil _))
    as (new & Hnew & -> & Hm).
  now exists new.
Qed.

Lemma read_path_rows_ids (int : string -> option Z) (rows : list (list string))
  (rs rs' : list Robot.t) :
  read_path_rows int rows rs = inr rs' ->
  Robot.robot_id <$> rs' = Robot.robot_id <$> rs.
Proof.
  revert rs. induction rows as [|row rows IH]; intros rs; simpl.
  - now intros [= <-].
  - destruct (int_cell int row 0) as [e|id]; simpl; [discriminate|].
    destruct (int_cell int row 1) as [e|p]; simpl; [discriminate|].
    intros Hread. now rewrite (IH _ Hread), append_position_ids.
Qed.

Lemma indexes_ids {A : Type} (key : A -> Z) (l l' : list A) (m : gmap Z nat) :
  key <$> l' = key <$> l -> indexes key l m -> indexes key l' m.
Proof.
  intros Hids Hm id k. rewrite (Hm id k).
  assert (Hlook : forall j a, (exists x, l !! j = Some x /\ key x = a) <->
                              (exists x, l' !! j = Some x /\ key x = a)).
  { intros j a. transitivity ((key <$> l) !! j = Some a).
    - rewrite list_lookup_fmap. destruct (l !! j) as [x|]; simpl.
      + split; [intros (? & [= <-] & <-); reflexivity
               | intros [= <-]; now exists x].
      + split; [now intros (? & ? & _) | discriminate].
    - rewrite <- Hids, list_lookup_fmap. destruct (l' !! j) as [x|]; simpl.
      + split; [intros [= <-]; now exists x
               | intros (? & [= <-] & <-); reflexivity].
      + split; [discriminate | now intros (? & ? & _)]. }
  unfold last_with. rewrite (Hlook k id). apply and_iff_compat_l. split.
  - intros Hmax j y Hj Hy.
    destruct (proj2 (Hlook j id) (ex_intro _ y (conj Hj Hy))) as (x & Hx & Hkx).
    now apply (Hmax j x).
  - intros Hmax j y Hj Hy.
    destruct (proj1 (Hlook j id) (ex_intro _ y (conj Hj Hy))) as (x & Hx & Hkx).
    now apply (Hmax j x).
Qed.

Lemma read_robots_lookup (int : string -> option Z) (rr pr : list (list string))
  (rs : list Robot.t) (m : gmap Z nat) :
  read_robots int rr pr = inr (rs, m) ->
  length rs = length rr /\
  forall k row, rr !! k = Some row ->
    exists id kind v,
      robot_of_row int row = inr (loaded_robot id kind v []) /\
      rs !! k =
        Some (loaded_robot id kind v
                (if decide (id ∈ (Robot.robot_id <$> take k rs)) then []
                 else positions_of int id pr)).
Proof.
  intros (rs0 & Hrows & Hpaths & _)%read_robots_inr.
  pose proof (read_path_rows_ids _ _ _ _ Hpaths) as Hids.
  split.
  { rewrite <- (length_fmap Robot.robot_id rs), Hids, length_fmap.
    symmetry. exact (Forall2_length _ _ _ Hrows). }
  intros k row Hrow.
  destruct (Forall2_lookup_l _ _ _ _ _ Hrows Hrow) as (r0 & Hr0 & Hrob).
  rewrite (read_path_rows_lookup _ _ _ _ k Hpaths), Hr0. simpl.
  rewrite fmap_take, <- Hids, <- fmap_take.
  pose proof Hrob as Hrob'.
  apply robot_of_row_inr in Hrob'
    as (c0 & c1 & c2 & more & id & v & -> & H0 & H2 & [[-> ->] | [-> ->]]).
  - exists id, Organizer, v. split; [exact Hrob | reflexivity].
  - exists id, Mover, v. split; [exact Hrob | reflexivity].
Qed.

(** ** What [read_platforms] returns *)

Lemma read_platforms_inr (int : string -> option Z) (nr : list (list string))
  (pls : list Platform.t) (refs : gmap Z nat) :
  read_platforms int nr = inr (pls, refs) ->
  Forall2 (fun row pl => platform_of_row int row = inr pl) nr pls /\
  indexes Platform.platform_id pls refs.
Proof.
  unfold read_platforms. intros Hread.
  destruct (read_platform_rows_inr int nr [] pls ∅ refs Hread (indexes_nil _))
    as (new & Hnew & -> & Hm).
  now split.
Qed.

(** The last row with the id [p], seen from the list of platforms. *)
Lemma node_type_of_last (int : string -> option Z) (p : Z)
  (nr : list (list string)) (pls : list Platform.t) :
  Forall2 (fun row pl => platform_of_row int row = inr pl) nr pls ->
  match node_type_of int p nr with
  | Some nt =>
      exists k, last_with Platform.platform_id pls p k /\
        pls !! k = Some (loaded_platform p nt)
  | None => forall k pl, pls !! k = Some pl -> Platform.platform_id pl <> p
  end.
Proof.
  induction 1 as [|row pl nr pls Hrow _ IH]; simpl.
  - intros k pl Hk. now rewrite lookup_nil in Hk.
  - apply platform_of_row_inr in Hrow as (c0 & c1 & more & id & -> & H0 & ->).
    destruct (node_type_of int p nr) as [nt|].
    + destruct IH as (k & [(x & Hx & Hkx) Hmax] & Hk). exists (S k).
      split; [|exact Hk]. split; [now exists x|].
      intros [|j] y Hj Hy; [lia|]. specialize (Hmax j y Hj Hy). lia.
    + unfold int_cell, cell, to_int, bind. simpl. rewrite H0.
      destruct (Z.eqb_spec id p) as [->|Hne].
      * exists 0%nat. split; [|reflexivity]. split; [now eexists|].
        intros [|j] y Hj Hy; [lia|]. now destruct (IH j y Hj).
      * intros [|k] pl Hk; [|now apply (IH k)].
        injection Hk as <-. exact Hne.
Qed.

Lemma objects_lookup (int : string -> option Z) (nr : list (list string))
  (pls : list Platform.t) (refs : gmap Z nat) (p : Z) :
  read_platforms int nr = inr (pls, refs) ->
  objects pls refs !! p = loaded_platform p <$> node_type_of int p nr.
Proof.
  intros [Hrows Hrefs]%read_platforms_inr.
  pose proof (node_type_of_last int p nr pls Hrows) as Hlast.
  unfold objects. rewrite lookup_omap.
  destruct (node_type_of int p nr) as [nt|]; simpl.
  - destruct Hlast as (k & Hk & Hpl).
    apply (Hrefs p k) in Hk. rewrite Hk. exact Hpl.
  - destruct (refs !! p) as [k|] eqn:Hk; [|reflexivity]. exfalso.
    apply (Hrefs p k) in Hk as [(x & Hx & Hkx) _]. now apply (Hlast k x).
Qed.

Lemma objects_bounded (int : string -> option Z) (nr : list (list string))
  (pls : list Platform.t) (refs : gmap Z nat) :
  read_platforms int nr = inr (pls, refs) ->
  platforms_bounded 0 (objects pls refs).
Proof.
  intros Hread p pl. rewrite (objects_lookup int nr pls refs p Hread).
  destruct (node_type_of int p nr) as [nt|]; simpl; [|discriminate].
  intros [= <-]. simpl. split; [now right | lia].
Qed.

(** ** The loader as a whole *)

(** X10: [read_robots] returns exactly when every row of the robots file
    has at least three cells, of which the first and the third are read by
    [int] and the second is ['organizer'] or ['mover'], and every row of the
    paths file has at least two cells, both read by [int].  Cells after
    those are ignored. *)
Theorem read_robots_completes_iff (int : string -> option Z)
  (robot_rows path_rows : list (list string)) :
  (exists res, read_robots int robot_rows path_rows = inr res) <->
  Forall (robot_row_ok int) robot_rows /\ Forall (path_row_ok int) path_rows.
Proof.
  unfold read_robots.
  rewrite <- (read_robot_rows_ok int robot_rows [] ∅).
  destruct (read_robot_rows int robot_rows [] ∅) as [e|loaded]; simpl.
  - split; [now intros [? ?] | now intros [[? ?] _]].
  - rewrite <- (read_path_rows_ok int path_rows (fst loaded)).
    destruct (read_path_rows int path_rows (fst loaded)) as [e|rs]; simpl.
    + split; [now intros [? ?] | now intros [_ [? ?]]].
    + split; [intros _; split; now eexists | intros _; now eexists].
Qed.

(** X11: what [read_robots] returns.  There is one robot per row of the
    robots file, in the order of the file, in state 1 with no time left and
    no time spent.  The path of a robot is the list of the positions that
    the paths file gives for its id, in the order of the file, if no earlier
    robot has the same id; it is empty if one has.  A row of the paths file
    whose id no robot has is dropped.  [robot_map] refers for each id to
    the last robot with it. *)
Theorem read_robots_result (int : string -> option Z)
  (robot_rows path_rows : list (list string)) (rs : list Robot.t)
  (robot_map : gmap Z nat)
  (Hread : read_robots int robot_rows path_rows = inr (rs, robot_map)) :
  length rs = length robot_rows /\
  (forall k row, robot_rows !! k = Some row ->
     exists id kind v,
       robot_of_row int row = inr (loaded_robot id kind v []) /\
       rs !! k =
         Some (loaded_robot id kind v
                 (if decide (id ∈ (Robot.robot_id <$> take k rs)) then []
                  else positions_of int id path_rows))) /\
  indexes Robot.robot_id rs robot_map.
Proof.
  destruct (read_robots_lookup _ _ _ _ _ Hread) as [Hlen Hrows].
  split; [exact Hlen|]. split; [exact Hrows|].
  apply read_robots_inr in Hread as (rs0 & _ & Hpaths & Hm).
  apply (indexes_ids _ rs0); [|exact Hm].
  exact (read_path_rows_ids _ _ _ _ Hpaths).
Qed.

Lemma read_robots_result_witness :
  exists rs robot_map,
    read_robots decimal sample_robots sample_paths = inr (rs, robot_map) /\
    rs !! 2%nat = Some (loaded_robot 3 Mover 1 [1; 1]) /\
    rs !! 4%nat = Some (loaded_robot 1 Mover 7 []) /\
    robot_map !! 1 = Some 4%nat.
Proof.
  destruct (read_robots decimal sample_robots sample_paths)
    as [e|[rs robot_map]] eqn:Hread; [vm_compute in Hread; discriminate|].
  exists rs, robot_map. split; [reflexivity|].
  pose proof (read_robots_result decimal sample_robots sample_paths rs robot_map
                Hread) as (_ & _ & Hmap).
  vm_compute in Hread. injection Hread as <- <-.
  split; [reflexivity|]. split; [reflexivity|].
  apply (Hmap 1 4%nat). split.
  - eexists. split; reflexivity.
  - intros j y Hj _. apply lookup_lt_Some in Hj. simpl in Hj. lia.
Defined.

(** X12: [read_platforms] returns exactly when every row of the nodes file
    has at least two cells, of which the first is read by [int].  The node
    type is not looked at: a row with a node type other than ['A'] and ['B']
    is loaded like any other. *)
Theorem read_platforms_completes_iff (int : string -> option Z)
  (node_rows : list (list string)) :
  (exists res, read_platforms int node_rows = inr res) <->
  Forall (node_row_ok int) node_rows.
Proof. exact (read_platform_rows_ok int node_rows [] ∅). Qed.

(** X13: what [read_platforms] returns.  There is one platform per row of
    the nodes file, in the order of the file, free, with no time left and an
    empty queue and log.  The dictionary refers for each id to the last
    platform with it, so the scheduler sees, for an id, a platform with the
    node type of the last row that has the id, and none for an id that no
    row has. *)
Theorem read_platforms_result (int : string -> option Z)
  (node_rows : list (list string)) (platforms : list Platform.t)
  (refs : gmap Z nat)
  (Hread : read_platforms int node_rows = inr (platforms, refs)) :
  Forall2 (fun row pl =>
             exists id nt, int_cell int row 0 = inr id /\ cell row 1 = inr nt /\
               pl = loaded_platform id nt) node_rows platforms /\
  indexes Platform.platform_id platforms refs /\
  forall p, objects platforms refs !! p =
            loaded_platform p <$> node_type_of int p node_rows.
Proof.
  pose proof (read_platforms_inr _ _ _ _ Hread) as [Hrows Hrefs].
  split; [|split; [exact Hrefs|]].
  - eapply Forall2_impl; [exact Hrows|]. intros row pl.
    intros (c0 & c1 & more & id & -> & H0 & ->)%platform_of_row_inr.
    exists id, c1. split; [|now split]. apply int_cell_inr. now exists c0.
  - intros p. exact (objects_lookup int node_rows platforms refs p Hread).
Qed.

Lemma read_platforms_result_witness :
  exists platforms refs,
    read_platforms decimal sample_nodes = inr (platforms, refs) /\
    length platforms = 4%nat /\
    objects platforms refs !! 1 = Some (loaded_platform 1 "A").
Proof.
  destruct (read_platforms decimal sample_nodes)
    as [e|[platforms refs]] eqn:Hread; [vm_compute in Hread; discriminate|].
  exists platforms, refs. split; [reflexivity|].
  pose proof (read_platforms_result decimal sample_nodes platforms refs Hread)
    as (Hrows & _ & Hobj).
  split; [now rewrite <- (Forall2_length _ _ _ Hrows)|].
  now rewrite (Hobj 1).
Defined.

(** ** The main program *)

Lemma robot_of_row_id (int : string -> option Z) (row : list string)
  (r : Robot.t) :
  robot_of_row int row = inr r -> int_cell int row 0 = inr (Robot.robot_id r).
Proof.
  intros (c0 & c1 & c2 & more & id & v & -> & H0 & _ & Hk)%robot_of_row_inr.
  apply int_cell_inr. exists c0. split; [reflexivity|].
  now destruct Hk as [[_ ->] | [_ ->]].
Qed.

Lemma refresh_lookup (refs : gmap Z nat) (pm : gmap Z Platform.t)
  (pls : list Platform.t) (k : nat) (pl : Platform.t) :
  indexes Platform.platform_id pls refs ->
  platform_static (objects pls refs) pm ->
  pls !! k = Some pl ->
  exists pl', refresh refs pm pls !! k = Some pl' /\
    Platform.platform_id pl' = Platform.platform_id pl /\
    Platform.node_type pl' = Platform.node_type pl /\
    Platform.visitor pl `prefix_of` Platform.visitor pl' /\
    ((exists j pl2, (k < j)%nat /\ pls !! j = Some pl2 /\
        Platform.platform_id pl2 = Platform.platform_id pl) -> pl' = pl).
Proof.
  intros Hrefs Hstatic Hk. unfold refresh.
  rewrite list_lookup_imap, Hk. simpl. eexists. split; [reflexivity|].
  case_decide as Href.
  - specialize (Hstatic (Platform.platform_id pl)).
    unfold objects in Hstatic. rewrite lookup_omap, Href in Hstatic.
    simpl in Hstatic. rewrite Hk in Hstatic.
    destruct Hstatic as (pl' & -> & Hid & Hnt & Hlog). simpl.
    repeat split; try assumption.
    intros (j & pl2 & Hlt & Hj & Hid2). exfalso.
    apply (Hrefs _ k) in Href as [_ Hmax]. specialize (Hmax j pl2 Hj Hid2). lia.
  - repeat split; reflexivity.
Qed.

(** X15: what a run of the program that completes has written, in terms of
    the state [s] the scheduler has reached.  The robots file of the output
    has the header and one row per row of the robots file of the input, in
    the same order: the [robot_id] and the [time_spend] that the robot at
    that position has in [s]; the id is the one of the input row, and the
    same pair is printed.  The time is at least 1 for each of the first
    four robots, and 0 for any further robot: those are never scheduled.
    The platforms file has the header and one row per row of the nodes
    file, in the same order.  For a row whose id does not come again further
    down, it is the id followed by the whole visitor log that the platform
    of that id has in [s], however long; for a row whose id comes again
    further down, it is the id alone, because the scheduler works on the
    platform of the later row. *)
Theorem main_report (int : string -> option Z) (fuel : nat)
  (robot_rows path_rows node_rows : list (list string)) (rep : Report)
  (Hmain : main int fuel robot_rows path_rows node_rows = Some (inr rep)) :
  exists rs robot_map platforms refs s,
    read_robots int robot_rows path_rows = inr (rs, robot_map) /\
    read_platforms int node_rows = inr (platforms, refs) /\
    schedule fuel rs (objects platforms refs) = Some (Done tt s) /\
    length (robot_info rep) = S (length robot_rows) /\
    length (printed rep) = length robot_rows /\
    length (platform_info rep) = S (length node_rows) /\
    robot_info rep !! 0%nat = Some [Text "Robot ID"; Text "Total Time"] /\
    platform_info rep !! 0%nat =
      Some [Text "Platform ID"; Text "Visitor 1"; Text "Visitor 2";
            Text "Visitor 3"; Text "Visitor 4"] /\
    (forall k row, robot_rows !! k = Some row ->
       exists r,
         store s !! k = Some r /\
         int_cell int row 0 = inr (Robot.robot_id r) /\
         robot_info rep !! S k =
           Some [Num (Robot.robot_id r); Num (Robot.time_spend r)] /\
         printed rep !! k =
           Some ("Robot " +:+ pretty (Robot.robot_id r) +:+ " total time: "
                   +:+ pretty (Robot.time_spend r)) /\
         ((k < 4)%nat -> 1 <= Robot.time_spend r) /\
         ((4 <= k)%nat -> Robot.time_spend r = 0)) /\
    (forall k row, node_rows !! k = Some row ->
       exists id,
         int_cell int row 0 = inr id /\
         ((forall j row', (k < j)%nat -> node_rows !! j = Some row' ->
             int_cell int row' 0 <> inr id) ->
          exists pl,
            platform_map s !! id = Some pl /\
            platform_info rep !! S k =
              Some (Num id :: map Num (Platform.visitor pl))) /\
         ((exists j row', (k < j)%nat /\ node_rows !! j = Some row' /\
             int_cell int row' 0 = inr id) ->
          platform_info rep !! S k = Some [Num id])).
Proof.
  unfold main in Hmain.
  destruct (read_robots int robot_rows path_rows) as [e|[rs robot_map]] eqn:Hrs;
    [discriminate|].
  destruct (read_platforms int node_rows) as [e|[pls refs]] eqn:Hpls;
    [discriminate|].
  destruct (schedule fuel rs (objects pls refs)) as [[[] s | e s]|] eqn:Hrun;
    try discriminate.
  injection Hmain as <-. simpl.
  exists rs, robot_map, pls, refs, s.
  split; [reflexivity|]. split; [reflexivity|]. split; [exact Hrun|].
  destruct (read_robots_lookup _ _ _ _ _ Hrs) as [Hlen Hrows].
  destruct (read_platforms_inr _ _ _ _ Hpls) as [Hnodes Hrefs].
  destruct (schedule_store _ _ _ _ Hrun) as ([Hlen' Hst] & Hpst & Hfour & Hrest).
  split; [now rewrite length_map, Hlen', Hlen|].
  split; [unfold print_totals; now rewrite length_map, Hlen', Hlen|].
  split.
  { unfold refresh. rewrite length_map, length_imap.
    now rewrite <- (Forall2_length _ _ _ Hnodes). }
  do 2 (split; [reflexivity|]).
  split.
  - intros k row Hrow.
    destruct (Hrows k row Hrow) as (id & kind & v & Hrob & Hk).
    apply robot_of_row_id in Hrob. simpl in Hrob.
    destruct (Hst k _ Hk) as (r' & Hr' & Hid & _). simpl in Hid.
    exists r'. split; [exact Hr'|]. rewrite Hid. split; [exact Hrob|].
    unfold print_totals. rewrite !list_lookup_fmap, Hr'. simpl. rewrite Hid.
    split; [reflexivity|]. split; [reflexivity|]. split.
    + intros Hlt. destruct (Hfour k) as (r & r2 & Hr & Hr2 & Hts).
      { rewrite !elem_of_cons, elem_of_nil. lia. }
      rewrite Hk in Hr. injection Hr as <-. simpl in Hts.
      rewrite Hr' in Hr2. injection Hr2 as <-. lia.
    + intros Hge. rewrite (Hrest k Hge), Hk in Hr'. now injection Hr' as <-.
  - intros k row Hrow.
    destruct (Forall2_lookup_l _ _ _ _ _ Hnodes Hrow) as (pl & Hpl & Hrowpl).
    apply platform_of_row_inr in Hrowpl
      as (c0 & c1 & more & id & -> & H0 & ->).
    exists id. split; [apply int_cell_inr; now exists c0|].
    assert (Hid_of : forall j row' pl2, node_rows !! j = Some row' ->
              pls !! j = Some pl2 ->
              int_cell int row' 0 = inr (Platform.platform_id pl2)).
    { intros j row' pl2 Hrow' Hpl2.
      destruct (Forall2_lookup_l _ _ _ _ _ Hnodes Hrow') as (pl3 & Hpl3 & Hrowpl3).
      rewrite Hpl2 in Hpl3. injection Hpl3 as <-.
      apply platform_of_row_inr in Hrowpl3
        as (d0 & d1 & more' & id2 & -> & Hd0 & ->).
      apply int_cell_inr. now exists d0. }
    split.
    + intros Hlast.
      assert (Href : refs !! id = Some k).
      { apply (Hrefs id k). split; [eexists; split; [exact Hpl | reflexivity]|].
        intros j pl2 Hj Hid2.
        destruct (Nat.le_gt_cases j k) as [Hle|Hgt]; [exact Hle|]. exfalso.
        destruct (Forall2_lookup_r _ _ _ _ _ Hnodes Hj) as (row' & Hrow' & _).
        apply (Hlast j row' Hgt Hrow'). rewrite <- Hid2.
        now apply (Hid_of j row' pl2). }
      pose proof (Hpst id) as Hfinal. unfold objects in Hfinal.
      rewrite lookup_omap, Href in Hfinal. simpl in Hfinal.
      rewrite Hpl in Hfinal.
      destruct Hfinal as (pl' & Hpl' & Hid' & _). simpl in Hid'.
      exists pl'. split; [exact Hpl'|].
      unfold refresh. rewrite list_lookup_fmap, list_lookup_imap, Hpl. simpl.
      rewrite decide_True by exact Href. rewrite Hpl'. simpl. now rewrite Hid'.
    + intros (j & row' & Hlt & Hrow' & Hid').
      destruct (Forall2_lookup_l _ _ _ _ _ Hnodes Hrow') as (pl2 & Hpl2 & _).
      pose proof (Hid_of j row' pl2 Hrow' Hpl2) as Hid2.
      rewrite Hid' in Hid2. injection Hid2 as Hid2.
      unfold refresh. rewrite list_lookup_fmap, list_lookup_imap, Hpl. simpl.
      rewrite decide_False; [reflexivity|]. intros Href.
      apply (Hrefs id k) in Href as [_ Hmax].
      specialize (Hmax j pl2 Hpl2 (eq_sym Hid2)). lia.
Qed.

Lemma main_report_witness :
  exists rep,
    main decimal 50 sample_robots sample_paths sample_nodes = Some (inr rep) /\
    robot_info rep !! 5%nat = Some [Num 1; Num 0] /\
    platform_info rep !! 1%nat = Some [Num 1].
Proof.
  destruct (main decimal 50 sample_robots sample_paths sample_nodes)
    as [[e|rep]|] eqn:Hmain; [vm_compute in Hmain; discriminate| |
                                 vm_compute in Hmain; discriminate].
  exists rep. split; [reflexivity|].
  destruct (main_report decimal 50 sample_robots sample_paths sample_nodes rep
              Hmain)
    as (rs & robot_map & pls & refs & s & _ & _ & _ & _ & _ & _ & _ & _ &
        Hrobots & Hplatforms).
  split.
  - destruct (Hrobots 4%nat _ eq_refl) as (r & _ & Hid & -> & _ & _ & Ht).
    injection Hid as <-. rewrite Ht by lia. reflexivity.
  - destruct (Hplatforms 0%nat _ eq_refl) as (id & Hid & _ & Hshadow).
    injection Hid as <-. apply Hshadow.
    exists 3%nat. eexists. split; [lia|]. split; reflexivity.
Defined.

(** X14: the program completes on well-formed files.  If the robots and
    paths files are read, every row of the nodes file is accepted, and each
    of the first four robots has a path that is not empty and leads over
    ids whose last row in the nodes file has node type ['A'] or ['B'], then
    nothing is raised, the loop of [run] exits and the output is written.
    A loaded platform is free with no time left, so the loop makes at most
    [tick_bound 0 rs] iterations, and no robot is reported with a total
    time of that much. *)
Theorem main_completes (int : string -> option Z)
  (robot_rows path_rows node_rows : list (list string)) (rs : list Robot.t)
  (robot_map : gmap Z nat)
  (Hrobots : read_robots int robot_rows path_rows = inr (rs, robot_map))
  (Hnodes : Forall (node_row_ok int) node_rows)
  (Hfleet : forall i, i ∈ [0; 2; 1; 3]%nat ->
     exists r, rs !! i = Some r /\ Robot.path r <> [] /\
       forall p, p ∈ Robot.path r ->
         node_type_of int p node_rows = Some "A"%string \/
         node_type_of int p node_rows = Some "B"%string) :
  exists fuel rep,
    main int fuel robot_rows path_rows node_rows = Some (inr rep) /\
    forall row, row ∈ tail (robot_info rep) ->
      exists id t, row = [Num id; Num t] /\ 0 <= t < tick_bound 0 rs.
Proof.
  apply (read_platform_rows_ok int node_rows [] ∅) in Hnodes as [[pls refs] Hpls].
  change (read_platforms int node_rows = inr (pls, refs)) in Hpls.
  pose proof (objects_bounded int node_rows pls refs Hpls) as Hplat.
  destruct (well_formed_init rs (objects pls refs)) as (s0 & Hinit & Hsafe).
  { intros i Hi. destruct (Hfleet i Hi) as (r & Hr & Hne & Hpath).
    exists r. split; [exact Hr|]. split; [exact Hne|].
    intros p Hp. rewrite (objects_lookup int node_rows pls refs p Hpls).
    destruct (Hpath p Hp) as [-> | ->]; eexists; (split; [reflexivity|]);
      [now left | now right]. }
  destruct (safe_run_completes rs _ 0 s0 Hplat Hinit Hsafe)
    as (fuel & s & Hrun & _ & Htimes).
  assert (Hsched : schedule fuel rs (objects pls refs) = Some (Done tt s)).
  { unfold schedule. now rewrite Hinit. }
  exists fuel. unfold main. rewrite Hrobots, Hpls, Hsched. eexists.
  split; [reflexivity|]. simpl.
  intros row (r' & -> & Hr')%list_elem_of_fmap.
  exists (Robot.robot_id r'), (Robot.time_spend r'). split; [reflexivity|].
  apply list_elem_of_lookup in Hr' as [k Hr'].
  destruct (read_robots_lookup _ _ _ _ _ Hrobots) as [_ Hrows].
  destruct (schedule_store _ _ _ _ Hsched) as ([Hlen Hst] & _ & _ & Hrest).
  destruct (init_done rs _ s0 Hinit) as (Hrefs & Ht0 & Hstarted).
  assert (Hnd : NoDup (robots s0)) by (rewrite Hrefs; exact NoDup_reorder).
  destruct (run_time_spend fuel s0 s Hnd Hrun) as [Hspend _].
  rewrite Hrefs, Ht0 in Hspend.
  assert (Hzero : forall r, rs !! k = Some r -> Robot.time_spend r = 0).
  { intros r Hr. pose proof (lookup_lt_Some _ _ _ Hr) as Hlt.
    destruct (read_robots_lookup _ _ _ _ _ Hrobots) as [Hl Hrw].
    rewrite Hl in Hlt. apply lookup_lt_is_Some in Hlt as [row Hrow].
    destruct (Hrw k row Hrow) as (id & kind & v & _ & Hk).
    rewrite Hr in Hk. now injection Hk as ->. }
  destruct (decide (k ∈ [0; 2; 1; 3]%nat)) as [Hin|Hout].
  - destruct (Hstarted k Hin) as (r & r0 & Hr & Hr0 & _ & d & _ & ->).
    destruct (Hspend k _ Hin Hr0) as (r2 & Hr2 & Hlo & Hhi & _).
    rewrite Hr' in Hr2. injection Hr2 as <-. simpl in Hlo, Hhi.
    rewrite (Hzero r Hr) in Hlo, Hhi.
    pose proof (active_cases
                  (Robot.mk (Robot.robot_id r) (Robot.kind r) (Robot.velocity r)
                     1 (Robot.path r) d 0)) as Hact.
    lia.
  - assert (Hge : (4 <= k)%nat).
    { rewrite !elem_of_cons, elem_of_nil in Hout. lia. }
    rewrite (Hrest k Hge) in Hr'. rewrite (Hzero r' Hr').
    destruct (init_establishes rs _ 0 s0 Hplat Hinit) as (_ & Hinv & Hpot).
    pose proof (potential_nonneg _ s0 (proj1 Hinv)). lia.
Qed.

Lemma main_completes_witness :
  exists fuel rep,
    main decimal fuel sample_robots sample_paths sample_nodes = Some (inr rep) /\
    forall row, row ∈ tail (robot_info rep) ->
      exists id t, row = [Num id; Num t] /\
        0 <= t < tick_bound 0 (loaded_robot 1 Organizer 1 [1] ::
                               loaded_robot 2 Mover 1 [2] ::
                               loaded_robot 3 Mover 1 [1; 1] ::
                               loaded_robot 4 Mover 1 [3] ::
                               loaded_robot 1 Mover 7 [] :: []).
Proof.
  refine (main_completes decimal sample_robots sample_paths sample_nodes _
            (<[1 := 4%nat]> (<[4 := 3%nat]> (<[3 := 2%nat]> (<[2 := 1%nat]> ∅))))
            _ _ _).
  - vm_compute. reflexivity.
  - repeat (apply Forall_cons; split;
            [eexists _, _, _, _; split; [reflexivity | vm_compute; reflexivity]|]).
    apply Forall_nil_2.
  - intros i Hi.
    repeat (apply elem_of_cons in Hi as [-> | Hi]); [..|now apply elem_of_nil in Hi].
    all: eexists; split; [reflexivity|]; split; [discriminate|].
    all: intros p Hp; simpl in Hp.
    all: repeat (apply elem_of_cons in Hp as [-> | Hp]);
           [..|now apply elem_of_nil in Hp].
    all: now left.
Defined.

(** X18: the rows of the platforms file, from the input files.  When the
    program completes, the row written for a row of the nodes file whose id
    does not come again further down lists, after the id, exactly the ids
    of those of the first four robots that have the platform on their
    path. *)
Theorem main_platform_rows (int : string -> option Z) (fuel : nat)
  (robot_rows path_rows node_rows : list (list string)) (rep : Report)
  (rs : list Robot.t) (robot_map : gmap Z nat) (k : nat) (row : list string)
  (id : Z)
  (Hmain : main int fuel robot_rows path_rows node_rows = Some (inr rep))
  (Hrobots : read_robots int robot_rows path_rows = inr (rs, robot_map))
  (Hrow : node_rows !! k = Some row)
  (Hid : int_cell int row 0 = inr id)
  (Hlast : forall j row', (k < j)%nat -> node_rows !! j = Some row' ->
     int_cell int row' 0 <> inr id) :
  exists log,
    platform_info rep !! S k = Some (Num id :: map Num log) /\
    forall x, x ∈ log <-> routed rs [0; 2; 1; 3]%nat id x.
Proof.
  unfold main in Hmain. rewrite Hrobots in Hmain.
  destruct (read_platforms int node_rows) as [e|[pls refs]] eqn:Hpls;
    [discriminate|].
  destruct (schedule fuel rs (objects pls refs)) as [[[] s | e s]|] eqn:Hrun;
    try discriminate.
  injection Hmain as <-. simpl.
  destruct (read_platforms_inr _ _ _ _ Hpls) as [Hnodes Hrefs].
  destruct (Forall2_lookup_l _ _ _ _ _ Hnodes Hrow) as (pl & Hpl & Hrowpl).
  apply platform_of_row_inr in Hrowpl as (c0 & c1 & more & id' & -> & H0 & ->).
  apply int_cell_inr in Hid as (c & [= <-] & Hc).
  rewrite H0 in Hc. injection Hc as ->.
  assert (Href : refs !! id = Some k).
  { apply (Hrefs id k). split; [eexists; split; [exact Hpl | reflexivity]|].
    intros j pl2 Hj Hid2. destruct (Nat.le_gt_cases j k) as [Hle|Hgt]; [exact Hle|].
    exfalso.
    destruct (Forall2_lookup_r _ _ _ _ _ Hnodes Hj) as (row' & Hrow' & Hrowpl2).
    apply (Hlast j row' Hgt Hrow'). apply int_cell_inr.
    apply platform_of_row_inr in Hrowpl2
      as (d0 & d1 & more' & id2 & -> & Hd0 & ->).
    exists d0. split; [reflexivity|]. simpl in Hid2. now rewrite Hd0, Hid2. }
  assert (Hobj : objects pls refs !! id = Some (loaded_platform id c1)).
  { unfold objects. rewrite lookup_omap, Href. exact Hpl. }
  destruct (schedule_store _ _ _ _ Hrun) as (_ & Hpst & _).
  pose proof (Hpst id) as Hfinal. rewrite Hobj in Hfinal.
  destruct Hfinal as (pl' & Hpl' & Hid' & _). simpl in Hid'.
  exists (Platform.visitor pl'). split.
  - unfold refresh. rewrite list_lookup_fmap, list_lookup_imap, Hpl. simpl.
    rewrite decide_True by exact Href. rewrite Hpl'. simpl. now rewrite Hid'.
  - destruct (schedule_logs _ _ _ _ Hrun) as [Hsound Hcomplete].
    intros x. split.
    + intros Hx. destruct (Hsound id x) as [(pl0 & Hpl0 & Hx0) | Hrouted].
      * now exists pl'.
      * rewrite Hobj in Hpl0. injection Hpl0 as <-. simpl in Hx0.
        now apply elem_of_nil in Hx0.
      * exact Hrouted.
    + intros Hrouted. destruct (Hcomplete id x Hrouted) as (pl2 & Hpl2 & Hx).
      rewrite Hpl' in Hpl2. now injection Hpl2 as <-.
Qed.

Lemma main_platform_rows_witness :
  exists rep,
    main decimal 50 sample_robots sample_paths sample_nodes = Some (inr rep) /\
    exists log,
      platform_info rep !! 4%nat = Some (Num 1 :: map Num log) /\
      forall x, x ∈ log <->
        routed [loaded_robot 1 Organizer 1 [1]; loaded_robot 2 Mover 1 [2];
                loaded_robot 3 Mover 1 [1; 1]; loaded_robot 4 Mover 1 [3];
                loaded_robot 1 Mover 7 []] [0; 2; 1; 3]%nat 1 x.
Proof.
  destruct (main decimal 50 sample_robots sample_paths sample_nodes)
    as [[e|rep]|] eqn:Hmain; [vm_compute in Hmain; discriminate| |
                                 vm_compute in Hmain; discriminate].
  exists rep. split; [reflexivity|].
  refine (main_platform_rows decimal 50 sample_robots sample_paths sample_nodes
            rep _
            (<[1 := 4%nat]> (<[4 := 3%nat]> (<[3 := 2%nat]> (<[2 := 1%nat]> ∅))))
            3 ["1"; "A"]%string 1 Hmain _ eq_refl eq_refl _).
  - vm_compute. reflexivity.
  - intros j row' Hlt Hrow'. apply lookup_lt_Some in Hrow'. simpl in Hrow'. lia.
Defined.
